(** * pathwise-agv: task assignment, route finding and movement coordination

    A shallow embedding of the scheduling core of the two server variants of
    the repository:

    - [Coordinator]: the backend with the global movement coordinator
      (node graph, breadth-first [findPath], charging logic,
      [coordinateSimultaneousMovement], [createTaskInternal], the task
      creation endpoint and the periodic auto-task generator);
    - [Enhanced]: [backend/enhanced_server.js] ([ServerPathfinding],
      [TimeWindowPlanner], [assignTaskToAGV], [calculateAGVScore], conflict
      detection and resolution);
    - [Frontend]: the edge list of the dashboard ([frontend/main.js]);
    - [Batch]: the dataset endpoint of the coordinator backend.

    JavaScript numbers that the code only uses as integers are modelled by
    [Z]; a value of a request body, which may be any JSON value, is given by
    what the operators of the handler return on it ([BodyValue]); objects
    used as insertion-ordered dictionaries ([systemState.agvs], the
    [movementQueue] map) are association lists; [Set]s of nodes are
    [gset Z]; the static adjacency tables are [gmap Z (list Z)]. *)

From Stdlib Require Import ZArith Lia QArith Qcanon.
From stdpp Require Import gmap strings list fin_maps relations.

Close Scope Q_scope.
Close Scope Qc_scope.
Local Open Scope Z_scope.

(* [set_solver] clears hypotheses it has already consumed. *)
#[local] Set Warnings "-clear-no-such-hyp".

(** Closes a decidable closed goal by evaluation. *)
Ltac by_compute := apply (bool_decide_unpack _); vm_compute; exact I.

(** Proves the five parts of the coordinator invariant of a concrete state:
    the table lookups are evaluated and the remaining goals decided. *)
Ltac concrete_inv :=
  split;
  [ apply (bool_decide_unpack _); vm_compute; exact I
  | intros i j a b Ha Hb Heq; simpl in Ha, Hb;
    repeat case_decide; simplify_eq; try done
  | intros i a Ha; simpl in Ha; repeat case_decide; simplify_eq;
    apply (bool_decide_unpack _); vm_compute; exact I
  | apply (bool_decide_unpack _); vm_compute; exact I
  | intros i md Hmd; simpl in Hmd; repeat case_decide; simplify_eq;
    eexists; split; [simpl; repeat case_decide; try done; reflexivity|];
    split; [simpl; lia|reflexivity] ].

(** ** Route finding over an adjacency table *)

Module Graph.

(** [g[n] || []] *)
Definition neighbors (g : gmap Z (list Z)) (n : Z) : list Z :=
  default [] (g !! n).

Definition edge (g : gmap Z (list Z)) (a b : Z) : Prop := b ∈ neighbors g a.

(** [b] can be reached from [a] along edges of [g]. *)
Definition connected (g : gmap Z (list Z)) (a b : Z) : Prop := rtc (edge g) a b.

(** Consecutive nodes of a sequence are joined by an edge. *)
Fixpoint is_walk (g : gmap Z (list Z)) (p : list Z) : Prop :=
  match p with
  | a :: (b :: _) as q => edge g a b ∧ is_walk g q
  | _ => True
  end.

(** Sum of the out-degrees of the nodes not yet in [visited]. *)
Definition unvisited_degree (g : gmap Z (list Z)) (visited : gset Z) : nat :=
  sum_list ((λ kv : Z * list Z,
               if decide (kv.1 ∈ visited) then 0%nat else length kv.2)
            <$> map_to_list g).

Definition total_degree (g : gmap Z (list Z)) : nat := unvisited_degree g ∅.

(** No edge of [g] leads out of the node set [S]. *)
Definition closed_under (g : gmap Z (list Z)) (S : gset Z) : Prop :=
  Forall (λ x, Forall (λ y, y ∈ S) (neighbors g x)) (elements S).

End Graph.

Module Coordinator.

Import Graph.

(** The 9-node grid: horizontal and vertical edges only, no edge 6-9. *)
Definition nodeGraph : gmap Z (list Z) :=
  list_to_map
    [ (1, [2; 4]); (2, [1; 3; 5]); (3, [2; 6]);
      (4, [1; 5; 7]); (5, [2; 4; 6; 8]); (6, [3; 5]);
      (7, [4; 8]); (8, [5; 7; 9]); (9, [8]) ].

Definition CHARGING_NODE : Z := 9.
Definition LOW_BATTERY_THRESHOLD : Z := 30.
Definition CHARGING_RATE : Z := 5.
Definition MAX_BATTERY : Z := 100.

(** How the [while (queue.length > 0)] loop of [findPath] ends. *)
Inductive search_result :=
| Returned (path : list Z)   (* [return path] inside the loop *)
| Exhausted                  (* the queue ran empty *)
| OutOfFuel.                 (* the model's iteration budget ran out *)

(** One iteration per unit of fuel.  [queue.shift()] takes the head;
    [queue.push] appends.  [visited] does not change while the neighbours of
    [current] are scanned, so the inner [for] is a filter. *)
Fixpoint findPath_loop (fuel : nat) (g : gmap Z (list Z)) (end_ : Z)
    (visited : gset Z) (queue : list (Z * list Z)) : search_result :=
  match fuel with
  | O => OutOfFuel
  | S fuel' =>
    match queue with
    | [] => Exhausted
    | (current, path) :: rest =>
      if decide (current = end_) then Returned path
      else if decide (current ∈ visited) then
        findPath_loop fuel' g end_ visited rest
      else
        let visited' := visited ∪ {[current]} in
        let fresh := filter (λ n, n ∉ visited') (neighbors g current) in
        findPath_loop fuel' g end_ visited'
          (rest ++ ((λ n, (n, path ++ [n])) <$> fresh))
    end
  end.

(** Enough iterations for any start and end: every iteration either drops a
    queue entry or visits a new node, see [findPath_loop_terminates]. *)
Definition findPath_fuel (g : gmap Z (list Z)) : nat := (2 + total_degree g)%nat.

Definition findPath_on (g : gmap Z (list Z)) (start end_ : Z) : list Z :=
  if decide (start = end_) then [start]
  else
    match findPath_loop (findPath_fuel g) g end_ ∅ [(start, [start])] with
    | Returned path => path
    | Exhausted => [start; end_]   (* Direct path if no route found *)
    | OutOfFuel => []              (* not reached: [findPath_loop_terminates] *)
    end.

Definition findPath (start end_ : Z) : list Z := findPath_on nodeGraph start end_.

(** *** System state *)

(** The status strings this server assigns to a vehicle. *)
Inductive Status := idle | busy | charging_route | charging | executing.

#[export] Instance Status_eq_dec : EqDecision Status.
Proof. solve_decision. Defined.

Record AGV := mkAGV {
  agv_id : string;
  position : Z;
  battery : Z;
  status : Status;
  algorithm : string
}.

(** The template string
    [agv_{num}-{start}-{end}-{HH:MM:SS}-{weight}-payload_{num}], kept as its
    fields; [log_payload = None] is the suffix [charging]. *)
Record ExecutionLog := mkLog {
  log_agvNum : string;
  log_start : Z;
  log_end : Z;
  log_time : string;
  log_weight : Z;
  log_payload : option Z
}.

Inductive TaskStatus := task_executing | task_completed.

Record Task := mkTask {
  task_id : Z;
  startNode : Z;
  endNode : Z;
  weight : Z;
  priority : option string;     (* the legacy auto-tasks carry none *)
  task_agvId : string;
  payloadNum : Z;
  executionLog : ExecutionLog;
  task_status : TaskStatus;
  createdAt : Z;
  completedAt : option Z;
  isAuto : bool;                (* [isAuto] / [isAutoGenerated] *)
  isCharging : bool
}.

(** An entry of [globalMovementState.movementQueue]. *)
Record MovementData := mkMovementData {
  path : list Z;
  currentIndex : nat;
  md_log : ExecutionLog;
  isChargingTask : bool
}.

(** An entry of [movementsToExecute]. *)
Record Movement := mkMovement {
  mv_agvId : string;
  mv_from : Z;
  mv_to : Z;
  mv_isChargingTask : bool;
  mv_newIndex : nat
}.

#[export] Instance Movement_eq_dec : EqDecision Movement.
Proof. solve_decision. Defined.

(** Messages handed to [broadcast] (the [state] snapshot they carry is left
    out). *)
Inductive Event :=
| agvMovement (agvId : string) (pos bat : Z) (isChargingRoute waited : bool)
| agvWaiting (agvId : string) (pos : option Z)
| taskCompleted (agvId : string) (pos : Z) (log : ExecutionLog) (chargingTask : bool)
| taskCreated (task : Task) (route : option (list Z))
| taskCompletedByRequest (task : Task)
| chargingTaskCreated (task : Task) (route : list Z)
| agvCharging (agvId : string) (bat pos : Z)
| chargingComplete (agvId : string) (bat pos : Z)
| simulationStarted
| simulationStopped.

(** Callbacks registered with [setTimeout] / [setInterval] and not yet
    cancelled. *)
Inductive Timer :=
| ChargingInterval (agvId : string)       (* [startCharging], every 2 s *)
| ChargingTaskTimeout (agvId : string)    (* [completeAGVTask], after 1 s *)
| AutoCompleteTimeout (taskIndex : nat) (agvId : string) (dest : Z).

(** [systemState] and [globalMovementState] together with the pending timers
    and the messages broadcast so far.  [agvs] keeps the insertion order of
    the object literal; every entry is keyed by its own [id]. *)
Record State := mkState {
  agvs : list AGV;
  tasks : list Task;
  isRunning : bool;
  totalTasksCompleted : Z;
  occupiedNodes : gset Z;
  reservedNodes : gmap Z string;
  movementQueue : list (string * MovementData);
  movementInterval : bool;
  timers : list Timer;
  broadcasts : list Event
}.

Definition with_agvs (f : list AGV → list AGV) (s : State) : State :=
  mkState (f (agvs s)) (tasks s) (isRunning s) (totalTasksCompleted s)
    (occupiedNodes s) (reservedNodes s) (movementQueue s) (movementInterval s)
    (timers s) (broadcasts s).
Definition with_tasks (f : list Task → list Task) (s : State) : State :=
  mkState (agvs s) (f (tasks s)) (isRunning s) (totalTasksCompleted s)
    (occupiedNodes s) (reservedNodes s) (movementQueue s) (movementInterval s)
    (timers s) (broadcasts s).
Definition with_isRunning (b : bool) (s : State) : State :=
  mkState (agvs s) (tasks s) b (totalTasksCompleted s)
    (occupiedNodes s) (reservedNodes s) (movementQueue s) (movementInterval s)
    (timers s) (broadcasts s).
Definition with_totalTasksCompleted (f : Z → Z) (s : State) : State :=
  mkState (agvs s) (tasks s) (isRunning s) (f (totalTasksCompleted s))
    (occupiedNodes s) (reservedNodes s) (movementQueue s) (movementInterval s)
    (timers s) (broadcasts s).
Definition with_occupiedNodes (f : gset Z → gset Z) (s : State) : State :=
  mkState (agvs s) (tasks s) (isRunning s) (totalTasksCompleted s)
    (f (occupiedNodes s)) (reservedNodes s) (movementQueue s) (movementInterval s)
    (timers s) (broadcasts s).
Definition with_reservedNodes (f : gmap Z string → gmap Z string) (s : State) : State :=
  mkState (agvs s) (tasks s) (isRunning s) (totalTasksCompleted s)
    (occupiedNodes s) (f (reservedNodes s)) (movementQueue s) (movementInterval s)
    (timers s) (broadcasts s).
Definition with_movementQueue
    (f : list (string * MovementData) → list (string * MovementData))
    (s : State) : State :=
  mkState (agvs s) (tasks s) (isRunning s) (totalTasksCompleted s)
    (occupiedNodes s) (reservedNodes s) (f (movementQueue s)) (movementInterval s)
    (timers s) (broadcasts s).
Definition with_movementInterval (b : bool) (s : State) : State :=
  mkState (agvs s) (tasks s) (isRunning s) (totalTasksCompleted s)
    (occupiedNodes s) (reservedNodes s) (movementQueue s) b
    (timers s) (broadcasts s).
Definition with_timers (f : list Timer → list Timer) (s : State) : State :=
  mkState (agvs s) (tasks s) (isRunning s) (totalTasksCompleted s)
    (occupiedNodes s) (reservedNodes s) (movementQueue s) (movementInterval s)
    (f (timers s)) (broadcasts s).

#[export] Instance Timer_eq_dec : EqDecision Timer.
Proof. solve_decision. Defined.

(** [clearInterval] / a timeout that has fired: drop one registration. *)
Fixpoint clear_timer (t : Timer) (l : list Timer) : list Timer :=
  match l with
  | [] => []
  | t' :: l' => if decide (t' = t) then l' else t' :: clear_timer t l'
  end.

(** [broadcast(message)] *)
Definition broadcast (e : Event) (s : State) : State :=
  mkState (agvs s) (tasks s) (isRunning s) (totalTasksCompleted s)
    (occupiedNodes s) (reservedNodes s) (movementQueue s) (movementInterval s)
    (timers s) (broadcasts s ++ [e]).

(** [systemState.agvs[agvId]] *)
Fixpoint find_agv (i : string) (l : list AGV) : option AGV :=
  match l with
  | [] => None
  | a :: l' => if decide (agv_id a = i) then Some a else find_agv i l'
  end.

(** In-place mutation of the vehicle object stored under [i]. *)
Fixpoint alter_agv (f : AGV → AGV) (i : string) (l : list AGV) : list AGV :=
  match l with
  | [] => []
  | a :: l' => if decide (agv_id a = i) then f a :: l' else a :: alter_agv f i l'
  end.

Definition set_position (p : Z) (a : AGV) : AGV :=
  mkAGV (agv_id a) p (battery a) (status a) (algorithm a).
Definition set_battery (b : Z) (a : AGV) : AGV :=
  mkAGV (agv_id a) (position a) b (status a) (algorithm a).
Definition set_status (st : Status) (a : AGV) : AGV :=
  mkAGV (agv_id a) (position a) (battery a) st (algorithm a).

(** [Map.prototype.get / set / delete] on the insertion-ordered queue. *)
Fixpoint mq_get (i : string) (q : list (string * MovementData)) : option MovementData :=
  match q with
  | [] => None
  | (k, d) :: q' => if decide (k = i) then Some d else mq_get i q'
  end.

Fixpoint mq_set (i : string) (d : MovementData) (q : list (string * MovementData))
    : list (string * MovementData) :=
  match q with
  | [] => [(i, d)]
  | (k, d') :: q' => if decide (k = i) then (k, d) :: q' else (k, d') :: mq_set i d q'
  end.

Fixpoint mq_delete (i : string) (q : list (string * MovementData))
    : list (string * MovementData) :=
  match q with
  | [] => []
  | (k, d) :: q' => if decide (k = i) then q' else (k, d) :: mq_delete i q'
  end.

(** [path[i]]; every read in the code is guarded by a length test, [0] stands
    for [undefined]. *)
Definition at_index (l : list Z) (i : nat) : Z := default 0 (l !! i).

(** *** Charging *)

Definition needsCharging (a : AGV) : bool :=
  bool_decide (battery a ≤ LOW_BATTERY_THRESHOLD).

(** What [Date.now()] and [toTimeString()] return at a call. *)
Record Clock := mkClock { now : Z; timeStr : string }.

(** [agvId.slice(-1)] *)
Fixpoint slice_last (x : string) : string :=
  match x with
  | EmptyString => EmptyString
  | String c EmptyString => String c EmptyString
  | String _ x' => slice_last x'
  end.

Definition startCharging (agvId : string) (s : State) : State :=
  match find_agv agvId (agvs s) with
  | None => s
  | Some agv =>
    if decide (position agv = CHARGING_NODE) then
      with_timers (λ t, t ++ [ChargingInterval agvId])
        (with_agvs (alter_agv (set_status charging) agvId) s)
    else s
  end.

(** One run of the interval callback installed by [startCharging]. *)
Definition chargingCycle (agvId : string) (s : State) : State :=
  match find_agv agvId (agvs s) with
  | None => s
  | Some agv =>
    if decide (battery agv < MAX_BATTERY) then
      let b := Z.min MAX_BATTERY (battery agv + CHARGING_RATE) in
      broadcast (agvCharging agvId b (position agv))
        (with_agvs (alter_agv (set_battery b) agvId) s)
    else
      broadcast (chargingComplete agvId (battery agv) (position agv))
        (with_agvs (alter_agv (set_status idle) agvId)
          (with_timers (clear_timer (ChargingInterval agvId)) s))
  end.

(** *** Movement coordination *)

(** [simulateAGVMovement(agvId, path, executionLog, isChargingTask)] *)
Definition simulateAGVMovement (agvId : string) (route : list Z)
    (log : ExecutionLog) (chargingTask : bool) (s : State) : State :=
  if decide (length route ≤ 1)%nat then s
  else
    let s1 := with_movementQueue
                (mq_set agvId (mkMovementData route 0 log chargingTask)) s in
    match find_agv agvId (agvs s1) with
    | None => s1
    | Some _ =>
      let st := if chargingTask then charging_route else busy in
      with_occupiedNodes (λ o, o ∪ {[at_index route 0]})
        (with_agvs
           (alter_agv (λ a, set_position (at_index route 0) (set_status st a)) agvId)
           s1)
    end.

(** [completeAGVTask(agvId, finalPosition, executionLog, isChargingTask)];
    the [setTimeout] that will call [createChargingTask] is recorded as a
    pending timer. *)
Definition completeAGVTask (agvId : string) (finalPosition : Z)
    (log : ExecutionLog) (chargingTask : bool) (s : State) : State :=
  match find_agv agvId (agvs s) with
  | None => s
  | Some agv =>
    let s1 := with_agvs (alter_agv (set_position finalPosition) agvId) s in
    let s2 :=
      if chargingTask && bool_decide (finalPosition = CHARGING_NODE) then
        startCharging agvId s1
      else
        let s' := with_totalTasksCompleted (λ n, n + 1)
                    (with_agvs (alter_agv (set_status idle) agvId) s1) in
        if needsCharging agv && bool_decide (finalPosition ≠ CHARGING_NODE) then
          with_timers (λ t, t ++ [ChargingTaskTimeout agvId]) s'
        else s' in
    broadcast (taskCompleted agvId finalPosition log chargingTask) s2
  end.

(** The body of the planning loop for one queue entry.  The accumulator is
    the state and [movementsToExecute]. *)
Definition plan_entry (acc : State * list Movement)
    (e : string * MovementData) : State * list Movement :=
  let '(s, moves) := acc in
  let '(agvId, md) := e in
  if decide (length (path md) ≤ currentIndex md + 1)%nat then
    let s1 :=
      match find_agv agvId (agvs s) with
      | Some _ =>
        completeAGVTask agvId (at_index (path md) (length (path md) - 1)%nat)
          (md_log md) (isChargingTask md) s
      | None => s
      end in
    (with_movementQueue (mq_delete agvId) s1, moves)
  else
    let nextPosition := at_index (path md) (currentIndex md + 1)%nat in
    let currentPosition := at_index (path md) (currentIndex md) in
    if decide ((nextPosition ∉ occupiedNodes s) ∧
               (reservedNodes s !! nextPosition = None))
    then
      (with_reservedNodes (λ r, <[nextPosition := agvId]> r) s,
       moves ++ [mkMovement agvId currentPosition nextPosition
                   (isChargingTask md) (currentIndex md + 1)%nat])
    else (s, moves).

(** The body of [movementsToExecute.forEach]. *)
Definition execute_movement (s : State) (m : Movement) : State :=
  match find_agv (mv_agvId m) (agvs s) with
  | None => s
  | Some agv =>
    let b := if negb (mv_isChargingTask m) then Z.max 10 (battery agv - 3)
             else Z.max 10 (battery agv - 1) in
    let s1 := with_occupiedNodes (λ o, (o ∖ {[mv_from m]}) ∪ {[mv_to m]}) s in
    let s2 := with_agvs
                (alter_agv (λ a, set_battery b (set_position (mv_to m) a))
                   (mv_agvId m)) s1 in
    let s3 :=
      match mq_get (mv_agvId m) (movementQueue s2) with
      | Some md =>
        with_movementQueue
          (mq_set (mv_agvId m)
             (mkMovementData (path md) (mv_newIndex m) (md_log md) (isChargingTask md)))
          s2
      | None => s2
      end in
    broadcast (agvMovement (mv_agvId m) (mv_to m) b (mv_isChargingTask m) false) s3
  end.

(** The closing loop: one [agvWaiting] message per queued vehicle that has no
    entry in [movementsToExecute]. *)
Definition report_waiting (moves : list Movement) (s : State)
    (e : string * MovementData) : State :=
  if decide (Exists (λ m, mv_agvId m = e.1) moves) then s
  else broadcast (agvWaiting e.1 (position <$> find_agv e.1 (agvs s))) s.

(** [movementsToExecute] as planned on [s] (after [reservedNodes.clear()]). *)
Definition plan (s : State) : State * list Movement :=
  foldl plan_entry (with_reservedNodes (λ _, ∅) s, []) (movementQueue s).

(** [coordinateSimultaneousMovement()]: one tick. *)
Definition coordinateSimultaneousMovement (s : State) : State :=
  let '(s1, moves) := plan s in
  let s2 := foldl execute_movement s1 moves in
  foldl (report_waiting moves) s2 (movementQueue s2).

(** *** Task creation *)

(** [createChargingTask(agvId)]; callers ignore the returned task. *)
Definition createChargingTask (clk : Clock) (agvId : string) (s : State) : State :=
  match find_agv agvId (agvs s) with
  | None => s
  | Some agv =>
    if decide (status agv ≠ idle) then s
    else if decide (position agv = CHARGING_NODE) then startCharging agvId s
    else
      let log := mkLog (slice_last agvId) (position agv) CHARGING_NODE
                   (timeStr clk) 0 None in
      let chargingTask :=
        mkTask (now clk) (position agv) CHARGING_NODE 0 (Some "charging") agvId 0
          log task_executing (now clk) None false true in
      let s1 := with_tasks (λ t, t ++ [chargingTask])
                  (with_agvs (alter_agv (set_status charging_route) agvId) s) in
      let route := findPath (position agv) CHARGING_NODE in
      broadcast (chargingTaskCreated chargingTask route)
        (simulateAGVMovement agvId route log true s1)
  end.

Inductive CreateResult :=
| NoAvailableAGV                  (* [{ success: false, error: ... }] *)
| Created (task : Task).          (* [{ success: true, task, executionLog }] *)

(** The [reduce] that keeps the vehicle with the strictly larger battery. *)
Definition best_battery (best current : AGV) : AGV :=
  if decide (battery current > battery best) then current else best.

(** [createTaskInternal(startNode, endNode, weight, priority, isAuto)];
    [payload] is [Math.floor(Math.random() * 1000)]. *)
Definition createTaskInternal (clk : Clock) (payload : Z)
    (start end_ w : Z) (prio : string) (auto : bool) (s : State)
    : State * CreateResult :=
  let availableAGVs :=
    filter (λ a, status a = idle ∧ needsCharging a = false) (agvs s) in
  match availableAGVs with
  | [] =>
    let agvsNeedingCharge :=
      filter (λ a, status a = idle ∧ needsCharging a = true) (agvs s) in
    (foldl (λ s' a, createChargingTask clk (agv_id a) s') s agvsNeedingCharge,
     NoAvailableAGV)
  | first :: others =>
    let selectedAGV := foldl best_battery first others in
    let log := mkLog (slice_last (agv_id selectedAGV)) start end_ (timeStr clk)
                 w (Some payload) in
    let task := mkTask (now clk) start end_ w (Some prio) (agv_id selectedAGV)
                  payload log task_executing (now clk) None auto false in
    let s1 := with_agvs
                (alter_agv (λ a, set_position start (set_status busy a))
                   (agv_id selectedAGV)) s in
    let s2 := with_tasks (λ t, t ++ [task]) s1 in
    let route := findPath start end_ in
    let s3 := simulateAGVMovement (agv_id selectedAGV) route log false s2 in
    (broadcast (taskCreated task (Some route)) s3, Created task)
  end.

(** *** [POST /api/tasks/create] *)

(** [Number(x)] for a value [x] of a parsed JSON body. *)
Inductive jsnumber :=
| Finite (q : Qc)
| PlusInfinity
| MinusInfinity
| NotANumber.

(** [x < n] and [x > n] against an integer literal, on the number [x]
    converts to; both are false when that is [NaN]. *)
Definition js_lt (x : jsnumber) (n : Z) : bool :=
  match x with
  | Finite q => bool_decide (q < Qc_of_Z n)%Qc
  | MinusInfinity => true
  | PlusInfinity | NotANumber => false
  end.

Definition js_gt (x : jsnumber) (n : Z) : bool :=
  match x with
  | Finite q => bool_decide (Qc_of_Z n < q)%Qc
  | PlusInfinity => true
  | MinusInfinity | NotANumber => false
  end.

(** One value of the request body.  The body is parsed JSON, so the value
    need not be an integer: it may be a number with a fraction, a string,
    [null], an array.  The handler applies [!], [<], [>] and [parseInt] to
    it; the value is given by what these return.  (An object on which one
    of them throws makes the server answer 500 before anything is written,
    so it leaves the state as a rejected request does.) *)
Record BodyValue := mkBodyValue {
  truthy : bool;          (* [!x] is its negation *)
  to_number : jsnumber;   (* [Number(x)], which [<] and [>] compare *)
  parse_int : option Z    (* [parseInt(x)]; [None] for [NaN] and the infinities *)
}.

(** A key the body does not have: [undefined]. *)
Definition absent : BodyValue := mkBodyValue false NotANumber None.

(** The JSON number [n], an integer: falsy when 0, and [parseInt] reads it
    back (its decimal numeral has no exponent below 10^21). *)
Definition json_int (n : Z) : BodyValue :=
  mkBodyValue (bool_decide (n ≠ 0)) (Finite (Qc_of_Z n)) (Some n).

(** The JSON string that is the decimal numeral of [n], like ["5"]: a
    string with characters is truthy, and [Number] and [parseInt] both read
    [n]. *)
Definition json_numeral (n : Z) : BodyValue :=
  mkBodyValue true (Finite (Qc_of_Z n)) (Some n).

(** The body of [POST /api/tasks/create].  [req_same] is what
    [startNode === endNode] gives: two numbers of the same value are equal,
    a number and a string never are.  [priority] is [None] when the key is
    absent and then defaults to [medium]. *)
Record CreateRequest := mkCreateRequest {
  req_startNode : BodyValue;
  req_endNode : BodyValue;
  req_weight : BodyValue;
  req_same : bool;
  req_priority : option string
}.

(** The answers of the handler.  [NaNArgument] is no answer of the server
    but the edge of the model: [parseInt] gave [NaN] or an infinity for a
    node or the weight, and the server goes on to call [createTaskInternal]
    with it.  Nodes and weights of this model are integers, so the model
    stops there and returns the state as it was. *)
Inductive Response :=
| BadRequest (error : string)             (* [res.status(400).json({ error })] *)
| BadRequestResult (r : CreateResult)     (* [res.status(400).json(result)] *)
| Ok (task : Task)
| NaNArgument.

(** The handler of [POST /api/tasks/create].  The three tests are made on
    the values of the body as they are; [parseInt] is applied after them. *)
Definition api_tasks_create (clk : Clock) (payload : Z) (req : CreateRequest)
    (s : State) : State * Response :=
  if negb (truthy (req_startNode req)) || negb (truthy (req_endNode req))
     || negb (truthy (req_weight req))
  then (s, BadRequest "Missing required fields: startNode, endNode, weight")
  else if req_same req then
    (s, BadRequest "Start and end nodes cannot be the same")
  else if js_lt (to_number (req_startNode req)) 1
          || js_gt (to_number (req_startNode req)) 9
          || js_lt (to_number (req_endNode req)) 1
          || js_gt (to_number (req_endNode req)) 9
  then (s, BadRequest "Nodes must be between 1 and 9")
  else
    match parse_int (req_startNode req), parse_int (req_endNode req),
          parse_int (req_weight req) with
    | Some startN, Some endN, Some w =>
      match createTaskInternal clk payload startN endN w
              (default "medium" (req_priority req)) false s with
      | (s', NoAvailableAGV) => (s', BadRequestResult NoAvailableAGV)
      | (s', Created task) => (s', Ok task)
      end
    | _, _, _ => (s, NaNArgument)
    end.

(** *** Periodic task generators *)

(** The [while (endNode === startNode)] loop over successive random draws;
    [None] when the supplied draws run out before a different node shows
    up. *)
Fixpoint redraw (start : Z) (draws : list Z) : option Z :=
  match draws with
  | [] => None
  | d :: ds => if decide (d = start) then redraw start ds else Some d
  end.

(** The random values one run of a generator consumes, already floored. *)
Record Draws := mkDraws {
  roll_fires : bool;            (* [Math.random() < 0.3] *)
  draw_start : Z;
  draw_ends : list Z;
  draw_weight : Z;
  draw_priority : string;
  draw_payload : Z
}.

(** [generateAutoTask()], run every 15 s while the simulation runs. *)
Definition generateAutoTask (clk : Clock) (d : Draws) (s : State) : State :=
  if negb (isRunning s) then s
  else
    match redraw (draw_start d) (draw_ends d) with
    | None => s
    | Some endN =>
      (createTaskInternal clk (draw_payload d) (draw_start d) endN
         (draw_weight d) (draw_priority d) true s).1
    end.

(** [getAvailableAGV()]: the first vehicle whose status is [idle]. *)
Definition getAvailableAGV (s : State) : option string :=
  agv_id <$> head (filter (λ a, status a = idle) (agvs s)).

(** [availableAGV.replace('AGV', '')]: drop the first occurrence. *)
Fixpoint remove_first_AGV (x : string) : string :=
  if String.prefix "AGV" x then String.substring 3 (String.length x - 3) x
  else match x with
       | EmptyString => EmptyString
       | String c x' => String c (remove_first_AGV x')
       end.

(** The second generator, the [setInterval] that runs every 5 s. *)
Definition autoTaskInterval (clk : Clock) (d : Draws) (s : State) : State :=
  if isRunning s && roll_fires d then
    match redraw (draw_start d) (draw_ends d) with
    | None => s
    | Some endN =>
      match getAvailableAGV s with
      | None => s
      | Some availableAGV =>
        let payload := draw_payload d + 1 in
        let log := mkLog (remove_first_AGV availableAGV) (draw_start d) endN
                     (timeStr clk) (draw_weight d) (Some payload) in
        let autoTask :=
          mkTask (now clk) (draw_start d) endN (draw_weight d) None availableAGV
            payload log task_executing (now clk) None true false in
        let s1 := with_tasks (λ t, t ++ [autoTask]) s in
        let s2 := with_agvs
                    (alter_agv
                       (λ a, set_position (draw_start d) (set_status executing a))
                       availableAGV) s1 in
        with_timers
          (λ t, t ++ [AutoCompleteTimeout (length (tasks s)) availableAGV endN])
          (broadcast (taskCreated autoTask None) s2)
      end
    end
  else s.

(** *** Simulation control, completion requests and timers *)

(** [initializeGlobalMovement()] *)
Definition initializeGlobalMovement (s : State) : State :=
  with_occupiedNodes (λ _, list_to_set (position <$> agvs s))
    (with_reservedNodes (λ _, ∅) s).

(** [POST /api/simulation/start]: the coordinator interval is (re)armed. *)
Definition api_simulation_start (s : State) : State :=
  broadcast simulationStarted
    (with_movementInterval true (initializeGlobalMovement (with_isRunning true s))).

(** [POST /api/simulation/stop] *)
Definition api_simulation_stop (s : State) : State :=
  broadcast simulationStopped
    (with_agvs (fmap (set_status idle))
       (with_reservedNodes (λ _, ∅)
          (with_occupiedNodes (λ _, ∅)
             (with_movementQueue (λ _, [])
                (with_movementInterval false (with_isRunning false s)))))).

Definition complete_task (t : Z) (x : Task) : Task :=
  mkTask (task_id x) (startNode x) (endNode x) (weight x) (priority x)
    (task_agvId x) (payloadNum x) (executionLog x) task_completed (createdAt x)
    (Some t) (isAuto x) (isCharging x).

(** Mutation of the first task object whose id is [taskId]. *)
Fixpoint alter_task (f : Task → Task) (taskId : Z) (l : list Task) : list Task :=
  match l with
  | [] => []
  | x :: l' => if decide (task_id x = taskId) then f x :: l' else x :: alter_task f taskId l'
  end.

(** [POST /api/tasks/:taskId/complete]; [false] is the 404 answer. *)
Definition api_tasks_complete (clk : Clock) (taskId : Z) (s : State) : State * bool :=
  match list_find (λ x, task_id x = taskId) (tasks s) with
  | None => (s, false)
  | Some (_, task) =>
    let s1 := with_tasks (alter_task (complete_task (now clk)) taskId) s in
    let s2 := with_agvs
                (alter_agv (λ a, set_position (endNode task) (set_status idle a))
                   (task_agvId task)) s1 in
    (broadcast (taskCompletedByRequest (complete_task (now clk) task))
       (with_totalTasksCompleted (λ n, n + 1) s2), true)
  end.

(** A registered callback runs. *)
Definition fire (clk : Clock) (t : Timer) (s : State) : State :=
  if decide (t ∈ timers s) then
    match t with
    | ChargingInterval agvId => chargingCycle agvId s
    | ChargingTaskTimeout agvId =>
      createChargingTask clk agvId (with_timers (clear_timer t) s)
    | AutoCompleteTimeout i agvId dest =>
      let s1 := with_timers (clear_timer t) s in
      let s2 := with_tasks (alter (complete_task (now clk)) i) s1 in
      let s3 := with_agvs
                  (alter_agv (λ a, set_position dest (set_status idle a)) agvId) s2 in
      match tasks s3 !! i with
      | Some task =>
        broadcast (taskCompletedByRequest task)
          (with_totalTasksCompleted (λ n, n + 1) s3)
      | None => s3
      end
    end
  else s.

(** What can happen to the server between two observations. *)
Inductive Op :=
| OpStart
| OpStop
| OpTick
| OpCreate (clk : Clock) (payload : Z) (req : CreateRequest)
| OpComplete (clk : Clock) (taskId : Z)
| OpGenerateAutoTask (clk : Clock) (d : Draws)
| OpAutoTaskInterval (clk : Clock) (d : Draws)
| OpFire (clk : Clock) (t : Timer).

Definition step (s : State) (op : Op) : State :=
  match op with
  | OpStart => api_simulation_start s
  | OpStop => api_simulation_stop s
  | OpTick => if movementInterval s then coordinateSimultaneousMovement s else s
  | OpCreate clk payload req => (api_tasks_create clk payload req s).1
  | OpComplete clk taskId => (api_tasks_complete clk taskId s).1
  | OpGenerateAutoTask clk d => generateAutoTask clk d s
  | OpAutoTaskInterval clk d => autoTaskInterval clk d s
  | OpFire clk t => fire clk t s
  end.

Definition run (s : State) (ops : list Op) : State := foldl step s ops.

(** The state the server starts in. *)
Definition initialState : State :=
  mkState
    [ mkAGV "AGV1" 1 100 idle "A*";
      mkAGV "AGV2" 5 85 idle "Dijkstra+TimeWindow";
      mkAGV "AGV3" 9 92 idle "ACO" ]
    [] false 0 ∅ ∅ [] false [] [].

End Coordinator.


(** ** [backend/enhanced_server.js] *)

Module Enhanced.

Import Graph.

(** A JavaScript number as the search code uses it: an integer, [Infinity]
    or [NaN] (what arithmetic on [undefined] gives). *)
Inductive jsnum := Fin (z : Z) | Infinity | NaN.

(** How a call ends: a value, a thrown [TypeError], or the model's iteration
    budget ran out. *)
Inductive outcome (A : Type) :=
| Val (a : A)
| TypeError
| OutOfFuel.
Arguments Val {A} a.
Arguments TypeError {A}.
Arguments OutOfFuel {A}.

(** [this.nodeConnections] of [ServerPathfinding]. *)
Definition nodeConnections : gmap Z (list Z) :=
  list_to_map
    [ (1, [2; 4]); (2, [1; 3; 5]); (3, [2; 6]);
      (4, [1; 7]); (5, [2; 6; 8]); (6, [3; 5]);
      (7, [4; 8]); (8, [5; 7; 9]); (9, [8]) ].

(** The coordinate table inside [heuristic]. *)
Definition positions (n : Z) : option (Z * Z) :=
  if decide (n = 1) then Some (0, 0) else if decide (n = 2) then Some (1, 0)
  else if decide (n = 3) then Some (2, 0) else if decide (n = 4) then Some (0, 1)
  else if decide (n = 5) then Some (1, 1) else if decide (n = 6) then Some (2, 1)
  else if decide (n = 7) then Some (0, 2) else if decide (n = 8) then Some (1, 2)
  else if decide (n = 9) then Some (2, 2) else None.

(** [heuristic(node1, node2)]: Manhattan distance; destructuring an absent
    table entry throws. *)
Definition heuristic (node1 node2 : Z) : option Z :=
  match positions node1, positions node2 with
  | Some (x1, y1), Some (x2, y2) => Some (Z.abs (x1 - x2) + Z.abs (y1 - y2))
  | _, _ => None
  end.

(** [Array.prototype.sort] with a comparator is stable: [x] stays in front
    of a later [y] whenever [cmp(x, y) <= 0], written [le x y]. *)
Fixpoint insert_sorted {A} (le : A → A → bool) (x : A) (l : list A) : list A :=
  match l with
  | [] => [x]
  | y :: l' => if le x y then x :: y :: l' else y :: insert_sorted le x l'
  end.

Definition stable_sort {A} (le : A → A → bool) (l : list A) : list A :=
  foldr (insert_sorted le) [] l.

(** [reconstructPath(cameFrom, current)], [fuel] iterations of the [while]. *)
Fixpoint reconstructPath_loop (fuel : nat) (cameFrom : gmap Z Z) (current : Z)
    (acc : list Z) : option (list Z) :=
  match cameFrom !! current with
  | None => Some acc
  | Some prev =>
    match fuel with
    | O => None
    | S fuel' => reconstructPath_loop fuel' cameFrom prev (prev :: acc)
    end
  end.

Definition reconstructPath (cameFrom : gmap Z Z) (current : Z) : outcome (list Z) :=
  match reconstructPath_loop (size cameFrom) cameFrom current [current] with
  | Some p => Val p
  | None => OutOfFuel
  end.

(** The loop state of [aStarPathfinding]; [openSet] holds [(node, fScore)]. *)
Record Search := mkSearch {
  openSet : list (Z * Z);
  closedSet : gset Z;
  cameFrom : gmap Z Z;
  gScore : gmap Z jsnum
}.

(** [x + 1] *)
Definition js_succ (x : option jsnum) : jsnum :=
  match x with
  | Some (Fin z) => Fin (z + 1)
  | Some Infinity => Infinity
  | _ => NaN
  end.

(** [a < b] where [b] may be [undefined] *)
Definition js_lt (a : jsnum) (b : option jsnum) : bool :=
  match a, b with
  | Fin x, Some (Fin y) => bool_decide (x < y)
  | Fin _, Some Infinity => true
  | _, _ => false
  end.

(** The body of [for (const neighbor of neighbors)] in [aStarPathfinding]. *)
Definition relax (end_ : Z) (avoidNodes : list Z) (current : Z)
    (acc : option Search) (neighbor : Z) : option Search :=
  st ← acc;
  if decide (neighbor ∈ closedSet st ∨ neighbor ∈ avoidNodes) then Some st
  else
    match js_succ (gScore st !! current) with
    | Fin tentativeGScore =>
      if js_lt (Fin tentativeGScore) (gScore st !! neighbor) then
        h ← heuristic neighbor end_;
        let fScore := tentativeGScore + h in
        Some (mkSearch
                (if decide (Exists (λ item, item.1 = neighbor) (openSet st))
                 then openSet st else openSet st ++ [(neighbor, fScore)])
                (closedSet st)
                (<[neighbor := current]> (cameFrom st))
                (<[neighbor := Fin tentativeGScore]> (gScore st)))
      else Some st
    | _ => Some st              (* [Infinity] and [NaN] are below nothing *)
    end.

Fixpoint aStar_loop (fuel : nat) (g : gmap Z (list Z)) (end_ : Z)
    (avoidNodes : list Z) (st : Search) : outcome (list Z) :=
  match fuel with
  | O => OutOfFuel
  | S fuel' =>
    match stable_sort (λ a b, bool_decide (a.2 ≤ b.2)) (openSet st) with
    | [] => Val []
    | (current, _) :: rest =>
      if decide (current = end_) then reconstructPath (cameFrom st) current
      else
        let st1 := mkSearch rest (closedSet st ∪ {[current]}) (cameFrom st)
                     (gScore st) in
        match foldl (relax end_ avoidNodes current) (Some st1) (neighbors g current) with
        | None => TypeError
        | Some st2 => aStar_loop fuel' g end_ avoidNodes st2
        end
    end
  end.

(** The nodes whose [gScore] is preset to [Infinity]. *)
Definition grid_nodes : list Z := [1; 2; 3; 4; 5; 6; 7; 8; 9].

(** Every turn of the loop closes one more node that has a [gScore], of
    which there are at most ten; see [aStar_loop_terminates]. *)
Definition aStar_fuel : nat := 11.

(** [aStarPathfinding(start, end, avoidNodes = [])] over the table [g]. *)
Definition aStarPathfinding_on (g : gmap Z (list Z)) (start end_ : Z)
    (avoidNodes : list Z) : outcome (list Z) :=
  match heuristic start end_ with
  | None => TypeError
  | Some h =>
    let gScore0 : gmap Z jsnum :=
      <[start := Fin 0]> (list_to_map ((λ n, (n, Infinity)) <$> grid_nodes)) in
    aStar_loop aStar_fuel g end_ avoidNodes (mkSearch [(start, h)] ∅ ∅ gScore0)
  end.

Definition aStarPathfinding (start end_ : Z) (avoidNodes : list Z) : outcome (list Z) :=
  aStarPathfinding_on nodeConnections start end_ avoidNodes.

(** [isTimeSlotAvailable(node, time, occupiedSlots)]; slots are kept by
    their [time]. *)
Definition isTimeSlotAvailable (n : Z) (time : Z) (occupiedSlots : gmap Z (list Z)) : bool :=
  negb (existsb (λ slot, bool_decide (Z.abs (slot - time) < 5 * 60 * 1000))
          (default [] (occupiedSlots !! n))).

(** The loop state of [dijkstraWithTimeWindow]; [unvisited] keeps the
    insertion order of the [Set]. *)
Record Dijkstra := mkDijkstra {
  distances : gmap Z jsnum;
  previous : gmap Z Z;
  unvisited : list Z
}.

(** The scan for the unvisited node of least distance; the accumulator is
    [(current, minDistance)]. *)
Definition pick_min (distances : gmap Z jsnum) (acc : option Z * jsnum)
    (n : Z) : option Z * jsnum :=
  match distances !! n with
  | Some d => if js_lt d (Some acc.2) then (Some n, d) else acc
  | None => acc
  end.

(** The body of [for (const neighbor of neighbors)] in
    [dijkstraWithTimeWindow]. *)
Definition dijkstra_relax (tw_start : Z) (occupiedSlots : gmap Z (list Z))
    (current : Z) (st : Dijkstra) (neighbor : Z) : Dijkstra :=
  if decide (neighbor ∉ unvisited st) then st
  else
    match js_succ (distances st !! current) with
    | Fin alt =>
      let arrivalTime := tw_start + alt * 5 * 60 * 1000 in
      if isTimeSlotAvailable neighbor arrivalTime occupiedSlots
         && js_lt (Fin alt) (distances st !! neighbor)
      then mkDijkstra (<[neighbor := Fin alt]> (distances st))
             (<[neighbor := current]> (previous st)) (unvisited st)
      else st
    | _ => st
    end.

Fixpoint dijkstra_loop (fuel : nat) (g : gmap Z (list Z)) (end_ tw_start : Z)
    (occupiedSlots : gmap Z (list Z)) (st : Dijkstra) : option Dijkstra :=
  match fuel with
  | O => None
  | S fuel' =>
    match unvisited st with
    | [] => Some st
    | _ =>
      match (foldl (pick_min (distances st)) (None, Infinity) (unvisited st)).1 with
      | None => Some st
      | Some current =>
        if decide (current = end_) then Some st
        else
          let st1 := mkDijkstra (distances st) (previous st)
                       (filter (λ n, n ≠ current) (unvisited st)) in
          dijkstra_loop fuel' g end_ tw_start occupiedSlots
            (foldl (dijkstra_relax tw_start occupiedSlots current) st1
               (neighbors g current))
      end
    end
  end.

(** [distances.get(end) * 5 * 60 * 1000] *)
Definition totalTime_of (d : option jsnum) : jsnum :=
  match d with
  | Some (Fin z) => Fin (z * 5 * 60 * 1000)
  | Some Infinity => Infinity
  | _ => NaN
  end.

(** [dijkstraWithTimeWindow(start, end, timeWindow, occupiedSlots = {})]
    returns the pair [(path, totalTime)].  Each turn of the loop removes one
    of the nine preset nodes from [unvisited]. *)
Definition dijkstraWithTimeWindow_on (g : gmap Z (list Z)) (start end_ tw_start : Z)
    (occupiedSlots : gmap Z (list Z)) : outcome (list Z * jsnum) :=
  let st0 := mkDijkstra
               (<[start := Fin 0]> (list_to_map ((λ n, (n, Infinity)) <$> grid_nodes)))
               ∅ grid_nodes in
  match dijkstra_loop 10 g end_ tw_start occupiedSlots st0 with
  | None => OutOfFuel
  | Some st =>
    match reconstructPath (previous st) end_ with
    | Val p => Val (p, totalTime_of (distances st !! end_))
    | TypeError => TypeError
    | OutOfFuel => OutOfFuel
    end
  end.

Definition dijkstraWithTimeWindow (start end_ tw_start : Z)
    (occupiedSlots : gmap Z (list Z)) : outcome (list Z * jsnum) :=
  dijkstraWithTimeWindow_on nodeConnections start end_ tw_start occupiedSlots.

(** *** Fleet, tasks and assignment *)

(** The fields of a vehicle object that the scheduling functions read. *)
Record AGV := mkAGV {
  agv_id : string;
  position : Z;
  battery : Z;
  status : string;
  algorithm : string;
  agv_priority : string
}.

Record Task := mkTask {
  task_id : Z;
  pickupLocation : Z;
  deliveryLocation : Z;
  priority : string;
  task_status : string;
  assignedAGV : option string;
  plannedPath : option (list Z);
  task_algorithm : option string;
  delayedUntil : option Z
}.

(** [priorityBonus[p] || 10] *)
Definition priorityBonus (p : string) : Z :=
  if decide (p = "High") then 20 else if decide (p = "Medium") then 10
  else if decide (p = "Low") then 5 else 10.

(** [algorithmBonus[a] || 10] *)
Definition algorithmBonus (a : string) : Z :=
  if decide (a = "A*") then 15 else if decide (a = "Dijkstra+TimeWindow") then 10
  else if decide (a = "ACO") then 12 else 10.

Definition batteryBonus (b : Z) : Z :=
  if decide (b > 50) then 30 else if decide (b > 25) then 15 else 0.

(** [calculateAGVScore(agv, task)]; [None] when [heuristic] throws. *)
Definition calculateAGVScore (agv : AGV) (task : Task) : option Z :=
  distance ← heuristic (position agv) (pickupLocation task);
  Some ((10 - distance) * 10 + batteryBonus (battery agv)
        + priorityBonus (agv_priority agv) + algorithmBonus (algorithm agv)).

(** [availableAGVs.map(agv => ({ agv, score }))]; [None] when a score
    throws. *)
Definition score_all (task : Task) (l : list AGV) : option (list (AGV * Z)) :=
  mapM (λ agv, score ← calculateAGVScore agv task; Some (agv, score)) l.

(** The vehicle [assignTaskToAGV] settles on: [agvScores[0].agv] after the
    descending sort.  [Val None] is the early [return null]. *)
Definition selectAGV (agvs : list AGV) (task : Task) : outcome (option AGV) :=
  let availableAGVs := filter (λ agv, status agv = "idle") agvs in
  match availableAGVs with
  | [] => Val None
  | _ =>
    match score_all task availableAGVs with
    | None => TypeError
    | Some agvScores =>
      Val (fst <$> head (stable_sort (λ a b, bool_decide (b.2 ≤ a.2)) agvScores))
    end
  end.

(** The [switch (selectedAGV.algorithm)]. *)
Definition plan_route (clock : Z) (selectedAGV : AGV) (task : Task) : outcome (list Z) :=
  if decide (algorithm selectedAGV = "Dijkstra+TimeWindow") then
    match dijkstraWithTimeWindow (position selectedAGV) (pickupLocation task)
            clock ∅ with
    | Val r => Val r.1
    | TypeError => TypeError
    | OutOfFuel => OutOfFuel
    end
  else aStarPathfinding (position selectedAGV) (pickupLocation task) [].

(** [assignTaskToAGV(task)]: the task object after the call and the returned
    vehicle id ([None] for [null]). *)
Definition assignTaskToAGV (clock : Z) (agvs : list AGV) (task : Task)
    : outcome (Task * option string) :=
  match selectAGV agvs task with
  | Val None => Val (task, None)
  | Val (Some selectedAGV) =>
    match plan_route clock selectedAGV task with
    | Val route =>
      if decide (0 < length route)%nat then
        Val (mkTask (task_id task) (pickupLocation task) (deliveryLocation task)
               (priority task) "assigned" (Some (agv_id selectedAGV)) (Some route)
               (Some (algorithm selectedAGV)) (delayedUntil task),
             Some (agv_id selectedAGV))
      else Val (task, None)
    | TypeError => TypeError
    | OutOfFuel => OutOfFuel
    end
  | TypeError => TypeError
  | OutOfFuel => OutOfFuel
  end.

(** *** Conflicts *)

Record Conflict := mkConflict {
  conflict_type : string;
  conflict_tasks : list Z;
  conflict_agvs : list (option string);
  severity : string;
  detectedAt : Z
}.

Record Resolution := mkResolution {
  resolution_type : string;
  resolution_taskId : option Z;     (* [conflict.tasks[1]] *)
  delayTime : Z
}.

(** [TimeWindowPlanner.resolveConflicts(conflicts)] *)
Definition resolveConflicts (conflicts : list Conflict) : list Resolution :=
  (λ c, mkResolution "delay" (conflict_tasks c !! 1%nat) (10 * 60 * 1000))
  <$> filter (λ c, conflict_type c = "time_overlap") conflicts.

(** [hasPathConflict(task1, task2)] *)
Definition hasPathConflict (task1 task2 : Task) : bool :=
  match plannedPath task1, plannedPath task2 with
  | Some p1, Some p2 =>
    bool_decide (1 < length (filter (λ n, n ∈ p2) p1))%nat
  | _, _ => false
  end.

(** The state the conflict endpoints work on. *)
Record State := mkState {
  agvs : list AGV;
  tasks : list Task;
  conflicts : list Conflict;
  totalConflicts : Z;
  resolvedConflicts : Z;
  emitted : list (list Resolution)   (* payloads of [conflictsResolved] *)
}.

(** The pairs [(activeTasks[i], activeTasks[j])], [i < j], in loop order. *)
Fixpoint pairs {A} (l : list A) : list (A * A) :=
  match l with
  | [] => []
  | x :: l' => ((λ y, (x, y)) <$> l') ++ pairs l'
  end.

(** [detectConflicts()] at time [clock]. *)
Definition detectConflicts (clock : Z) (s : State) : State :=
  let activeTasks :=
    filter (λ t, task_status t = "executing" ∨ task_status t = "assigned") (tasks s) in
  let found :=
    (λ p : Task * Task,
       mkConflict "path_conflict" [task_id p.1; task_id p.2]
         [assignedAGV p.1; assignedAGV p.2] "medium" clock)
    <$> filter (λ p : Task * Task, hasPathConflict p.1 p.2 = true) (pairs activeTasks) in
  mkState (agvs s) (tasks s) found (totalConflicts s) (resolvedConflicts s) (emitted s).

Definition delay_task (until : Z) (t : Task) : Task :=
  mkTask (task_id t) (pickupLocation t) (deliveryLocation t) (priority t)
    (task_status t) (assignedAGV t) (plannedPath t) (task_algorithm t) (Some until).

(** Mutation of the first task whose id is [i]. *)
Fixpoint alter_task (f : Task → Task) (i : Z) (l : list Task) : list Task :=
  match l with
  | [] => []
  | t :: l' => if decide (task_id t = i) then f t :: l' else t :: alter_task f i l'
  end.

(** The body of [resolutions.forEach] in the resolve endpoint. *)
Definition apply_resolution (clock : Z) (ts : list Task) (r : Resolution) : list Task :=
  if decide (resolution_type r = "delay") then
    match resolution_taskId r with
    | Some i => alter_task (delay_task (clock + delayTime r)) i ts
    | None => ts
    end
  else ts.

(** [POST /api/conflicts/resolve] at time [clock]: the new state and the
    resolutions sent back. *)
Definition api_conflicts_resolve (clock : Z) (s : State) : State * list Resolution :=
  let resolutions := resolveConflicts (conflicts s) in
  (mkState (agvs s) (foldl (apply_resolution clock) (tasks s) resolutions) []
     (totalConflicts s) (resolvedConflicts s + Z.of_nat (length resolutions))
     (emitted s ++ [resolutions]),
   resolutions).

End Enhanced.

(** ** Predicates used to state the properties *)

Module CoordinatorSpec.
Import Graph Coordinator.

(** Every entry of the search queue carries a walk of the graph from
    [start] to its node. *)
Definition queue_ok (g : gmap Z (list Z)) (start : Z) (queue : list (Z * list Z)) : Prop :=
  Forall (λ e : Z * list Z,
            is_walk g e.2 ∧ head e.2 = Some start ∧ last e.2 = Some e.1) queue.

(** Updates that leave the key of a vehicle alone. *)
Definition keeps_id (f : AGV → AGV) : Prop := ∀ a, agv_id (f a) = agv_id a.

(** A queued route still has a step to take. *)
Definition pending (md : MovementData) : Prop :=
  (currentIndex md + 1 < length (path md))%nat.

(** The node a pending route wants next. *)
Definition next_node (md : MovementData) : Z :=
  at_index (path md) (currentIndex md + 1)%nat.

(** The entry of [movementsToExecute] that admitting [(agvId, md)] pushes. *)
Definition movement_of (agvId : string) (md : MovementData) : Movement :=
  mkMovement agvId (at_index (path md) (currentIndex md)) (next_node md)
    (isChargingTask md) (currentIndex md + 1)%nat.

(** No two vehicles rest on the same node. *)
Definition occupancy_injective (s : State) : Prop :=
  ∀ i j a b,
    find_agv i (agvs s) = Some a → find_agv j (agvs s) = Some b →
    position a = position b → i = j.

(** The bookkeeping of the coordinator agrees with the fleet: positions are
    pairwise distinct, every position is recorded in [occupiedNodes], and
    every queued route belongs to a vehicle that stands on the route's
    current node. *)
Record coordinator_inv (s : State) : Prop := mkInv {
  inv_ids : NoDup (agv_id <$> agvs s);
  inv_injective : occupancy_injective s;
  inv_occupied : ∀ i a, find_agv i (agvs s) = Some a → position a ∈ occupiedNodes s;
  inv_keys : NoDup (movementQueue s).*1;
  inv_queue : ∀ i md, mq_get i (movementQueue s) = Some md →
    ∃ a, find_agv i (agvs s) = Some a ∧
         (currentIndex md < length (path md))%nat ∧
         at_index (path md) (currentIndex md) = position a
}.

(** The battery drawn by one step. *)
Definition drain (chargingTask : bool) : Z := if chargingTask then 1 else 3.

(** The movements a planning pass admits over the queue [q], given the
    occupied nodes and the nodes reserved so far. *)
Fixpoint admitted (occ res : gset Z) (q : list (string * MovementData)) : list Movement :=
  match q with
  | [] => []
  | (i, md) :: q' =>
    if decide (length (path md) ≤ currentIndex md + 1)%nat then admitted occ res q'
    else if decide ((next_node md ∉ occ) ∧ (next_node md ∉ res)) then
      movement_of i md :: admitted occ (res ∪ {[next_node md]}) q'
    else admitted occ res q'
  end.

(** Where a completing route leaves its vehicle. *)
Definition final_node (md : MovementData) : Z :=
  at_index (path md) (length (path md) - 1)%nat.

(** The vehicle record after an admitted step. *)
Definition moved (m : Movement) (a : AGV) : AGV :=
  set_battery (Z.max 10 (battery a - drain (mv_isChargingTask m)))
    (set_position (mv_to m) a).

(** The queue entry after an admitted step. *)
Definition advanced (m : Movement) (md : MovementData) : MovementData :=
  mkMovementData (path md) (mv_newIndex m) (md_log md) (isChargingTask md).

(** A planned movement that can be carried out on [s]: its target is free,
    its vehicle stands on its origin, and it follows the queued route. *)
Definition valid_move (s : State) (m : Movement) : Prop :=
  (mv_to m ∉ occupiedNodes s) ∧
  ∃ a md, find_agv (mv_agvId m) (agvs s) = Some a ∧
          mq_get (mv_agvId m) (movementQueue s) = Some md ∧
          mv_from m = position a ∧
          (mv_newIndex m < length (path md))%nat ∧
          at_index (path md) (mv_newIndex m) = mv_to m.

(** Some route queued before position [k] is pending and wants node [n]. *)
Definition contended (s : State) (k : nat) (n : Z) : Prop :=
  ∃ j i' md', (j < k)%nat ∧ movementQueue s !! j = Some (i', md') ∧
              pending md' ∧ next_node md' = n.

(** *** Concrete scenarios *)

(** The clock [t] milliseconds into the scenario. *)
Definition at_ms (t : Z) : Clock := mkClock (1700000000000 + t) "12:00:00".

Definition noon : Clock := at_ms 0.

(** The body [{ startNode: a, endNode: b, weight: 10 }] with JSON
    integers. *)
Definition request (a b : Z) : CreateRequest :=
  mkCreateRequest (json_int a) (json_int b) (json_int 10) (bool_decide (a = b)) None.

(** Two tasks whose start nodes are occupied, then one tick. *)
Definition head_on : State :=
  run initialState
    [OpStart; OpCreate (at_ms 100) 1 (request 5 2);
     OpCreate (at_ms 200) 2 (request 2 5); OpTick].

(** A started server with one route under way. *)
Definition one_route : State :=
  with_movementQueue
    (λ _, [("AGV1", mkMovementData [1; 2; 3] 0
                      (mkLog "1" 1 3 "12:00:00" 10 (Some 7)) false)])
    (api_simulation_start initialState).

(** The vehicle [i], assigned the route 1-2-5-8-9 with battery [b0], has
    lost 3 points per step taken, and 12 once the route has left the
    queue. *)
Definition on_route_1_9 (i : string) (b0 : Z) (s : State) : Prop :=
  NoDup (movementQueue s).*1 ∧
  ∃ a, find_agv i (agvs s) = Some a ∧
       match mq_get i (movementQueue s) with
       | Some md => path md = [1; 2; 5; 8; 9] ∧ isChargingTask md = false ∧
                    (currentIndex md ≤ 4)%nat ∧
                    battery a = b0 - 3 * Z.of_nat (currentIndex md)
       | None => battery a = b0 - 12
       end.

(** A started server on which nothing stands in the way from node 1 to
    node 9. *)
Definition clear_floor : State :=
  api_simulation_start
    (mkState
       [ mkAGV "AGV1" 1 100 idle "A*";
         mkAGV "AGV2" 3 85 idle "Dijkstra+TimeWindow";
         mkAGV "AGV3" 7 92 idle "ACO" ]
       [] false 0 ∅ ∅ [] false [] []).

(** Source and destination equal, or one of them outside 1..9. *)
Definition invalid_spec (a b : Z) : Prop :=
  a = b ∨ ¬ (1 ≤ a ≤ 9) ∨ ¬ (1 ≤ b ≤ 9).

(** The body [{ startNode: "5", endNode: 5, weight: 10 }]: a string and a
    number are not [===]. *)
Definition string_5_to_5 : CreateRequest :=
  mkCreateRequest (json_numeral 5) (json_int 5) (json_int 10) false None.

(** The body [{ startNode: "10abc", endNode: 1, weight: 10 }]:
    [Number("10abc")] is [NaN] and [parseInt("10abc")] is 10. *)
Definition string_10abc_to_1 : CreateRequest :=
  mkCreateRequest (mkBodyValue true NotANumber (Some 10)) (json_int 1) (json_int 10)
    false None.

(** The body [{ startNode: 1.5, endNode: 1, weight: 10 }]: [parseInt(1.5)]
    is 1. *)
Definition fraction_1_to_1 : CreateRequest :=
  mkCreateRequest (mkBodyValue true (Finite (Q2Qc (Qmake 3 2))) (Some 1)) (json_int 1)
    (json_int 10) false None.

(** The books after a task from 5 to 2, one tick and a task from 4 to 5:
    the vehicles rest on the distinct nodes 2, 5 and 4, and node 5, where
    AGV2 has stood all along, is no longer recorded as occupied. *)
Definition stale_books : State :=
  run initialState
    [OpStart; OpCreate (at_ms 100) 1 (request 5 2); OpTick;
     OpCreate (at_ms 200) 2 (request 4 5)].

(** The random values of one firing of the 5 s generator. *)
Definition legacy (start end_ : Z) : Draws := mkDraws true start [end_] 20 "high" 41.

Definition ticks5 : list Op := [OpTick; OpTick; OpTick; OpTick; OpTick].

(** A task for the only idle vehicle, and the five ticks its four hops and
    its completion take. *)
Definition shuttle (t a b : Z) : list Op :=
  OpCreate (at_ms t) 7 (request a b) :: ticks5.

(** AGV3 (route 8-5) and AGV2 (route 5-8) block each other for good; AGV1
    shuttles between nodes 7 and 3 six times and ends idle on node 7 with
    battery 28, its charging task due in a second. *)
Definition worn_down : State :=
  run initialState
    ([OpStart;
      OpCreate (at_ms 100) 1 (request 7 3);
      OpCreate (at_ms 200) 2 (request 8 5);
      OpCreate (at_ms 300) 3 (request 5 8);
      OpStart] ++ ticks5
     ++ shuttle 10500 3 7 ++ shuttle 20500 7 3 ++ shuttle 30500 3 7
     ++ shuttle 40500 7 3 ++ shuttle 50500 3 7).

(** [n] rounds of: a completion request for AGV1's first task (7 -> 3),
    which puts AGV1 back on node 3 and makes it idle; a start request, which
    rebuilds [occupiedNodes]; a task request that finds no vehicle and sends
    AGV1 on the charging route 3-2-5-8-9; one tick, in which AGV1 steps to
    node 2 (node 5 stays blocked). *)
Fixpoint recharge_attempts (n : nat) (t : Z) : list Op :=
  match n with
  | O => []
  | S n' =>
    [OpComplete (at_ms t) 1700000000100; OpStart;
     OpCreate (at_ms (t + 100)) 9 (request 1 2); OpTick]
    ++ recharge_attempts n' (t + 4000)
  end.

(** After eighteen such rounds AGV1 starts its charging route once more,
    with battery 10. *)
Definition nearly_flat : State :=
  run worn_down
    ([OpFire (at_ms 61400) (ChargingTaskTimeout "AGV1")]
     ++ recharge_attempts 18 62000
     ++ [OpComplete (at_ms 134000) 1700000000100; OpStart;
         OpCreate (at_ms 134100) 9 (request 1 2)]).

(** Three routes queued in the order AGV1, AGV3, AGV2; the last two both
    lead to node 8. *)
Definition crossing : State :=
  run initialState
    [OpStart; OpCreate (at_ms 100) 1 (request 1 2);
     OpCreate (at_ms 200) 2 (request 7 8); OpCreate (at_ms 300) 3 (request 9 8)].

Definition route_7_8 : MovementData :=
  mkMovementData [7; 8] 0 (mkLog "3" 7 8 "12:00:00" 10 (Some 2)) false.
Definition route_9_8 : MovementData :=
  mkMovementData [9; 8] 0 (mkLog "2" 9 8 "12:00:00" 10 (Some 3)) false.
Definition route_1_2_3 : MovementData :=
  mkMovementData [1; 2; 3] 0 (mkLog "1" 1 3 "12:00:00" 10 (Some 7)) false.

End CoordinatorSpec.

Module EnhancedSpec.
Import Graph Enhanced.

(** The score of a vehicle that is [d] steps (Manhattan) from the pickup. *)
Definition score_at (a : AGV) (d : Z) : Z :=
  (10 - d) * 10 + batteryBonus (battery a) + priorityBonus (agv_priority a)
  + algorithmBonus (algorithm a).

(** The candidate set and the score as the specification words them: idle
    vehicles above the 30% threshold, priority bonus taken from the task. *)
Definition spec_candidates (agvs : list AGV) : list AGV :=
  filter (λ a, status a = "idle" ∧ battery a > 30) agvs.

Definition spec_score (a : AGV) (task : Task) : option Z :=
  d ← heuristic (position a) (pickupLocation task);
  Some ((10 - d) * 10 + batteryBonus (battery a) + priorityBonus (priority task)
        + algorithmBonus (algorithm a)).

(** A fleet whose first vehicle is idle, next to the pickup and nearly
    empty. *)
Definition tired_fleet : list AGV :=
  [ mkAGV "AGV1" 5 20 "idle" "A*" "High";
    mkAGV "AGV2" 1 85 "idle" "Dijkstra+TimeWindow" "Medium";
    mkAGV "AGV3" 9 92 "executing" "ACO" "Low" ].

Definition pickup_at_5 : Task := mkTask 7 5 9 "Low" "pending" None None None None.

(** The fleet as configured at start-up. *)
Definition initial_fleet : list AGV :=
  [ mkAGV "AGV1" 1 100 "idle" "A*" "High";
    mkAGV "AGV2" 5 85 "idle" "Dijkstra+TimeWindow" "Medium";
    mkAGV "AGV3" 9 92 "idle" "ACO" "Low" ].

(** Two active tasks, the first of low and the second of high priority,
    flagged as overlapping in time. *)
Definition overlap_state : State :=
  mkState []
    [ mkTask 1 1 3 "Low" "assigned" (Some "AGV1") (Some [1; 2; 3]) (Some "A*") None;
      mkTask 2 3 1 "High" "assigned" (Some "AGV2") (Some [3; 2; 1]) (Some "A*") None ]
    [ mkConflict "time_overlap" [1; 2] [Some "AGV1"; Some "AGV2"] "medium" 0 ]
    1 0 [].


(** The nodes that can ever carry a [gScore]: the nine preset ones and the
    start node. *)
Definition scored_nodes (start : Z) : gset Z := list_to_set grid_nodes ∪ {[start]}.

(** What holds of the loop state of [aStarPathfinding] at the top of every
    turn: open nodes are distinct, reachable from [start], not closed and
    have a [gScore]. *)
Definition astar_inv (g : gmap Z (list Z)) (start : Z) (st : Search) : Prop :=
  NoDup (openSet st).*1 ∧
  (∀ n, n ∈ (openSet st).*1 →
        connected g start n ∧ (n ∉ closedSet st) ∧ n ∈ dom (gScore st)) ∧
  dom (gScore st) ⊆ scored_nodes start ∧
  closedSet st ⊆ scored_nodes start.

(** What holds of the loop state of [dijkstraWithTimeWindow]: a node with a
    finite distance or a predecessor can be reached from [start]. *)
Definition dijkstra_inv (g : gmap Z (list Z)) (start : Z) (st : Dijkstra) : Prop :=
  (∀ n d, distances st !! n = Some (Fin d) → connected g start n) ∧
  (∀ n p, previous st !! n = Some p → connected g start n).

(** The grid of [ServerPathfinding] with the edge from 8 to 9 taken out. *)
Definition cut_grid : gmap Z (list Z) := <[8 := [5; 7]]> nodeConnections.

End EnhancedSpec.

(** ** Predicates for the breadth-first search *)

Module SearchSpec.
Import Graph Coordinator CoordinatorSpec.

(** The number of edges of a node sequence. *)
Definition hops (p : list Z) : nat := (length p - 1)%nat.

(** [v] can be reached from [start] along at most [k] edges of [g]. *)
Fixpoint within (g : gmap Z (list Z)) (start : Z) (k : nat) (v : Z) : Prop :=
  match k with
  | O => v = start
  | S k' => within g start k' v ∨ ∃ u, within g start k' u ∧ edge g u v
  end.

(** What holds at the top of every turn of the loop of [findPath]: the
    queue is [q1 ++ q2], the entries of [q1] carry walks of [h] edges and
    those of [q2] walks of [h + 1] edges; every node nearer than [h] has been
    visited, every node at distance [h] is visited or waits in [q1], and the
    neighbours of a visited node are visited or queued. *)
Record bfs_level (g : gmap Z (list Z)) (start end_ : Z) (h : nat)
    (visited : gset Z) (q1 q2 : list (Z * list Z)) : Prop := mkLevel {
  lvl_walks : queue_ok g start (q1 ++ q2);
  lvl_near : Forall (λ e : Z * list Z, hops e.2 = h) q1;
  lvl_far : Forall (λ e : Z * list Z, hops e.2 = S h) q2;
  lvl_below : ∀ k v, (k < h)%nat → within g start k v → v ∈ visited;
  lvl_front : ∀ v, within g start h v → v ∈ visited ∨ v ∈ q1.*1;
  lvl_closed : ∀ u w, u ∈ visited → edge g u w → w ∈ visited ∨ w ∈ (q1 ++ q2).*1;
  lvl_end : end_ ∉ visited
}.

End SearchSpec.

(** ** Predicates for the states the server can reach *)

Module GridSpec.
Import Graph Coordinator CoordinatorSpec.

(** A node of the 3 x 3 grid. *)
Definition on_grid (n : Z) : Prop := 1 ≤ n ≤ 9.

(** A route as the coordinator expects it: at least one step, all nodes on
    the grid, consecutive nodes joined by an edge of [nodeGraph]. *)
Definition good_route (p : list Z) : Prop :=
  (2 ≤ length p)%nat ∧ Forall on_grid p ∧ is_walk nodeGraph p.

Definition good_task (t : Task) : Prop :=
  on_grid (startNode t) ∧ on_grid (endNode t) ∧ startNode t ≠ endNode t.

Definition good_timer (t : Timer) : Prop :=
  match t with
  | AutoCompleteTimeout _ _ dest => on_grid dest
  | _ => True
  end.

(** [Math.floor(Math.random() * 9) + 1] lies between 1 and 9. *)
Definition valid_draws (d : Draws) : Prop :=
  on_grid (draw_start d) ∧ Forall on_grid (draw_ends d).

(** The nodes of a creation request are integer-valued (JSON integers or
    strings of digits), [===] holds of them whenever they are the same
    node, and [parseInt] reads the weight. *)
Definition integer_request (req : CreateRequest) : Prop :=
  ∃ a b,
    to_number (req_startNode req) = Finite (Qc_of_Z a) ∧
    parse_int (req_startNode req) = Some a ∧
    to_number (req_endNode req) = Finite (Qc_of_Z b) ∧
    parse_int (req_endNode req) = Some b ∧
    (a = b → req_same req = true) ∧
    is_Some (parse_int (req_weight req)).

Definition valid_op (op : Op) : Prop :=
  match op with
  | OpGenerateAutoTask _ d | OpAutoTaskInterval _ d => valid_draws d
  | OpCreate _ _ req => integer_request req
  | _ => True
  end.

#[export] Instance is_walk_dec g p : Decision (is_walk g p).
Proof.
  induction p as [|a [|b q] IH]; simpl.
  - left. done.
  - left. done.
  - unfold edge. apply and_dec; [apply _|exact IH].
Defined.

#[export] Instance on_grid_dec n : Decision (on_grid n).
Proof. unfold on_grid. apply _. Defined.

#[export] Instance good_route_dec p : Decision (good_route p).
Proof. unfold good_route. apply _. Defined.

(** Vehicles, tasks, pending completions and queued routes all stay on the
    grid. *)
Record grid_inv (s : State) : Prop := mkGridInv {
  gi_positions : Forall (λ a, on_grid (position a)) (agvs s);
  gi_tasks : Forall good_task (tasks s);
  gi_timers : Forall good_timer (timers s);
  gi_routes : Forall (λ e : string * MovementData, good_route (path e.2)) (movementQueue s)
}.

End GridSpec.

(** ** Predicates for single ticks *)

Module TickSpec.
Import Graph Coordinator CoordinatorSpec.

(** Every queued route has a step left and wants a node that is occupied. *)
Definition blocked (s : State) : Prop :=
  Forall (λ e : string * MovementData,
            pending e.2 ∧ next_node e.2 ∈ occupiedNodes s) (movementQueue s).

(** The [agvWaiting] messages of a tick in which nobody moves. *)
Definition waiting_events (s : State) : list Event :=
  (λ e : string * MovementData, agvWaiting e.1 (position <$> find_agv e.1 (agvs s)))
  <$> movementQueue s.

(** A queue entry whose completion counts as a completed task: the route
    has no step left, its vehicle exists, and it is not a charging route
    that ends on the charging node. *)
Definition counts_as_completed (s : State) (e : string * MovementData) : Prop :=
  ¬ pending e.2 ∧ is_Some (find_agv e.1 (agvs s)) ∧
  ¬ (isChargingTask e.2 = true ∧ final_node e.2 = CHARGING_NODE).

#[export] Instance counts_as_completed_dec s e : Decision (counts_as_completed s e).
Proof. unfold counts_as_completed, pending. apply _. Defined.

(** The number of charging cycles a battery at [b] needs to reach 100. *)
Definition cycles_to_full (b : Z) : nat := Z.to_nat ((MAX_BATTERY - b + 4) / CHARGING_RATE).

(** The vehicle record a completing route leaves: on the final node,
    charging when a charging route has reached the charging node, idle
    otherwise. *)
Definition arrived (md : MovementData) (a : AGV) : AGV :=
  mkAGV (agv_id a) (final_node md) (battery a)
    (if isChargingTask md && bool_decide (final_node md = CHARGING_NODE)
     then charging else idle)
    (algorithm a).

(** The timer a completing route registers: the charging interval on
    arrival at the charging node, the charging-task timeout for a vehicle
    that ends elsewhere with a low battery. *)
Definition arrival_timers (i : string) (md : MovementData) (a : AGV) : list Timer :=
  if isChargingTask md && bool_decide (final_node md = CHARGING_NODE)
  then [ChargingInterval i]
  else if needsCharging a && bool_decide (final_node md ≠ CHARGING_NODE)
       then [ChargingTaskTimeout i] else [].

(** The vehicle a message of the coordinator's tick is about. *)
Definition tick_message_agv (e : Event) : option string :=
  match e with
  | agvMovement i _ _ _ _ | agvWaiting i _ | taskCompleted i _ _ _ => Some i
  | _ => None
  end.

End TickSpec.

(** ** Predicates for the planners of [enhanced_server.js] *)

Module PlannerSpec.
Import Graph Enhanced EnhancedSpec.

(** A predecessor map and a score map that form a tree rooted at [start]:
    every predecessor entry follows an edge of [g] and adds one to the
    score, the root has score 0 and no predecessor, and every node with a
    finite score is the root or has a predecessor. *)
Record search_tree (g : gmap Z (list Z)) (start : Z)
    (prev : gmap Z Z) (score : gmap Z jsnum) : Prop := mkTree {
  tree_edge : ∀ n c, prev !! n = Some c →
    edge g c n ∧ ∃ k, score !! c = Some (Fin k) ∧ score !! n = Some (Fin (k + 1));
  tree_root : score !! start = Some (Fin 0) ∧ prev !! start = None;
  tree_score : ∀ n k, score !! n = Some (Fin k) →
    0 ≤ k ∧ (n = start ∨ is_Some (prev !! n))
}.

(** What holds of [cameFrom] and [gScore] at the top of every turn of the
    loop of [aStarPathfinding]. *)
Definition astar_tree (g : gmap Z (list Z)) (start : Z) (avoid : list Z)
    (st : Search) : Prop :=
  search_tree g start (cameFrom st) (gScore st) ∧
  (∀ n c, cameFrom st !! n = Some c → (n ∉ avoid) ∧ c ∈ closedSet st) ∧
  (∀ n, n ∈ (openSet st).*1 → ∃ k, gScore st !! n = Some (Fin k)).

(** The same for [previous] and [distances] of [dijkstraWithTimeWindow]:
    in addition every node with a predecessor was free at its arrival
    time. *)
Definition dijkstra_tree (g : gmap Z (list Z)) (start tw : Z)
    (slots : gmap Z (list Z)) (st : Dijkstra) : Prop :=
  search_tree g start (previous st) (distances st) ∧
  (∀ n c, previous st !! n = Some c →
     (c ∉ unvisited st) ∧
     ∃ k, distances st !! n = Some (Fin k) ∧
          isTimeSlotAvailable n (tw + k * 5 * 60 * 1000) slots = true).

(** Every node of the path but the first is free when the vehicle gets
    there, five minutes per edge after [tw]. *)
Definition time_feasible (tw : Z) (slots : gmap Z (list Z)) (p : list Z) : Prop :=
  ∀ i n, (0 < i)%nat → p !! i = Some n →
         isTimeSlotAvailable n (tw + Z.of_nat i * 5 * 60 * 1000) slots = true.

(** A walk of [g] from [a] to [b]. *)
Definition route (g : gmap Z (list Z)) (a b : Z) (p : list Z) : Prop :=
  is_walk g p ∧ head p = Some a ∧ last p = Some b.

(** The nodes of the coordinate table of [heuristic]. *)
Definition on_table (n : Z) : Prop := 1 ≤ n ≤ 9.

#[export] Instance on_table_dec n : Decision (on_table n).
Proof. unfold on_table. apply _. Defined.

(** A path with the end points of [a] and [b] that is a walk of the table of
    [ServerPathfinding] and as long as the breadth-first route. *)
Definition as_short_as_bfs (a b : Z) (p : list Z) : Prop :=
  head p = Some a ∧ last p = Some b ∧
  Forall (λ e : Z * Z, e.2 ∈ neighbors nodeConnections e.1) (zip p (tail p)) ∧
  length p = length (Coordinator.findPath_on nodeConnections a b).

#[export] Instance as_short_as_bfs_dec a b p : Decision (as_short_as_bfs a b p).
Proof. unfold as_short_as_bfs. apply _. Defined.

(** What the table check asks of A* and of Dijkstra (started at time 0 with
    no slot taken) for one pair of nodes. *)
Definition astar_checked (a b : Z) : Prop :=
  match aStarPathfinding a b [] with
  | Val p => as_short_as_bfs a b p
  | _ => False
  end.

Definition dijkstra_checked (a b : Z) : Prop :=
  match dijkstraWithTimeWindow a b 0 ∅ with
  | Val (p, t) => as_short_as_bfs a b p ∧ t = Fin (Z.of_nat (length p - 1) * 5 * 60 * 1000)
  | _ => False
  end.

#[export] Instance jsnum_eq_dec : EqDecision jsnum.
Proof. solve_decision. Defined.

#[export] Instance astar_checked_dec a b : Decision (astar_checked a b).
Proof. unfold astar_checked. destruct (aStarPathfinding a b []); apply _. Defined.

#[export] Instance dijkstra_checked_dec a b : Decision (dijkstra_checked a b).
Proof.
  unfold dijkstra_checked. destruct (dijkstraWithTimeWindow a b 0 ∅) as [[p t]| |]; apply _.
Defined.

(** The Manhattan distance to [e] drops by at most one along the edge from
    [a] to [b]. *)
Definition consistent_at (e a b : Z) : Prop :=
  match heuristic a e, heuristic b e with
  | Some ha, Some hb => ha ≤ hb + 1
  | _, _ => False
  end.

#[export] Instance consistent_at_dec e a b : Decision (consistent_at e a b).
Proof.
  unfold consistent_at. destruct (heuristic a e), (heuristic b e); apply _.
Defined.

End PlannerSpec.

(** ** The dashboard's copy of the grid ([frontend/main.js]) *)

Module Frontend.

(** [nodeEdges]: six horizontal and five vertical edges; the edge between 6
    and 9 is left out. *)
Definition nodeEdges : list (Z * Z) :=
  [ (1, 2); (2, 3); (4, 5); (5, 6); (7, 8); (8, 9);
    (1, 4); (2, 5); (3, 6); (4, 7); (5, 8) ].

(** The dashboard draws an edge between [a] and [b], in either direction. *)
Definition drawn (a b : Z) : Prop := (a, b) ∈ nodeEdges ∨ (b, a) ∈ nodeEdges.

#[export] Instance drawn_dec a b : Decision (drawn a b).
Proof. unfold drawn. apply _. Defined.

(** The two server tables against the dashboard, for one pair of nodes. *)
Definition tables_agree_at (a b : Z) : Prop :=
  (Graph.edge Coordinator.nodeGraph a b ↔ drawn a b) ∧
  (Graph.edge Enhanced.nodeConnections a b ↔
   drawn a b ∧ (a, b) ≠ (4, 5) ∧ (a, b) ≠ (5, 4)).

#[export] Instance tables_agree_at_dec a b : Decision (tables_agree_at a b).
Proof. unfold tables_agree_at, Graph.edge. apply _. Defined.

End Frontend.

(** ** Predicates for task creation *)

Module CreationSpec.
Import Coordinator.

(** The vehicles [createTaskInternal] can choose from, in fleet order. *)
Definition available (s : State) : list AGV :=
  filter (λ a, status a = idle ∧ needsCharging a = false) (agvs s).

End CreationSpec.

(** ** [POST /api/dataset/process] *)

Module Batch.
Import Coordinator.

(** An entry of [systemState.uploadedTasks] whose fields are numbers. *)
Record Row := mkRow {
  row_start : Z;
  row_end : Z;
  row_weight : Z;
  row_priority : string
}.

(** The counters the endpoint answers with. *)
Record Report := mkReport {
  createdTasks : nat;
  failedTasks : nat;
  totalTasks : nat
}.

(** One turn of [uploadedTasks.forEach]; the clock and the payload number
    are what [new Date()] and [Math.random()] give in that turn.  The
    [setTimeout] of a successful turn has an empty callback and is not
    recorded; [createTaskInternal] does not throw on numbers, so the [catch]
    branch is not taken. *)
Definition process_row (acc : State * nat * nat) (r : Clock * Z * Row)
    : State * nat * nat :=
  let '(s, created, failed) := acc in
  let '(clk, payload, row) := r in
  match createTaskInternal clk payload (row_start row) (row_end row)
          (row_weight row) (row_priority row) false s with
  | (s', Created _) => (s', S created, failed)
  | (s', NoAvailableAGV) => (s', created, S failed)
  end.

(** The handler; [None] is the 400 answer for a missing or empty
    dataset. *)
Definition api_dataset_process (rows : list (Clock * Z * Row)) (s : State)
    : State * option Report :=
  match rows with
  | [] => (s, None)
  | _ =>
    let '(s', created, failed) := foldl process_row (s, 0%nat, 0%nat) rows in
    (s', Some (mkReport created failed (length rows)))
  end.

End Batch.

(** ** Runs of the coordinator used as examples *)

Module Scenarios.
Import Coordinator CoordinatorSpec Batch.

(** The server after [POST /api/simulation/start]. *)
Definition started : State := api_simulation_start initialState.

(** A task from 1 to 3 is created and one tick has passed. *)
Definition first_step : list Op :=
  [OpStart; OpCreate (at_ms 100) 1 (request 1 3); OpTick].

(** The generator fires once, its draws giving a task from 1 to 3; then a
    request asks for a task from 7 to 8. *)
Definition generated : list Op :=
  [OpStart; OpGenerateAutoTask (at_ms 100) (mkDraws true 1 [1; 3] 20 "high" 41);
   OpCreate (at_ms 200) 2 (request 7 8)].

(** AGV1 has taken the only step of its route from 1 to 2. *)
Definition arriving : State :=
  run initialState [OpStart; OpCreate (at_ms 100) 1 (request 1 2); OpTick].

(** The task of [arriving]. *)
Definition task_1_to_2 : Z := now (at_ms 100).

(** The rows [POST /upload] stores for a spreadsheet, with the clock and the
    payload draw of each turn. *)
Definition sample_rows : list (Clock * Z * Row) :=
  [ (at_ms 100, 11, mkRow 1 5 25 "high");
    (at_ms 101, 12, mkRow 3 7 30 "medium");
    (at_ms 102, 13, mkRow 2 9 20 "low");
    (at_ms 103, 14, mkRow 4 6 35 "high");
    (at_ms 104, 15, mkRow 7 2 15 "medium") ].

End Scenarios.

(** ** Facts about walks and the search potential *)

Module GraphFacts.
Import Graph.

Lemma is_walk_snoc g p a b :
  is_walk g p → last p = Some a → edge g a b → is_walk g (p ++ [b]).
Proof.
  induction p as [|x [|y q] IH]; simpl; intros Hw Hl He.
  - done.
  - injection Hl as ->. done.
  - destruct Hw as [Hxy Hw]. split; [done|]. apply IH; done.
Qed.

Lemma is_walk_connected g p a b :
  is_walk g p → head p = Some a → last p = Some b → connected g a b.
Proof.
  revert a. induction p as [|x [|y q] IH]; simpl; intros a Hw Hh Hl.
  - done.
  - injection Hh as <-. injection Hl as <-. apply rtc_refl.
  - injection Hh as <-. destruct Hw as [Hxy Hw].
    eapply rtc_l; [exact Hxy|]. apply IH; done.
Qed.

Lemma sum_list_fmap_drop {A} (f f' : A → nat) (l : list A) (x : A) (d : nat) :
  (∀ y, (f' y ≤ f y)%nat) → x ∈ l → (f' x + d ≤ f x)%nat →
  (sum_list (f' <$> l) + d ≤ sum_list (f <$> l))%nat.
Proof.
  intros Hle Hin Hx. induction Hin as [x l|x y l Hin IH]; csimpl.
  - assert (sum_list (f' <$> l) ≤ sum_list (f <$> l))%nat; [|lia].
    clear Hx. induction l as [|z l IHl]; csimpl; [lia|]. specialize (Hle z). lia.
  - specialize (Hle y). lia.
Qed.

Lemma sum_list_fmap_mono {A} (f f' : A → nat) (l : list A) :
  (∀ y, (f' y ≤ f y)%nat) → (sum_list (f' <$> l) ≤ sum_list (f <$> l))%nat.
Proof.
  intros Hle. induction l as [|z l IHl]; csimpl; [lia|]. specialize (Hle z). lia.
Qed.

(** Visiting a new node pays for the queue entries its neighbours add. *)
Lemma unvisited_degree_visit g (visited : gset Z) c :
  c ∉ visited →
  (unvisited_degree g (visited ∪ {[c]}) + length (neighbors g c)
   ≤ unvisited_degree g visited)%nat.
Proof.
  intros Hc. unfold unvisited_degree, neighbors.
  destruct (g !! c) as [ns|] eqn:Hg; simpl.
  - apply sum_list_fmap_drop with (x := (c, ns)).
    + intros [k l]; simpl. repeat case_decide; try lia. set_solver.
    + by apply elem_of_map_to_list.
    + simpl. repeat case_decide; try lia; set_solver.
  - rewrite Nat.add_0_r. apply sum_list_fmap_mono.
    intros [k l]; simpl. repeat case_decide; try lia. set_solver.
Qed.

Lemma connected_closed g (S : gset Z) a b :
  closed_under g S → a ∈ S → connected g a b → b ∈ S.
Proof.
  intros Hcl Ha Hconn. induction Hconn as [|x y z Hxy _ IH]; [done|].
  apply IH. unfold closed_under in Hcl. rewrite Forall_forall in Hcl.
  specialize (Hcl x). rewrite Forall_forall in Hcl. apply Hcl; [|done].
  by apply elem_of_elements.
Qed.


End GraphFacts.

(** ** Facts about the vehicle table and the movement queue *)

Module TableFacts.
Import Coordinator CoordinatorSpec.

Lemma find_agv_Some i l a : find_agv i l = Some a → a ∈ l ∧ agv_id a = i.
Proof.
  induction l as [|b l IH]; simpl; [done|]. case_decide.
  - intros [= ->]. split; [left|done].
  - intros [? ?]%IH. split; [by right|done].
Qed.

Lemma find_agv_None i l : find_agv i l = None ↔ i ∉ agv_id <$> l.
Proof.
  induction l as [|b l IH]; csimpl.
  - split; [intros _; apply not_elem_of_nil|done].
  - case_decide; rewrite not_elem_of_cons.
    + split; [done|]. intros [? _]. congruence.
    + rewrite IH. split; [intros ?; split; congruence|intros [_ ?]; done].
Qed.

Lemma find_agv_elem_of i l a :
  NoDup (agv_id <$> l) → a ∈ l → agv_id a = i → find_agv i l = Some a.
Proof.
  induction l as [|b l IH]; csimpl; intros Hnd Hin Hid.
  - by apply elem_of_nil in Hin.
  - apply NoDup_cons in Hnd as [Hb Hnd]. case_decide as Hbi.
    + apply elem_of_cons in Hin as [->|Hin]; [done|].
      exfalso. apply Hb. rewrite Hbi, <- Hid. by apply list_elem_of_fmap_2.
    + apply elem_of_cons in Hin as [->|Hin]; [done|]. by apply IH.
Qed.

Lemma alter_agv_ids f i l : keeps_id f → agv_id <$> alter_agv f i l = agv_id <$> l.
Proof.
  intros Hf. induction l as [|b l IH]; csimpl; [done|].
  case_decide; csimpl; [by rewrite Hf|by rewrite IH].
Qed.

Lemma find_agv_alter_eq f i l :
  keeps_id f → find_agv i (alter_agv f i l) = f <$> find_agv i l.
Proof.
  intros Hf. induction l as [|b l IH]; simpl; [done|].
  case_decide as Hb; simpl.
  - rewrite Hf, decide_True by done. done.
  - rewrite decide_False by done. done.
Qed.

Lemma find_agv_alter_ne f i j l :
  keeps_id f → i ≠ j → find_agv j (alter_agv f i l) = find_agv j l.
Proof.
  intros Hf Hij. induction l as [|b l IH]; simpl; [done|].
  case_decide as Hb; simpl.
  - rewrite Hf. subst i. rewrite !decide_False by done. done.
  - by rewrite IH.
Qed.

(** An update that does not move the vehicle keeps all positions. *)
Lemma alter_agv_positions f i l :
  (∀ a, position (f a) = position a) →
  position <$> alter_agv f i l = position <$> l.
Proof.
  intros Hf. induction l as [|b l IH]; csimpl; [done|].
  case_decide; csimpl; [by rewrite Hf|by rewrite IH].
Qed.

Lemma mq_get_Some i q d : mq_get i q = Some d → (i, d) ∈ q.
Proof.
  induction q as [|[k d'] q IH]; simpl; [done|]. case_decide.
  - intros [= ->]. subst. left.
  - intros ?%IH. by right.
Qed.

Lemma mq_get_None i q : mq_get i q = None ↔ i ∉ q.*1.
Proof.
  induction q as [|[k d'] q IH]; csimpl.
  - split; [intros _; apply not_elem_of_nil|done].
  - case_decide; rewrite not_elem_of_cons.
    + split; [done|]. intros [? _]. congruence.
    + rewrite IH. split; [intros ?; split; congruence|intros [_ ?]; done].
Qed.

Lemma mq_get_elem_of i q d : NoDup q.*1 → (i, d) ∈ q → mq_get i q = Some d.
Proof.
  induction q as [|[k d'] q IH]; csimpl; intros Hnd Hin.
  - by apply elem_of_nil in Hin.
  - apply NoDup_cons in Hnd as [Hk Hnd]. case_decide as Hki.
    + apply elem_of_cons in Hin as [[= -> ->]|Hin]; [done|].
      exfalso. apply Hk. subst k. by apply (list_elem_of_fmap_2 fst _ (i, d)).
    + apply elem_of_cons in Hin as [[= -> ->]|Hin]; [done|]. by apply IH.
Qed.

Lemma mq_set_keys i d q : i ∈ q.*1 → (mq_set i d q).*1 = q.*1.
Proof.
  induction q as [|[k d'] q IH]; csimpl; [by intros ?%elem_of_nil|].
  case_decide as Hk; csimpl; [done|].
  intros [?|Hin]%elem_of_cons; [congruence|]. by rewrite IH.
Qed.

Lemma mq_set_keys_new i d q : i ∉ q.*1 → (mq_set i d q).*1 = q.*1 ++ [i].
Proof.
  induction q as [|[k d'] q IH]; csimpl; [done|].
  rewrite not_elem_of_cons. intros [Hik Hin].
  rewrite decide_False by done. csimpl. by rewrite IH.
Qed.

Lemma mq_get_set_eq i d q : mq_get i (mq_set i d q) = Some d.
Proof.
  induction q as [|[k d'] q IH]; simpl.
  - by rewrite decide_True.
  - case_decide as Hk; simpl; [by rewrite decide_True|by rewrite decide_False].
Qed.

Lemma mq_get_set_ne i j d q : i ≠ j → mq_get j (mq_set i d q) = mq_get j q.
Proof.
  intros Hij. induction q as [|[k d'] q IH]; simpl.
  - by rewrite decide_False.
  - case_decide as Hk; simpl.
    + subst k. by rewrite !decide_False.
    + by rewrite IH.
Qed.

Lemma mq_get_delete_ne i j q : i ≠ j → mq_get j (mq_delete i q) = mq_get j q.
Proof.
  intros Hij. induction q as [|[k d'] q IH]; simpl; [done|].
  case_decide as Hk; simpl.
  - subst k. by rewrite decide_False.
  - by rewrite IH.
Qed.

Lemma alter_agv_not_found f i l : find_agv i l = None → alter_agv f i l = l.
Proof.
  induction l as [|b l IH]; simpl; [done|]. case_decide; [done|].
  intros ?. by rewrite IH.
Qed.

Lemma alter_agv_compose f g i l :
  keeps_id f → alter_agv g i (alter_agv f i l) = alter_agv (g ∘ f) i l.
Proof.
  intros Hf. induction l as [|b l IH]; simpl; [done|].
  case_decide as Hb; simpl.
  - by rewrite Hf, decide_True.
  - by rewrite decide_False, IH.
Qed.

Lemma mq_delete_keys_sublist i q : sublist (mq_delete i q).*1 q.*1.
Proof.
  induction q as [|[k d] q IH]; csimpl; [done|].
  case_decide; csimpl; [by apply sublist_cons|by apply sublist_skip].
Qed.

Lemma mq_delete_NoDup i q : NoDup q.*1 → NoDup (mq_delete i q).*1.
Proof. intros ?. eapply sublist_NoDup; [done|apply mq_delete_keys_sublist]. Qed.

Lemma mq_get_delete_eq i q : NoDup q.*1 → mq_get i (mq_delete i q) = None.
Proof.
  induction q as [|[k d] q IH]; csimpl; [done|]. intros [Hk Hnd]%NoDup_cons.
  case_decide as Hki; simpl.
  - subst k. by apply mq_get_None.
  - rewrite decide_False by done. by apply IH.
Qed.


End TableFacts.

Module CoordinatorFacts.
Import Graph GraphFacts Coordinator CoordinatorSpec TableFacts.

(** *** [findPath] *)

(** The loop always ends within the potential [queue length + unvisited
    degree]. *)
Lemma findPath_loop_terminates g e fuel (visited : gset Z) queue :
  (length queue + unvisited_degree g visited < fuel)%nat →
  findPath_loop fuel g e visited queue ≠ OutOfFuel.
Proof.
  revert visited queue. induction fuel as [|fuel IH]; intros visited queue Hlt.
  - lia.
  - destruct queue as [|[current path] rest]; simpl; [done|].
    case_decide; [done|]. case_decide.
    + apply IH. simpl in Hlt. lia.
    + apply IH. pose proof (unvisited_degree_visit g visited current H0) as Hv.
      rewrite length_app, length_fmap.
      pose proof (length_filter (λ n, n ∉ visited ∪ {[current]})
                    (neighbors g current)) as Hf.
      simpl in Hlt. lia.
Qed.

Lemma findPath_loop_returned g start e fuel (visited : gset Z) queue p :
  queue_ok g start queue →
  findPath_loop fuel g e visited queue = Returned p →
  is_walk g p ∧ head p = Some start ∧ last p = Some e.
Proof.
  revert visited queue. induction fuel as [|fuel IH]; intros visited queue Hq; [done|].
  destruct queue as [|[current path] rest]; simpl; [done|].
  apply Forall_cons in Hq as [(Hw & Hh & Hl) Hq]. simpl in *.
  case_decide as Hce.
  - intros [= <-]. subst. done.
  - case_decide; [by apply IH|]. apply IH.
    apply Forall_app. split; [done|].
    apply Forall_fmap, Forall_forall. intros n Hn. simpl.
    apply list_elem_of_filter in Hn as [_ Hn]. split_and!.
    + eapply is_walk_snoc; done.
    + rewrite head_snoc, Hh. done.
    + apply last_snoc.
Qed.

Lemma findPath_on_disconnected g start e :
  start ≠ e → ¬ connected g start e → findPath_on g start e = [start; e].
Proof.
  intros Hne Hnc. unfold findPath_on. rewrite decide_False by done.
  destruct (findPath_loop _ _ _ _ _) as [p| |] eqn:Hloop; [|done|].
  - exfalso. apply Hnc.
    apply (findPath_loop_returned g start) in Hloop as (Hw & Hh & Hl).
    + eapply is_walk_connected; done.
    + apply Forall_singleton. done.
  - exfalso. revert Hloop. apply findPath_loop_terminates.
    unfold findPath_fuel, total_degree. simpl. lia.
Qed.

(** *** One tick of the coordinator *)

(** [startCharging] only touches the status of the vehicle and the timers. *)
Lemma startCharging_frame agvId s :
  (∃ f, keeps_id f ∧ (∀ a, position (f a) = position a ∧ battery (f a) = battery a) ∧
        agvs (startCharging agvId s) = alter_agv f agvId (agvs s)) ∧
  occupiedNodes (startCharging agvId s) = occupiedNodes s ∧
  reservedNodes (startCharging agvId s) = reservedNodes s ∧
  movementQueue (startCharging agvId s) = movementQueue s ∧
  broadcasts (startCharging agvId s) = broadcasts s.
Proof.
  unfold startCharging. destruct (find_agv agvId (agvs s)) as [a|] eqn:Ha.
  - case_decide; simpl; split_and!; try done.
    + exists (set_status charging). split_and!; done.
    + exists (λ a, a). split_and!; try done. clear. induction (agvs s) as [|b l IH]; simpl; [done|].
      case_decide; [done|]. by rewrite <- IH.
  - split_and!; try done. exists (λ a, a). split_and!; try done.
    by rewrite alter_agv_not_found.
Qed.

Lemma completeAGVTask_frame agvId pos log ch s :
  let s' := completeAGVTask agvId pos log ch s in
  (∃ f, keeps_id f ∧ (∀ a, position (f a) = pos ∧ battery (f a) = battery a) ∧
        agvs s' = alter_agv f agvId (agvs s)) ∧
  occupiedNodes s' = occupiedNodes s ∧
  reservedNodes s' = reservedNodes s ∧
  movementQueue s' = movementQueue s ∧
  ∃ evs, broadcasts s' = broadcasts s ++ evs.
Proof.
  unfold completeAGVTask. destruct (find_agv agvId (agvs s)) as [a|] eqn:Ha; simpl.
  - destruct (ch && bool_decide (pos = CHARGING_NODE)) eqn:Hch.
    + set (s1 := with_agvs _ s).
      destruct (startCharging_frame agvId s1) as ((f & Hf & Hpb & Hagvs) & Ho & Hr & Hq & Hb).
      simpl. rewrite Hagvs, Ho, Hr, Hq, Hb. simpl. split_and!; try done; [|by eexists].
      exists (f ∘ set_position pos). split_and!.
      * intros b. simpl. by rewrite Hf.
      * intros b. simpl. destruct (Hpb (set_position pos b)) as [-> ->]. done.
      * by rewrite alter_agv_compose.
    + assert (∀ s0 : State, agvs s0 = alter_agv (set_status idle) agvId (alter_agv (set_position pos) agvId (agvs s)) →
        occupiedNodes s0 = occupiedNodes s → reservedNodes s0 = reservedNodes s →
        movementQueue s0 = movementQueue s → broadcasts s0 = broadcasts s →
        (∃ f, keeps_id f ∧ (∀ a, position (f a) = pos ∧ battery (f a) = battery a) ∧
           agvs (broadcast (taskCompleted agvId pos log ch) s0) = alter_agv f agvId (agvs s)) ∧
        occupiedNodes (broadcast (taskCompleted agvId pos log ch) s0) = occupiedNodes s ∧
        reservedNodes (broadcast (taskCompleted agvId pos log ch) s0) = reservedNodes s ∧
        movementQueue (broadcast (taskCompleted agvId pos log ch) s0) = movementQueue s ∧
        ∃ evs, broadcasts (broadcast (taskCompleted agvId pos log ch) s0) = broadcasts s ++ evs) as Hgen.
      { intros s0 Hagvs Ho Hr Hq Hb. simpl. rewrite Hagvs, Ho, Hr, Hq, Hb.
        split_and!; try done; [|by eexists].
        exists (set_status idle ∘ set_position pos). split_and!; try done.
        by rewrite alter_agv_compose. }
      destruct (needsCharging a && bool_decide (pos ≠ CHARGING_NODE)); apply Hgen; done.
  - split_and!; try done; [|exists []; by rewrite app_nil_r].
    exists (set_position pos). split_and!; try done. by rewrite alter_agv_not_found.
Qed.


Lemma plan_entry_complete s moves i md :
  ¬ pending md →
  plan_entry (s, moves) (i, md) =
  (with_movementQueue (mq_delete i)
     (completeAGVTask i (at_index (path md) (length (path md) - 1)%nat)
        (md_log md) (isChargingTask md) s), moves).
Proof.
  intros Hp. unfold plan_entry, pending in *. rewrite decide_True by lia.
  destruct (find_agv i (agvs s)) eqn:Hf; [done|].
  unfold completeAGVTask. by rewrite Hf.
Qed.

Lemma plan_entry_pending s moves i md :
  pending md →
  plan_entry (s, moves) (i, md) =
  if decide ((next_node md ∉ occupiedNodes s) ∧ (reservedNodes s !! next_node md = None))
  then (with_reservedNodes (λ r, <[next_node md := i]> r) s, moves ++ [movement_of i md])
  else (s, moves).
Proof.
  intros Hp. unfold plan_entry, pending in *. rewrite decide_False by lia. done.
Qed.

Lemma plan_fold_moves q : ∀ s moves,
  (foldl plan_entry (s, moves) q).2
  = moves ++ admitted (occupiedNodes s) (dom (reservedNodes s)) q.
Proof.
  induction q as [|[i md] q IH]; intros s moves; cbn [foldl admitted].
  - by rewrite app_nil_r.
  - destruct (decide (pending md)) as [Hp|Hp].
    + rewrite plan_entry_pending by done. unfold pending in Hp.
      rewrite (decide_False (P := (length (path md) ≤ _)%nat)) by lia.
      destruct (decide (_ ∧ reservedNodes s !! _ = None)) as [[Ho Hr]|Hn].
      * rewrite IH. simpl. rewrite decide_True.
        2:{ split; [done|]. by apply not_elem_of_dom. }
        rewrite <- app_assoc. simpl. rewrite dom_insert_L.
        replace ({[next_node md]} ∪ dom (reservedNodes s)) with (dom (reservedNodes s) ∪ {[next_node md]}) by set_solver.
        done.
      * rewrite IH. rewrite decide_False; [done|].
        intros [Ho Hr]. apply Hn. split; [done|]. by apply not_elem_of_dom.
    + rewrite plan_entry_complete by done. unfold pending in Hp.
      rewrite (decide_True (P := (length (path md) ≤ _)%nat)) by lia.
      rewrite IH. simpl.
      destruct (completeAGVTask_frame i (at_index (path md) (length (path md) - 1)%nat)
                  (md_log md) (isChargingTask md) s) as (_ & -> & -> & _). done.
Qed.


Lemma plan_entry_frame s moves i0 md0 :
  let s1 := (plan_entry (s, moves) (i0, md0)).1 in
  occupiedNodes s1 = occupiedNodes s ∧
  agv_id <$> agvs s1 = agv_id <$> agvs s ∧
  (∃ evs, broadcasts s1 = broadcasts s ++ evs) ∧
  (∀ i, i ≠ i0 → find_agv i (agvs s1) = find_agv i (agvs s) ∧
                 mq_get i (movementQueue s1) = mq_get i (movementQueue s)) ∧
  (NoDup (movementQueue s).*1 → NoDup (movementQueue s1).*1) ∧
  (pending md0 → agvs s1 = agvs s ∧ movementQueue s1 = movementQueue s) ∧
  (¬ pending md0 →
     (NoDup (movementQueue s).*1 → mq_get i0 (movementQueue s1) = None) ∧
     ∃ f, keeps_id f ∧
          (∀ a, position (f a) = final_node md0 ∧ battery (f a) = battery a) ∧
          find_agv i0 (agvs s1) = f <$> find_agv i0 (agvs s)).
Proof.
  destruct (decide (pending md0)) as [Hp|Hp].
  - rewrite plan_entry_pending by done.
    case_decide; simpl; split_and!; try done;
      try (exists []; by rewrite app_nil_r).
  - rewrite plan_entry_complete by done. cbn [fst].
    destruct (completeAGVTask_frame i0 (at_index (path md0) (length (path md0) - 1)%nat)
                (md_log md0) (isChargingTask md0) s)
      as ((f & Hf & Hpb & Hagvs) & Ho & Hr & Hq & Hb).
    simpl. rewrite Hagvs, Ho, Hq. split_and!; try done.
    + by apply alter_agv_ids.
    + intros i Hi. split; [by apply find_agv_alter_ne|by apply mq_get_delete_ne].
    + apply mq_delete_NoDup.
    + intros _. split; [apply mq_get_delete_eq|].
      exists f. split_and!; try done. by apply find_agv_alter_eq.
Qed.

Lemma plan_fold_state q : ∀ s moves,
  NoDup (movementQueue s).*1 → NoDup q.*1 →
  (∀ i md, (i, md) ∈ q → mq_get i (movementQueue s) = Some md) →
  let s' := (foldl plan_entry (s, moves) q).1 in
  occupiedNodes s' = occupiedNodes s ∧
  NoDup (movementQueue s').*1 ∧
  agv_id <$> agvs s' = agv_id <$> agvs s ∧
  (∃ evs, broadcasts s' = broadcasts s ++ evs) ∧
  (∀ i, i ∉ q.*1 → find_agv i (agvs s') = find_agv i (agvs s) ∧
                   mq_get i (movementQueue s') = mq_get i (movementQueue s)) ∧
  (∀ i md, (i, md) ∈ q → pending md →
     find_agv i (agvs s') = find_agv i (agvs s) ∧
     mq_get i (movementQueue s') = Some md) ∧
  (∀ i md, (i, md) ∈ q → ¬ pending md →
     mq_get i (movementQueue s') = None ∧
     ∃ f, keeps_id f ∧
          (∀ a, position (f a) = final_node md ∧ battery (f a) = battery a) ∧
          find_agv i (agvs s') = f <$> find_agv i (agvs s)).
Proof.
  induction q as [|[i0 md0] q IH]; intros s moves Hnd Hq Hget; cbn [foldl].
  - simpl. split_and!; try done.
    + exists []. by rewrite app_nil_r.
    + intros i md Hin. by apply elem_of_nil in Hin.
    + intros i md Hin. by apply elem_of_nil in Hin.
  - destruct (plan_entry (s, moves) (i0, md0)) as [s1 moves1] eqn:Hstep.
    pose proof (plan_entry_frame s moves i0 md0) as Hfr. rewrite Hstep in Hfr.
    cbn [fst] in Hfr.
    destruct Hfr as (Ho1 & Hids1 & (evs1 & Hb1) & Hother1 & Hnd1 & Hpend1 & Hcomp1).
    csimpl in Hq. apply NoDup_cons in Hq as [Hi0 Hq].
    assert (∀ i md, (i, md) ∈ q → i ≠ i0) as Hne.
    { intros i md Hin ->. apply Hi0. by apply (list_elem_of_fmap_2 fst _ (i0, md)). }
    specialize (IH s1 moves1 (Hnd1 Hnd) Hq).
    destruct IH as (Ho & Hnd' & Hids & (evs & Hb) & Hother & Hpend & Hcomp).
    { intros i md Hin. destruct (Hother1 i (Hne _ _ Hin)) as [_ ->].
      apply Hget. by right. }
    split_and!.
    + congruence.
    + done.
    + congruence.
    + exists (evs1 ++ evs). rewrite Hb, Hb1. by rewrite app_assoc.
    + intros i Hi. csimpl in Hi. apply not_elem_of_cons in Hi as [Hii0 Hi].
      destruct (Hother i Hi) as [-> ->]. by apply Hother1.
    + intros i md [[= -> ->]|Hin]%elem_of_cons Hp.
      * destruct (Hother i0 Hi0) as [-> ->]. destruct (Hpend1 Hp) as [-> ->].
        split; [done|]. apply Hget. left.
      * destruct (Hpend i md Hin Hp) as [-> ->]. split; [|done].
        by apply Hother1, (Hne _ md).
    + intros i md [[= -> ->]|Hin]%elem_of_cons Hp.
      * destruct (Hother i0 Hi0) as [-> ->].
        destruct (Hcomp1 Hp) as [Hnone Hf]. split; [by apply Hnone|done].
      * destruct (Hcomp i md Hin Hp) as [-> (f & Hf & Hpb & ->)]. split; [done|].
        exists f. split_and!; try done.
        by destruct (Hother1 i (Hne _ _ Hin)) as [-> _].
Qed.


Lemma execute_movement_frame s m :
  let s' := execute_movement s m in
  agv_id <$> agvs s' = agv_id <$> agvs s ∧
  (∃ evs, broadcasts s' = broadcasts s ++ evs) ∧
  (movementQueue s').*1 = (movementQueue s).*1 ∧
  (∀ i, i ≠ mv_agvId m → find_agv i (agvs s') = find_agv i (agvs s) ∧
                         mq_get i (movementQueue s') = mq_get i (movementQueue s)) ∧
  (find_agv (mv_agvId m) (agvs s) = None → s' = s) ∧
  (∀ a, find_agv (mv_agvId m) (agvs s) = Some a →
     find_agv (mv_agvId m) (agvs s') = Some (moved m a) ∧
     occupiedNodes s' = occupiedNodes s ∖ {[mv_from m]} ∪ {[mv_to m]} ∧
     mq_get (mv_agvId m) (movementQueue s')
     = advanced m <$> mq_get (mv_agvId m) (movementQueue s)).
Proof.
  unfold execute_movement.
  destruct (find_agv (mv_agvId m) (agvs s)) as [a|] eqn:Ha.
  2:{ split_and!; try done. exists []. by rewrite app_nil_r. }
  set (b := if negb (mv_isChargingTask m) then _ else _).
  assert (b = Z.max 10 (battery a - drain (mv_isChargingTask m))) as Hb.
  { unfold b, drain. by destruct (mv_isChargingTask m). }
  assert (keeps_id (λ a0, set_battery b (set_position (mv_to m) a0))) as Hk by done.
  simpl. destruct (mq_get (mv_agvId m) (movementQueue s)) as [md|] eqn:Hmd; simpl.
  - split_and!; try done.
    + by apply alter_agv_ids.
    + by eexists.
    + apply mq_set_keys. apply mq_get_Some in Hmd.
      by apply (list_elem_of_fmap_2 fst _ (mv_agvId m, md)).
    + intros i Hi. split; [by apply find_agv_alter_ne|by apply mq_get_set_ne].
    + intros a0 [= <-]. rewrite find_agv_alter_eq, Ha by done. simpl.
      split_and!; try done.
      * unfold moved. by rewrite Hb.
      * by rewrite mq_get_set_eq.
  - split_and!; try done.
    + by apply alter_agv_ids.
    + by eexists.
    + intros i Hi. split; [by apply find_agv_alter_ne|done].
    + intros a0 [= <-]. rewrite find_agv_alter_eq, Ha by done. simpl.
      split_and!; try done. unfold moved. by rewrite Hb.
Qed.

Lemma execute_fold_frame moves : ∀ s,
  NoDup (mv_agvId <$> moves) →
  let s' := foldl execute_movement s moves in
  agv_id <$> agvs s' = agv_id <$> agvs s ∧
  (∃ evs, broadcasts s' = broadcasts s ++ evs) ∧
  (movementQueue s').*1 = (movementQueue s).*1 ∧
  (∀ i, i ∉ mv_agvId <$> moves →
     find_agv i (agvs s') = find_agv i (agvs s) ∧
     mq_get i (movementQueue s') = mq_get i (movementQueue s)) ∧
  (∀ m, m ∈ moves →
     find_agv (mv_agvId m) (agvs s') = moved m <$> find_agv (mv_agvId m) (agvs s) ∧
     (is_Some (find_agv (mv_agvId m) (agvs s)) →
      mq_get (mv_agvId m) (movementQueue s')
      = advanced m <$> mq_get (mv_agvId m) (movementQueue s))).
Proof.
  induction moves as [|m0 moves IH]; intros s Hnd; cbn [foldl].
  - simpl. split_and!; try done.
    + exists []. by rewrite app_nil_r.
    + intros m Hm. by apply elem_of_nil in Hm.
  - csimpl in Hnd. apply NoDup_cons in Hnd as [Hm0 Hnd].
    destruct (execute_movement_frame s m0) as (Hids1 & (evs1 & Hb1) & Hk1 & Hother1 & Hnone1 & Hsome1).
    destruct (IH (execute_movement s m0) Hnd) as (Hids & (evs & Hb) & Hk & Hother & Hmoved).
    split_and!.
    + congruence.
    + exists (evs1 ++ evs). rewrite Hb, Hb1. by rewrite app_assoc.
    + congruence.
    + intros i Hi. csimpl in Hi. apply not_elem_of_cons in Hi as [Hi0 Hi].
      destruct (Hother i Hi) as [-> ->]. by apply Hother1.
    + intros m [->|Hm]%elem_of_cons.
      * destruct (Hother _ Hm0) as [-> ->].
        destruct (find_agv (mv_agvId m0) (agvs s)) as [a|] eqn:Ha.
        -- destruct (Hsome1 a eq_refl) as (Hf1 & _ & Hq1).
           rewrite Hf1, Hq1. split; [done|]. intros _. reflexivity.
        -- rewrite Hnone1 by done. rewrite Ha. split; [done|]. by intros [? ?].
      * assert (mv_agvId m ≠ mv_agvId m0) as Hne.
        { intros Heq. apply Hm0. rewrite <- Heq. by apply list_elem_of_fmap_2. }
        destruct (Hmoved m Hm) as [Hf Hq]. destruct (Hother1 _ Hne) as [Hf1 Hq1].
        rewrite Hf1 in Hf, Hq. split; [done|]. intros Hs.
        rewrite (Hq Hs). by rewrite Hq1.
Qed.

Lemma report_fold_frame moves q : ∀ s,
  let s' := foldl (report_waiting moves) s q in
  agvs s' = agvs s ∧ movementQueue s' = movementQueue s ∧
  occupiedNodes s' = occupiedNodes s ∧ reservedNodes s' = reservedNodes s ∧
  tasks s' = tasks s ∧ timers s' = timers s ∧
  totalTasksCompleted s' = totalTasksCompleted s ∧
  ∃ evs, broadcasts s' = broadcasts s ++ evs ∧
    ∀ i md, (i, md) ∈ q → i ∉ mv_agvId <$> moves →
            agvWaiting i (position <$> find_agv i (agvs s)) ∈ evs.
Proof.
  induction q as [|[i0 md0] q IH]; intros s; cbn [foldl].
  - simpl. split_and!; try done. exists []. rewrite app_nil_r. split; [done|].
    intros i md Hin. by apply elem_of_nil in Hin.
  - destruct (IH (report_waiting moves s (i0, md0)))
      as (Ha & Hq & Ho & Hr & Ht & Hti & Htot & evs & Hb & Hev).
    assert (agvs (report_waiting moves s (i0, md0)) = agvs s ∧
            movementQueue (report_waiting moves s (i0, md0)) = movementQueue s ∧
            occupiedNodes (report_waiting moves s (i0, md0)) = occupiedNodes s ∧
            reservedNodes (report_waiting moves s (i0, md0)) = reservedNodes s ∧
            tasks (report_waiting moves s (i0, md0)) = tasks s ∧
            timers (report_waiting moves s (i0, md0)) = timers s ∧
            totalTasksCompleted (report_waiting moves s (i0, md0)) = totalTasksCompleted s)
      as (Ha1 & Hq1 & Ho1 & Hr1 & Ht1 & Hti1 & Htot1).
    { unfold report_waiting. case_decide; done. }
    split_and!; try congruence.
    assert (∃ evs0, broadcasts (report_waiting moves s (i0, md0)) = broadcasts s ++ evs0 ∧
              (i0 ∉ mv_agvId <$> moves →
               agvWaiting i0 (position <$> find_agv i0 (agvs s)) ∈ evs0))
      as (evs0 & Hb0 & Hev0).
    { unfold report_waiting. simpl. case_decide as Hex.
      - exists []. rewrite app_nil_r. split; [done|]. intros Hni.
        exfalso. apply Hni. apply Exists_exists in Hex as (m & Hm & Hmi).
        rewrite <- Hmi. by apply list_elem_of_fmap_2.
      - eexists. split; [reflexivity|]. intros _. left. }
    exists (evs0 ++ evs). split.
    + rewrite Hb, Hb0. by rewrite app_assoc.
    + intros i md [[= -> ->]|Hin]%elem_of_cons Hni; apply elem_of_app.
      * left. by apply Hev0.
      * right. rewrite <- Ha1. by eapply Hev.
Qed.

Lemma admitted_elem_of occ res q m :
  m ∈ admitted occ res q →
  ∃ i md, (i, md) ∈ q ∧ pending md ∧ m = movement_of i md ∧
          (next_node md ∉ occ) ∧ (next_node md ∉ res).
Proof.
  revert res. induction q as [|[i0 md0] q IH]; intros res; simpl.
  - by intros ?%elem_of_nil.
  - case_decide as Hc.
    + intros (i & md & ? & ?)%IH. exists i, md. split; [by right|done].
    + case_decide as Hfree.
      * intros [->|Hin]%elem_of_cons.
        -- exists i0, md0. split_and!; try done; [left|unfold pending; lia|tauto|tauto].
        -- apply IH in Hin as (i & md & ? & ? & ? & ? & Hres).
           exists i, md. split_and!; try done; [by right|set_solver].
      * intros (i & md & ? & ?)%IH. exists i, md. split; [by right|done].
Qed.

Lemma admitted_ids_sublist occ res q :
  sublist (mv_agvId <$> admitted occ res q) q.*1.
Proof.
  revert res. induction q as [|[i0 md0] q IH]; intros res; csimpl; [done|].
  repeat case_decide; csimpl; [by apply sublist_cons|by apply sublist_skip|by apply sublist_cons].
Qed.

Lemma admitted_ids_NoDup occ res q :
  NoDup q.*1 → NoDup (mv_agvId <$> admitted occ res q).
Proof. intros ?. eapply sublist_NoDup; [done|apply admitted_ids_sublist]. Qed.

Lemma admitted_targets_NoDup occ res q : NoDup (mv_to <$> admitted occ res q).
Proof.
  revert res. induction q as [|[i0 md0] q IH]; intros res; csimpl; [constructor|].
  repeat case_decide; csimpl; try done.
  apply NoDup_cons. split; [|done].
  intros (m & Hm & Hin)%list_elem_of_fmap.
  apply admitted_elem_of in Hin as (i & md & _ & _ & -> & _ & Hres).
  simpl in Hm. set_solver.
Qed.

(** Among the queued vehicles that want the same free node, exactly the one
    queued first is admitted. *)
Lemma admitted_first_queued occ q : ∀ res k i md,
  NoDup q.*1 → q !! k = Some (i, md) → pending md →
  movement_of i md ∈ admitted occ res q ↔
  (next_node md ∉ occ) ∧ (next_node md ∉ res) ∧
  ∀ j i' md', (j < k)%nat → q !! j = Some (i', md') → pending md' →
              next_node md' ≠ next_node md.
Proof.
  induction q as [|[i0 md0] q IH]; intros res k i md Hnd Hk Hp; [done|].
  csimpl in Hnd. apply NoDup_cons in Hnd as [Hi0 Hnd].
  destruct k as [|k]; simpl in Hk.
  - injection Hk as -> ->. unfold pending in Hp. simpl.
    rewrite decide_False by lia. case_decide as Hfree.
    + split; [|intros _; left]. intros _. split_and!; try tauto. intros; lia.
    + split; [|tauto]. intros (i' & md' & Hin & _ & Heq & _)%admitted_elem_of.
      exfalso. apply Hi0. injection Heq as -> _.
      by apply (list_elem_of_fmap_2 fst _ (i', md')).
  - assert (i ≠ i0) as Hne.
    { intros ->. apply Hi0. apply list_elem_of_lookup_2 in Hk.
      by apply (list_elem_of_fmap_2 fst _ (i0, md)). }
    simpl. case_decide as Hc; [|case_decide as Hfree].
    + rewrite (IH res k i md) by done. apply and_iff_compat_l, and_iff_compat_l.
      split.
      * intros H [|j] i' md' Hj Hq Hp'; simpl in Hq.
        -- injection Hq as -> ->. unfold pending in Hp'. lia.
        -- apply (H j i' md'); [lia|done|done].
      * intros H j i' md' Hj Hq Hp'. apply (H (S j) i' md'); [lia|done|done].
    + rewrite elem_of_cons. rewrite (IH (res ∪ {[next_node md0]}) k i md) by done.
      split.
      * intros [Heq|(Ho & Hr & H)]; [by injection Heq|].
        split_and!; [done|set_solver|].
        intros [|j] i' md' Hj Hq Hp'; simpl in Hq.
        -- injection Hq as -> ->. set_solver.
        -- apply (H j i' md'); [lia|done|done].
      * intros (Ho & Hr & H). right. split_and!; [done| |].
        -- assert (next_node md0 ≠ next_node md).
           { apply (H 0%nat i0 md0); [lia|done|unfold pending; lia]. }
           set_solver.
        -- intros j i' md' Hj Hq Hp'. apply (H (S j) i' md'); [lia|done|done].
    + rewrite (IH res k i md) by done. split.
      * intros (Ho & Hr & H). split_and!; try done.
        intros [|j] i' md' Hj Hq Hp'; simpl in Hq.
        -- injection Hq as -> ->. intros Heq. apply Hfree. by rewrite Heq.
        -- apply (H j i' md'); [lia|done|done].
      * intros (Ho & Hr & H). split_and!; try done.
        intros j i' md' Hj Hq Hp'. apply (H (S j) i' md'); [lia|done|done].
Qed.

Lemma plan_moves s :
  (plan s).2 = admitted (occupiedNodes s) ∅ (movementQueue s).
Proof. unfold plan. rewrite plan_fold_moves. simpl. by rewrite dom_empty_L. Qed.

Lemma tick_unfold s :
  coordinateSimultaneousMovement s =
  foldl (report_waiting (plan s).2)
    (foldl execute_movement (plan s).1 (plan s).2)
    (movementQueue (foldl execute_movement (plan s).1 (plan s).2)).
Proof. unfold coordinateSimultaneousMovement. by destruct (plan s). Qed.

Lemma plan_state s :
  NoDup (movementQueue s).*1 →
  let s' := (plan s).1 in
  occupiedNodes s' = occupiedNodes s ∧
  NoDup (movementQueue s').*1 ∧
  agv_id <$> agvs s' = agv_id <$> agvs s ∧
  (∃ evs, broadcasts s' = broadcasts s ++ evs) ∧
  (∀ i, mq_get i (movementQueue s) = None →
     find_agv i (agvs s') = find_agv i (agvs s) ∧
     mq_get i (movementQueue s') = None) ∧
  (∀ i md, mq_get i (movementQueue s) = Some md → pending md →
     find_agv i (agvs s') = find_agv i (agvs s) ∧
     mq_get i (movementQueue s') = Some md) ∧
  (∀ i md, mq_get i (movementQueue s) = Some md → ¬ pending md →
     mq_get i (movementQueue s') = None ∧
     ∃ f, keeps_id f ∧
          (∀ a, position (f a) = final_node md ∧ battery (f a) = battery a) ∧
          find_agv i (agvs s') = f <$> find_agv i (agvs s)).
Proof.
  intros Hnd. unfold plan.
  destruct (plan_fold_state (movementQueue s) (with_reservedNodes (λ _, ∅) s) [])
    as (Ho & Hnd' & Hids & Hb & Hother & Hpend & Hcomp); try done.
  { intros i md Hin. by apply mq_get_elem_of. }
  simpl in *. split_and!; try done.
  - intros i Hi. apply mq_get_None in Hi as Hi'.
    destruct (Hother i Hi') as [-> ->]. done.
  - intros i md Hi. apply Hpend. by apply mq_get_Some.
  - intros i md Hi. apply Hcomp. by apply mq_get_Some.
Qed.

Lemma plan_moves_ids s m :
  NoDup (movementQueue s).*1 → m ∈ (plan s).2 →
  ∃ md, mq_get (mv_agvId m) (movementQueue s) = Some md ∧ pending md ∧
        m = movement_of (mv_agvId m) md ∧ next_node md ∉ occupiedNodes s.
Proof.
  intros Hnd. rewrite plan_moves.
  intros (i & md & Hin & Hp & -> & Ho & _)%admitted_elem_of.
  exists md. simpl. split_and!; try done. by apply mq_get_elem_of.
Qed.

Lemma plan_moves_NoDup s :
  NoDup (movementQueue s).*1 → NoDup (mv_agvId <$> (plan s).2).
Proof. intros ?. rewrite plan_moves. by apply admitted_ids_NoDup. Qed.

(** A vehicle with a queued route is in one of three situations in a tick. *)
Lemma tick_vehicle s i md :
  NoDup (movementQueue s).*1 →
  mq_get i (movementQueue s) = Some md →
  let s' := coordinateSimultaneousMovement s in
  (¬ pending md →
     mq_get i (movementQueue s') = None ∧
     ∃ f, keeps_id f ∧
          (∀ a, position (f a) = final_node md ∧ battery (f a) = battery a) ∧
          find_agv i (agvs s') = f <$> find_agv i (agvs s)) ∧
  (pending md → movement_of i md ∈ (plan s).2 →
     find_agv i (agvs s') = moved (movement_of i md) <$> find_agv i (agvs s) ∧
     (is_Some (find_agv i (agvs s)) →
      mq_get i (movementQueue s') = Some (advanced (movement_of i md) md))) ∧
  (pending md → movement_of i md ∉ (plan s).2 →
     find_agv i (agvs s') = find_agv i (agvs s) ∧
     mq_get i (movementQueue s') = Some md ∧
     ∃ evs, broadcasts s' = broadcasts s ++ evs ∧
            agvWaiting i (position <$> find_agv i (agvs s)) ∈ evs).
Proof.
  intros Hnd Hmd s'. subst s'. rewrite tick_unfold.
  destruct (plan_state s Hnd) as (Ho & Hnd1 & Hids1 & (evs1 & Hb1) & Hnone1 & Hpend1 & Hcomp1).
  pose proof (plan_moves_NoDup s Hnd) as Hndm.
  destruct (execute_fold_frame (plan s).2 (plan s).1 Hndm)
    as (Hids2 & (evs2 & Hb2) & Hk2 & Hother2 & Hmoved2).
  destruct (report_fold_frame (plan s).2
              (movementQueue (foldl execute_movement (plan s).1 (plan s).2))
              (foldl execute_movement (plan s).1 (plan s).2))
    as (Ha3 & Hq3 & _ & _ & _ & _ & _ & evs3 & Hb3 & Hev3).
  rewrite Ha3, Hq3.
  assert (∀ m, m ∈ (plan s).2 → mv_agvId m = i → m = movement_of i md ∧ pending md) as Hmine.
  { intros m Hm Hi. destruct (plan_moves_ids s m Hnd Hm) as (md' & Hmd' & Hp' & Heq & _).
    rewrite Hi in *. rewrite Hmd in Hmd'. injection Hmd' as <-. done. }
  split_and!.
  - intros Hp. assert (i ∉ mv_agvId <$> (plan s).2) as Hni.
    { intros (m & Hi & Hm)%list_elem_of_fmap. destruct (Hmine m Hm); done. }
    destruct (Hother2 i Hni) as [-> ->]. by apply Hcomp1.
  - intros Hp Hm. destruct (Hmoved2 _ Hm) as [Hf Hq]. simpl in Hf, Hq.
    destruct (Hpend1 i md Hmd Hp) as [Hf1 Hq1]. rewrite Hf1 in Hf, Hq.
    split; [done|]. intros Hs. rewrite (Hq Hs), Hq1. done.
  - intros Hp Hm. assert (i ∉ mv_agvId <$> (plan s).2) as Hni.
    { intros (m & Hi & Hm')%list_elem_of_fmap. destruct (Hmine m Hm') as [-> _]; done. }
    destruct (Hother2 i Hni) as [Hf2 Hq2]. destruct (Hpend1 i md Hmd Hp) as [Hf1 Hq1].
    rewrite Hf2, Hq2, Hf1, Hq1. split_and!; try done.
    exists (evs1 ++ evs2 ++ evs3). split.
    + rewrite Hb3, Hb2, Hb1. by rewrite <- !app_assoc.
    + rewrite !elem_of_app. right; right. rewrite <- Hf1, <- Hf2.
      apply (Hev3 i md); [|done]. apply mq_get_Some. by rewrite Hq2, Hq1.
Qed.


Lemma coordinator_inv_ext s s' :
  agvs s' = agvs s → movementQueue s' = movementQueue s →
  occupiedNodes s' = occupiedNodes s →
  coordinator_inv s → coordinator_inv s'.
Proof.
  intros Ha Hq Ho [H1 H2 H3 H4 H5]. unfold occupancy_injective in *.
  split; unfold occupancy_injective; rewrite ?Ha, ?Hq, ?Ho; done.
Qed.

Lemma plan_inv s :
  coordinator_inv s →
  coordinator_inv (plan s).1 ∧ Forall (valid_move (plan s).1) (plan s).2.
Proof.
  intros [Hids Hinj Hocc Hkeys Hqueue].
  destruct (plan_state s Hkeys) as (Ho & Hnd1 & Hids1 & _ & Hnone1 & Hpend1 & Hcomp1).
  assert (∀ i a1, find_agv i (agvs (plan s).1) = Some a1 →
            ∃ a, find_agv i (agvs s) = Some a ∧ position a1 = position a) as Hpos.
  { intros i a1 Ha1. destruct (mq_get i (movementQueue s)) as [md|] eqn:Hmd.
    - destruct (decide (pending md)) as [Hp|Hp].
      + destruct (Hpend1 i md Hmd Hp) as [Hf _]. rewrite Hf in Ha1. by exists a1.
      + destruct (Hcomp1 i md Hmd Hp) as [_ (f & Hf & Hpb & Hfind)].
        destruct (Hqueue i md Hmd) as (a & Ha & Hlen & Hat).
        rewrite Hfind, Ha in Ha1. injection Ha1 as <-. exists a. split; [done|].
        destruct (Hpb a) as [-> _]. rewrite <- Hat. unfold final_node, pending in *.
        f_equal. lia.
    - destruct (Hnone1 i Hmd) as [Hf _]. rewrite Hf in Ha1. by exists a1. }
  assert (∀ i md, mq_get i (movementQueue (plan s).1) = Some md →
            mq_get i (movementQueue s) = Some md ∧ pending md) as Hq1.
  { intros i md Hmd1. destruct (mq_get i (movementQueue s)) as [md'|] eqn:Hmd.
    - destruct (decide (pending md')) as [Hp|Hp].
      + destruct (Hpend1 i md' Hmd Hp) as [_ Hq]. rewrite Hq in Hmd1. by injection Hmd1 as <-.
      + destruct (Hcomp1 i md' Hmd Hp) as [Hq _]. congruence.
    - destruct (Hnone1 i Hmd) as [_ Hq]. congruence. }
  split.
  - split; try done.
    + by rewrite Hids1.
    + intros i j a1 b1 Ha1 Hb1 Heq.
      destruct (Hpos i a1 Ha1) as (a & Ha & Hpa). destruct (Hpos j b1 Hb1) as (b & Hb & Hpb).
      apply (Hinj i j a b); congruence.
    + intros i a1 Ha1. destruct (Hpos i a1 Ha1) as (a & Ha & ->). rewrite Ho. by eapply Hocc.
    + intros i md Hmd1. destruct (Hq1 i md Hmd1) as [Hmd Hp].
      destruct (Hpend1 i md Hmd Hp) as [-> _]. by apply Hqueue.
  - apply Forall_forall. intros m Hm.
    destruct (plan_moves_ids s m Hkeys Hm) as (md & Hmd & Hp & Heq & Hfree).
    destruct (Hpend1 _ md Hmd Hp) as [Hf Hq]. destruct (Hqueue _ md Hmd) as (a & Ha & Hlen & Hat).
    split; [rewrite Ho, Heq; done|]. exists a, md. rewrite Hf, Hq.
    split_and!; try done; rewrite Heq; simpl; done.
Qed.

Lemma execute_movement_inv s m :
  coordinator_inv s → valid_move s m → coordinator_inv (execute_movement s m).
Proof.
  intros [Hids Hinj Hocc Hkeys Hqueue] (Hfree & a & md & Ha & Hmd & Hfrom & Hlen & Hat).
  destruct (execute_movement_frame s m) as (Hids1 & _ & Hk1 & Hother & _ & Hsome).
  destruct (Hsome a Ha) as (Hf & Ho & Hq).
  assert (∀ i b', find_agv i (agvs (execute_movement s m)) = Some b' →
            (i = mv_agvId m ∧ b' = moved m a) ∨
            (i ≠ mv_agvId m ∧ find_agv i (agvs s) = Some b')) as Hcases.
  { intros i b' Hb'. destruct (decide (i = mv_agvId m)) as [->|Hne].
    - left. split; [done|]. congruence.
    - right. split; [done|]. destruct (Hother i Hne) as [<- _]. done. }
  split.
  - by rewrite Hids1.
  - intros i j a' b' Ha' Hb' Heq.
    destruct (Hcases i a' Ha') as [[-> ->]|[Hi Hai]], (Hcases j b' Hb') as [[-> ->]|[Hj Hbj]];
      try done.
    + exfalso. apply Hfree. simpl in Heq. rewrite Heq. by eapply Hocc.
    + exfalso. apply Hfree. simpl in Heq. rewrite <- Heq. by eapply Hocc.
    + by eapply Hinj.
  - intros i b' Hb'. rewrite Ho.
    destruct (Hcases i b' Hb') as [[-> ->]|[Hi Hbi]]; simpl; [set_solver|].
    assert (position b' ≠ mv_from m).
    { rewrite Hfrom. intros Heq. apply Hi. by eapply Hinj. }
    specialize (Hocc i b' Hbi). set_solver.
  - by rewrite Hk1.
  - intros i md' Hmd'. destruct (decide (i = mv_agvId m)) as [->|Hne].
    + rewrite Hq, Hmd in Hmd'. injection Hmd' as <-. exists (moved m a).
      split_and!; try done.
    + destruct (Hother i Hne) as [-> Hq']. rewrite Hq' in Hmd'. by apply Hqueue.
Qed.

Lemma execute_movement_valid s m0 m :
  valid_move s m → mv_agvId m ≠ mv_agvId m0 → mv_to m ≠ mv_to m0 →
  valid_move (execute_movement s m0) m.
Proof.
  intros (Hfree & a & md & Ha & Hmd & Hfrom & Hlen & Hat) Hid Hto.
  destruct (execute_movement_frame s m0) as (_ & _ & _ & Hother & Hnone & Hsome).
  destruct (Hother _ Hid) as [Hf Hq]. split.
  - destruct (find_agv (mv_agvId m0) (agvs s)) as [a0|] eqn:Ha0.
    + destruct (Hsome a0 eq_refl) as (_ & -> & _). set_solver.
    + by rewrite Hnone.
  - exists a, md. rewrite Hf, Hq. done.
Qed.

Lemma execute_fold_inv moves : ∀ s,
  coordinator_inv s → Forall (valid_move s) moves →
  NoDup (mv_agvId <$> moves) → NoDup (mv_to <$> moves) →
  coordinator_inv (foldl execute_movement s moves) ∧
  occupiedNodes (foldl execute_movement s moves)
  = (occupiedNodes s ∖ list_to_set (mv_from <$> moves)) ∪ list_to_set (mv_to <$> moves).
Proof.
  induction moves as [|m0 moves IH]; intros s Hinv Hvalid Hids Htos; cbn [foldl].
  - split; [done|]. csimpl. set_solver.
  - apply Forall_cons in Hvalid as [Hv0 Hvalid]. csimpl in Hids; csimpl in Htos.
    apply NoDup_cons in Hids as [Hid0 Hids]. apply NoDup_cons in Htos as [Hto0 Htos].
    destruct (IH (execute_movement s m0)) as [Hinv' Hocc']; try done.
    { by apply execute_movement_inv. }
    { apply Forall_forall. intros m Hm. apply execute_movement_valid.
      - by eapply Forall_forall in Hvalid.
      - intros Heq. apply Hid0. rewrite <- Heq. by apply list_elem_of_fmap_2.
      - intros Heq. apply Hto0. rewrite <- Heq. by apply list_elem_of_fmap_2. }
    split; [done|]. rewrite Hocc'.
    destruct Hv0 as (Hfree0 & a0 & md0 & Ha0 & _).
    destruct (execute_movement_frame s m0) as (_ & _ & _ & _ & _ & Hsome).
    destruct (Hsome a0 Ha0) as (_ & -> & _). csimpl.
    assert (mv_to m0 ∉ (list_to_set (mv_from <$> moves) : gset Z)) as Hnf.
    { rewrite elem_of_list_to_set. intros (m & Heq & Hm)%list_elem_of_fmap.
      destruct (proj1 (Forall_forall _ _) Hvalid m Hm) as (_ & a & md & Ha & _ & Hfrom & _).
      apply Hfree0. rewrite Heq, Hfrom. by eapply (inv_occupied s Hinv). }
    set_solver.
Qed.

(** A tick of the coordinator preserves the bookkeeping invariant, in
    particular the injectivity of the occupancy: if the
    vehicles rest on pairwise distinct nodes that are all recorded as
    occupied and every queued route stands at its vehicle's node, the same
    holds after the tick. *)
Theorem tick_preserves_injective_occupancy s :
  coordinator_inv s → coordinator_inv (coordinateSimultaneousMovement s).
Proof.
  intros Hinv. rewrite tick_unfold.
  destruct (plan_inv s Hinv) as [Hinv1 Hvalid].
  destruct (execute_fold_inv (plan s).2 (plan s).1 Hinv1 Hvalid) as [Hinv2 _].
  { apply plan_moves_NoDup, Hinv. }
  { rewrite plan_moves. apply admitted_targets_NoDup. }
  destruct (report_fold_frame (plan s).2
              (movementQueue (foldl execute_movement (plan s).1 (plan s).2))
              (foldl execute_movement (plan s).1 (plan s).2))
    as (Ha3 & Hq3 & Ho3 & _).
  by eapply coordinator_inv_ext.
Qed.

(** C2 (amended): a pending step is admitted exactly when its next node is
    not occupied and no route queued earlier wants the same node; so among
    contenders the vehicle queued first wins, whatever its id.  A vehicle
    whose step is not admitted keeps its record (position, battery, status)
    and its queue entry unchanged and is reported by one [agvWaiting]
    message of this tick. *)
Theorem tick_contention_first_queued s k i md :
  NoDup (movementQueue s).*1 →
  movementQueue s !! k = Some (i, md) →
  pending md →
  let s' := coordinateSimultaneousMovement s in
  (movement_of i md ∈ (plan s).2 ↔
   (next_node md ∉ occupiedNodes s) ∧ ¬ contended s k (next_node md)) ∧
  (next_node md ∈ occupiedNodes s ∨ contended s k (next_node md) →
   find_agv i (agvs s') = find_agv i (agvs s) ∧
   mq_get i (movementQueue s') = Some md ∧
   ∃ evs, broadcasts s' = broadcasts s ++ evs ∧
          agvWaiting i (position <$> find_agv i (agvs s)) ∈ evs).
Proof.
  intros Hnd Hk Hp s'.
  assert (movement_of i md ∈ (plan s).2 ↔
          (next_node md ∉ occupiedNodes s) ∧ ¬ contended s k (next_node md)) as Hiff.
  { rewrite plan_moves, (admitted_first_queued _ _ ∅ k i md) by done.
    unfold contended. split.
    - intros (Ho & _ & H). split; [done|].
      intros (j & i' & md' & Hj & Hq & Hp' & Heq). by eapply H.
    - intros (Ho & H). split_and!; [done|set_solver|].
      intros j i' md' Hj Hq Hp' Heq. apply H. by exists j, i', md'. }
  split; [done|]. intros Hblocked.
  assert (mq_get i (movementQueue s) = Some md) as Hmd.
  { apply mq_get_elem_of; [done|]. by eapply list_elem_of_lookup_2. }
  destruct (tick_vehicle s i md Hnd Hmd) as (_ & _ & Hwait).
  apply Hwait; [done|]. rewrite Hiff. intros [Ho Hc]. tauto.
Qed.

(** C6 (amended): when the bookkeeping invariant holds, an admitted step
    moves the vehicle to the next node of its route, sets its battery to
    [max 10 (battery - 3)] on a normal route and [max 10 (battery - 1)] on a
    charging route, advances the path index by one, marks the new node
    occupied and frees the old one. *)
Theorem tick_applies_admitted_move s i md a :
  coordinator_inv s →
  mq_get i (movementQueue s) = Some md →
  find_agv i (agvs s) = Some a →
  movement_of i md ∈ (plan s).2 →
  let s' := coordinateSimultaneousMovement s in
  find_agv i (agvs s')
  = Some (mkAGV (agv_id a) (next_node md)
            (Z.max 10 (battery a - drain (isChargingTask md))) (status a) (algorithm a)) ∧
  mq_get i (movementQueue s')
  = Some (mkMovementData (path md) (currentIndex md + 1) (md_log md) (isChargingTask md)) ∧
  next_node md ∈ occupiedNodes s' ∧
  position a ∉ occupiedNodes s'.
Proof.
  intros Hinv Hmd Ha Hm s'.
  pose proof (inv_keys s Hinv) as Hnd.
  destruct (plan_moves_ids s _ Hnd Hm) as (md' & Hmd' & Hp & _ & Hfree).
  simpl in Hmd'. rewrite Hmd in Hmd'. injection Hmd' as <-.
  destruct (tick_vehicle s i md Hnd Hmd) as (_ & Hmove & _).
  destruct (Hmove Hp Hm) as [Hf Hq]. fold s' in Hf, Hq. rewrite Ha in Hf.
  split_and!; [done|by apply Hq| |].
  - subst s'. rewrite tick_unfold.
    destruct (plan_inv s Hinv) as [Hinv1 Hvalid].
    destruct (execute_fold_inv (plan s).2 (plan s).1 Hinv1 Hvalid) as [_ Hocc].
    { by apply plan_moves_NoDup. }
    { rewrite plan_moves. apply admitted_targets_NoDup. }
    destruct (report_fold_frame (plan s).2
                (movementQueue (foldl execute_movement (plan s).1 (plan s).2))
                (foldl execute_movement (plan s).1 (plan s).2))
      as (_ & _ & -> & _).
    rewrite Hocc. apply elem_of_union_r, elem_of_list_to_set.
    by apply (list_elem_of_fmap_2 mv_to _ (movement_of i md)).
  - subst s'. rewrite tick_unfold.
    destruct (plan_inv s Hinv) as [Hinv1 Hvalid].
    destruct (execute_fold_inv (plan s).2 (plan s).1 Hinv1 Hvalid) as [_ Hocc].
    { by apply plan_moves_NoDup. }
    { rewrite plan_moves. apply admitted_targets_NoDup. }
    destruct (report_fold_frame (plan s).2
                (movementQueue (foldl execute_movement (plan s).1 (plan s).2))
                (foldl execute_movement (plan s).1 (plan s).2))
      as (_ & _ & -> & _).
    rewrite Hocc.
    destruct (inv_queue s Hinv i md Hmd) as (a' & Ha' & _ & Hat).
    rewrite Ha in Ha'. injection Ha' as <-.
    assert (position a ∈ (list_to_set (mv_from <$> (plan s).2) : gset Z)) as Hfrom.
    { apply elem_of_list_to_set. rewrite <- Hat.
      by apply (list_elem_of_fmap_2 mv_from _ (movement_of i md)). }
    assert (position a ∉ (list_to_set (mv_to <$> (plan s).2) : gset Z)) as Hto.
    { rewrite elem_of_list_to_set. intros (m & Heq & Hin)%list_elem_of_fmap.
      destruct (plan_moves_ids s m Hnd Hin) as (mdm & _ & _ & Hmeq & Hfreem).
      rewrite Hmeq in Heq. simpl in Heq. apply Hfreem. rewrite <- Heq.
      by eapply (inv_occupied s Hinv). }
    set_solver.
Qed.

(** C10: an executed movement leaves the battery at
    [max 10 (battery - drain)], hence at 10 or more, and the full drain of 3
    (normal) or 1 (charging route) is taken exactly when the battery was at
    least [10 + drain] before. *)
Theorem execute_movement_battery_floor s m a :
  find_agv (mv_agvId m) (agvs s) = Some a →
  ∃ a', find_agv (mv_agvId m) (agvs (execute_movement s m)) = Some a' ∧
        battery a' = Z.max 10 (battery a - drain (mv_isChargingTask m)) ∧
        10 ≤ battery a' ∧
        (battery a - battery a' = drain (mv_isChargingTask m)
         ↔ 10 + drain (mv_isChargingTask m) ≤ battery a).
Proof.
  intros Ha. destruct (execute_movement_frame s m) as (_ & _ & _ & _ & _ & Hsome).
  destruct (Hsome a Ha) as (Hf & _). exists (moved m a). split; [done|].
  simpl. unfold drain. destruct (mv_isChargingTask m); lia.
Qed.

Lemma one_route_inv : coordinator_inv one_route.
Proof. concrete_inv. Qed.

(** Task creation alone puts a vehicle on an occupied node: after two task
    creations and one tick, AGV1 and AGV2 both rest on node 5. *)
Lemma shared_node_after_tick :
  (∃ a b, find_agv "AGV1" (agvs head_on) = Some a ∧
          find_agv "AGV2" (agvs head_on) = Some b ∧
          position a = 5 ∧ position b = 5) ∧
  ¬ occupancy_injective head_on.
Proof.
  assert (find_agv "AGV1" (agvs head_on) = Some (mkAGV "AGV1" 5 100 busy "A*")) as H1
    by (vm_compute; reflexivity).
  assert (find_agv "AGV2" (agvs head_on) = Some (mkAGV "AGV2" 5 85 idle "Dijkstra+TimeWindow")) as H2
    by (vm_compute; reflexivity).
  split.
  - eexists _, _. split_and!; [exact H1|exact H2|done|done].
  - intros Hinj. specialize (Hinj _ _ _ _ H1 H2 eq_refl). done.
Qed.

(** The invariant holds of a started server with one route queued, and
    after its next tick. *)
Lemma tick_preserves_injective_occupancy_witness :
  coordinator_inv one_route ∧
  coordinator_inv (coordinateSimultaneousMovement one_route).
Proof.
  split; [exact one_route_inv|].
  apply (tick_preserves_injective_occupancy one_route). exact one_route_inv.
Defined.

(** C1, the code at the failing input.  After a task from 5 to 2, one tick
    and a task from 4 to 5 the three vehicles rest on the distinct nodes 2,
    5 and 4, but node 5 is missing from [occupiedNodes]: the first creation
    put AGV1 on AGV2's node and the tick released that node when AGV1 left
    it.  The next tick finds node 5 free and moves AGV3 onto it, where AGV2
    still stands. *)
Lemma tick_moves_onto_resting_vehicle :
  let s := stale_books in
  let s' := step s OpTick in
  (position <$> agvs s = [2; 5; 4] ∧ 5 ∉ occupiedNodes s) ∧
  find_agv "AGV2" (agvs s') = Some (mkAGV "AGV2" 5 85 idle "Dijkstra+TimeWindow") ∧
  find_agv "AGV3" (agvs s') = Some (mkAGV "AGV3" 5 89 busy "ACO") ∧
  ¬ occupancy_injective s'.
Proof.
  cbv zeta.
  assert (find_agv "AGV2" (agvs (step stale_books OpTick))
          = Some (mkAGV "AGV2" 5 85 idle "Dijkstra+TimeWindow")) as H2
    by (vm_compute; reflexivity).
  assert (find_agv "AGV3" (agvs (step stale_books OpTick))
          = Some (mkAGV "AGV3" 5 89 busy "ACO")) as H3
    by (vm_compute; reflexivity).
  split_and!; [vm_compute; reflexivity|by_compute|exact H2|exact H3|].
  intros Hinj. specialize (Hinj _ _ _ _ H2 H3 eq_refl). done.
Qed.

Lemma mq_set_NoDup i d q : NoDup q.*1 → NoDup (mq_set i d q).*1.
Proof.
  intros Hnd. destruct (decide (i ∈ q.*1)) as [Hin|Hin].
  - by rewrite mq_set_keys.
  - rewrite mq_set_keys_new by done. apply NoDup_app. split_and!; [done| |apply NoDup_singleton].
    intros x Hx ->%list_elem_of_singleton. done.
Qed.

Lemma tick_keys_NoDup s :
  NoDup (movementQueue s).*1 → NoDup (movementQueue (coordinateSimultaneousMovement s)).*1.
Proof.
  intros Hnd. rewrite tick_unfold.
  destruct (plan_state s Hnd) as (_ & Hnd1 & _).
  destruct (execute_fold_frame (plan s).2 (plan s).1 (plan_moves_NoDup s Hnd))
    as (_ & _ & Hk2 & _).
  destruct (report_fold_frame (plan s).2
              (movementQueue (foldl execute_movement (plan s).1 (plan s).2))
              (foldl execute_movement (plan s).1 (plan s).2))
    as (_ & -> & _).
  by rewrite Hk2.
Qed.

(** A tick leaves a vehicle without a queued route alone. *)
Lemma tick_not_queued s i :
  NoDup (movementQueue s).*1 →
  mq_get i (movementQueue s) = None →
  find_agv i (agvs (coordinateSimultaneousMovement s)) = find_agv i (agvs s) ∧
  mq_get i (movementQueue (coordinateSimultaneousMovement s)) = None.
Proof.
  intros Hnd Hmd. rewrite tick_unfold.
  destruct (plan_state s Hnd) as (_ & _ & _ & _ & Hnone1 & _).
  destruct (execute_fold_frame (plan s).2 (plan s).1 (plan_moves_NoDup s Hnd))
    as (_ & _ & _ & Hother2 & _).
  destruct (report_fold_frame (plan s).2
              (movementQueue (foldl execute_movement (plan s).1 (plan s).2))
              (foldl execute_movement (plan s).1 (plan s).2))
    as (-> & -> & _).
  assert (i ∉ mv_agvId <$> (plan s).2) as Hni.
  { intros (m & -> & Hm)%list_elem_of_fmap.
    destruct (plan_moves_ids s m Hnd Hm) as (md & Hmd' & _). congruence. }
  destruct (Hother2 i Hni) as [-> ->]. by apply Hnone1.
Qed.

Lemma on_route_1_9_tick i b0 s :
  b0 > 30 → on_route_1_9 i b0 s → on_route_1_9 i b0 (coordinateSimultaneousMovement s).
Proof.
  intros Hb0 (Hnd & a & Ha & Hst). split; [by apply tick_keys_NoDup|].
  destruct (mq_get i (movementQueue s)) as [md|] eqn:Hmd.
  - destruct Hst as (Hpath & Hch & Hidx & Hbat).
    destruct (tick_vehicle s i md Hnd Hmd) as (Hdone & Hmove & Hwait).
    destruct (decide (pending md)) as [Hp|Hp].
    + destruct (decide (movement_of i md ∈ (plan s).2)) as [Hm|Hm].
      * destruct (Hmove Hp Hm) as [Hf Hq]. rewrite Ha in Hf.
        eexists. split; [exact Hf|]. rewrite Hq by done. simpl.
        unfold pending in Hp. rewrite Hpath in Hp. simpl in Hp.
        rewrite Hch. unfold drain. split_and!; [done|done|lia|lia].
      * destruct (Hwait Hp Hm) as (Hf & Hq & _). rewrite Ha in Hf.
        exists a. split; [done|]. rewrite Hq. done.
    + destruct (Hdone Hp) as (Hq & f & Hf & Hpb & Hfind). rewrite Ha in Hfind.
      eexists. split; [exact Hfind|]. rewrite Hq. destruct (Hpb a) as [_ ->].
      unfold pending in Hp. rewrite Hpath in Hp. simpl in Hp. lia.
  - destruct (tick_not_queued s i Hnd Hmd) as [Hf Hq]. exists a.
    rewrite Hf, Hq. done.
Qed.

Lemma on_route_1_9_iter i b0 s n :
  b0 > 30 → on_route_1_9 i b0 s →
  on_route_1_9 i b0 (Nat.iter n coordinateSimultaneousMovement s).
Proof.
  intros Hb0 Hs. induction n as [|n IH]; simpl; [done|]. by apply on_route_1_9_tick.
Qed.

Lemma foldl_best_battery (others : list AGV) : ∀ first,
  let sel := foldl best_battery first others in
  sel ∈ first :: others ∧ ∀ b, b ∈ first :: others → battery b ≤ battery sel.
Proof.
  induction others as [|c others IH]; intros first; simpl.
  - split; [left|]. intros b ->%list_elem_of_singleton. lia.
  - destruct (IH (best_battery first c)) as [Hin Hmax].
    set (sel := foldl best_battery (best_battery first c) others) in *.
    unfold best_battery in Hin, Hmax.
    case_decide as Hc.
    + split.
      * apply elem_of_cons in Hin as [->|Hin]; [right; left|by do 2 right].
      * intros b [->|[->|Hb]%elem_of_cons]%elem_of_cons.
        -- assert (battery c ≤ battery sel) by (apply Hmax; left). lia.
        -- apply Hmax. left.
        -- apply Hmax. by right.
    + split.
      * apply elem_of_cons in Hin as [->|Hin]; [left|by do 2 right].
      * intros b [->|[->|Hb]%elem_of_cons]%elem_of_cons.
        -- apply Hmax. left.
        -- assert (battery first ≤ battery sel) by (apply Hmax; left). lia.
        -- apply Hmax. by right.
Qed.

Lemma findPath_1_9 : findPath 1 9 = [1; 2; 5; 8; 9].
Proof. vm_compute. reflexivity. Qed.

(** What a successful [createTaskInternal] for the task 1 -> 9 leaves
    behind. *)
Lemma createTaskInternal_1_9 clk payload w prio auto s s1 task :
  NoDup (agv_id <$> agvs s) → NoDup (movementQueue s).*1 →
  createTaskInternal clk payload 1 9 w prio auto s = (s1, Created task) →
  ∃ a0, find_agv (task_agvId task) (agvs s) = Some a0 ∧
        status a0 = idle ∧ battery a0 > 30 ∧
        (∀ b, b ∈ agvs s → status b = idle → battery b > 30 → battery b ≤ battery a0) ∧
        (∃ log, mq_get (task_agvId task) (movementQueue s1)
                = Some (mkMovementData [1; 2; 5; 8; 9] 0 log false)) ∧
        on_route_1_9 (task_agvId task) (battery a0) s1.
Proof.
  intros Hids Hkeys. unfold createTaskInternal.
  destruct (filter _ (agvs s)) as [|first others] eqn:Hav; [done|].
  rewrite findPath_1_9.
  destruct (foldl_best_battery others first) as [Hin Hmax].
  set (sel := foldl best_battery first others) in *.
  intros [= <- <-]. simpl.
  assert (sel ∈ agvs s ∧ status sel = idle ∧ needsCharging sel = false) as (Hsel & Hidle & Hneed).
  { rewrite <- Hav in Hin. by apply list_elem_of_filter in Hin as [[? ?] ?]. }
  assert (find_agv (agv_id sel) (agvs s) = Some sel) as Hfind by by apply find_agv_elem_of.
  assert (battery sel > 30) as Hbat.
  { unfold needsCharging, LOW_BATTERY_THRESHOLD in Hneed.
    apply bool_decide_eq_false in Hneed. lia. }
  exists sel. split_and!; try done.
  - intros b Hb Hbi Hb30. apply Hmax. rewrite <- Hav. apply list_elem_of_filter.
    split; [|done]. split; [done|]. unfold needsCharging, LOW_BATTERY_THRESHOLD.
    apply bool_decide_eq_false. lia.
  - unfold simulateAGVMovement. simpl. rewrite find_agv_alter_eq, Hfind by done.
    simpl. rewrite mq_get_set_eq. by eexists.
  - unfold simulateAGVMovement. simpl. rewrite find_agv_alter_eq, Hfind by done.
    simpl. split; [by apply mq_set_NoDup|]. simpl.
    rewrite alter_agv_compose by done. rewrite find_agv_alter_eq, Hfind by done.
    eexists. split; [reflexivity|]. rewrite mq_get_set_eq. simpl. split_and!; try done; lia.
Qed.

(** C7: the task 1 -> 9 goes to the idle vehicle with the largest battery
    above the threshold, its planned route is the 4-hop path 1-2-5-8-9, and
    whenever that route has left the movement queue after some number of
    ticks the vehicle's battery is exactly 12 below what it was at
    assignment. *)
Theorem task_1_to_9_costs_12 clk payload w prio auto s s1 task n :
  NoDup (agv_id <$> agvs s) → NoDup (movementQueue s).*1 →
  createTaskInternal clk payload 1 9 w prio auto s = (s1, Created task) →
  let i := task_agvId task in
  let sn := Nat.iter n coordinateSimultaneousMovement s1 in
  ∃ a0, find_agv i (agvs s) = Some a0 ∧ status a0 = idle ∧
        (∀ b, b ∈ agvs s → status b = idle → battery b > 30 → battery b ≤ battery a0) ∧
        path <$> mq_get i (movementQueue s1) = Some [1; 2; 5; 8; 9] ∧
        (mq_get i (movementQueue sn) = None →
         battery <$> find_agv i (agvs sn) = Some (battery a0 - 12)).
Proof.
  intros Hids Hkeys Hcreate i sn.
  destruct (createTaskInternal_1_9 _ _ _ _ _ _ _ _ Hids Hkeys Hcreate)
    as (a0 & Ha0 & Hidle & Hbat & Hmax & (log & Hq) & Hroute).
  exists a0. split_and!; try done.
  - fold i in Hq. by rewrite Hq.
  - intros Hdone.
    destruct (on_route_1_9_iter i (battery a0) s1 n Hbat Hroute) as (_ & a & Ha & Hst).
    fold sn in Ha, Hst. rewrite Hdone in Hst. rewrite Ha. simpl. by rewrite Hst.
Qed.

(** On a floor where nothing blocks the way the route completes within
    five ticks and AGV1 ends at 88. *)
Lemma task_1_to_9_costs_12_witness :
  let r := createTaskInternal noon 7 1 9 10 "high" false clear_floor in
  let s5 := Nat.iter 5 coordinateSimultaneousMovement r.1 in
  mq_get "AGV1" (movementQueue s5) = None ∧
  battery <$> find_agv "AGV1" (agvs s5) = Some 88.
Proof.
  split; [vm_compute; reflexivity|].
  destruct (task_1_to_9_costs_12 noon 7 10 "high" false clear_floor
              (createTaskInternal noon 7 1 9 10 "high" false clear_floor).1
              (mkTask 1700000000000 1 9 10 (Some "high") "AGV1" 7
                 (mkLog "1" 1 9 "12:00:00" 10 (Some 7)) task_executing
                 1700000000000 None false false) 5)
    as (a0 & Ha0 & _ & _ & _ & Hdone).
  - apply (bool_decide_unpack _). vm_compute. exact I.
  - apply (bool_decide_unpack _). vm_compute. exact I.
  - vm_compute. reflexivity.
  - simpl in Ha0. injection Ha0 as <-. apply Hdone. vm_compute. reflexivity.
Defined.

(** The handler leaves the state alone or hands the integers [parseInt]
    reads to [createTaskInternal]; this it does only when the two values are
    not [===] and neither is below 1 or above 9 as a number. *)
Lemma api_tasks_create_cases clk payload req s :
  (api_tasks_create clk payload req s).1 = s ∨
  ∃ a b w,
    parse_int (req_startNode req) = Some a ∧ parse_int (req_endNode req) = Some b ∧
    parse_int (req_weight req) = Some w ∧ req_same req = false ∧
    (js_lt (to_number (req_startNode req)) 1 = false ∧
     js_gt (to_number (req_startNode req)) 9 = false ∧
     js_lt (to_number (req_endNode req)) 1 = false ∧
     js_gt (to_number (req_endNode req)) 9 = false) ∧
    (api_tasks_create clk payload req s).1
    = (createTaskInternal clk payload a b w (default "medium" (req_priority req))
         false s).1.
Proof.
  unfold api_tasks_create.
  destruct (negb _ || negb _ || negb _); [by left|].
  destruct (req_same req) eqn:Hsame; [by left|].
  destruct (_ || _ || _ || _) eqn:Hr; [by left|].
  rewrite !orb_false_iff in Hr. destruct Hr as [[[H1 H2] H3] H4].
  destruct (parse_int (req_startNode req)) as [a|]; [|by left].
  destruct (parse_int (req_endNode req)) as [b|]; [|by left].
  destruct (parse_int (req_weight req)) as [w|]; [|by left].
  right. exists a, b, w. split_and!; try done.
  by destruct (createTaskInternal _ _ _ _ _ _ _ _) as [s' []].
Qed.

(** A request that lacks one of the three keys is answered with status
    400. *)
Lemma missing_field_rejected clk payload req s :
  req_startNode req = absent ∨ req_endNode req = absent ∨ req_weight req = absent →
  api_tasks_create clk payload req s
  = (s, BadRequest "Missing required fields: startNode, endNode, weight").
Proof.
  unfold api_tasks_create. intros [H|[H|H]]; rewrite H; simpl; [done| |].
  - by rewrite orb_true_r.
  - by rewrite orb_true_r.
Qed.

(** A request whose nodes are JSON integers is answered with status 400
    before [createTaskInternal] runs when the two are equal or one of them
    is not a node 1..9; the state is left as it was. *)
Lemma invalid_integer_spec_rejected clk payload a b w prio s :
  invalid_spec a b →
  ∃ msg, api_tasks_create clk payload
           (mkCreateRequest (json_int a) (json_int b) w (bool_decide (a = b)) prio) s
         = (s, BadRequest msg).
Proof.
  unfold invalid_spec, api_tasks_create. intros Hinv. cbn [req_startNode req_endNode
    req_weight req_same json_int truthy to_number parse_int js_lt js_gt].
  destruct (negb _ || negb _ || negb _) eqn:Hf; [by eexists|].
  destruct (bool_decide (a = b)) eqn:Heq; [by eexists|].
  apply bool_decide_eq_false in Heq.
  destruct (_ || _ || _ || _) eqn:Hr; [by eexists|].
  exfalso. rewrite !orb_false_iff in Hr. destruct Hr as [[[H1 H2] H3] H4].
  apply bool_decide_eq_false in H1, H2, H3, H4.
  rewrite <- Z2Qc_inj_lt in H1, H2, H3, H4. lia.
Qed.

(** C9, the code at the failing inputs.  On the started server the body
    [{ startNode: "5", endNode: 5, weight: 10 }] passes the three tests of
    the handler: a task from node 5 to node 5 is created and AGV1 is left
    busy on node 5.  The body with [startNode: "10abc"] puts AGV1 on node 10
    and queues the route 10, 1; the body with [startNode: 1.5] and
    [endNode: 1] creates a task from node 1 to node 1. *)
Lemma string_nodes_pass_validation :
  let s := api_simulation_start initialState in
  (∃ s' t, api_tasks_create noon 7 string_5_to_5 s = (s', Ok t) ∧
           startNode t = 5 ∧ endNode t = 5 ∧ tasks s' = [t] ∧
           find_agv "AGV1" (agvs s') = Some (mkAGV "AGV1" 5 100 busy "A*") ∧
           mq_get "AGV1" (movementQueue s') = None) ∧
  (∃ s' t, api_tasks_create noon 7 string_10abc_to_1 s = (s', Ok t) ∧
           startNode t = 10 ∧ endNode t = 1 ∧
           find_agv "AGV1" (agvs s') = Some (mkAGV "AGV1" 10 100 busy "A*") ∧
           path <$> mq_get "AGV1" (movementQueue s') = Some [10; 1]) ∧
  (∃ s' t, api_tasks_create noon 7 fraction_1_to_1 s = (s', Ok t) ∧
           startNode t = 1 ∧ endNode t = 1).
Proof.
  split_and!.
  - eexists _, _. split; [vm_compute; reflexivity|]. split_and!; reflexivity.
  - eexists _, _. split; [vm_compute; reflexivity|]. split_and!; reflexivity.
  - eexists _, _. split; [vm_compute; reflexivity|]. split_and!; reflexivity.
Qed.

(** C5, the code at the failing input: in a state reached from the initial
    one AGV1 is idle with battery 28, below the threshold of 30, and the
    5 s generator hands it a new transport task (4 -> 7). *)
Lemma low_battery_vehicle_gets_auto_task :
  let s := worn_down in
  let s' := step s (OpAutoTaskInterval (at_ms 60600) (legacy 4 7)) in
  (∃ a, find_agv "AGV1" (agvs s) = Some a ∧ status a = idle ∧
        battery a = 28 ∧ needsCharging a = true) ∧
  (∃ t, tasks s' = tasks s ++ [t] ∧ task_agvId t = "AGV1" ∧ isCharging t = false ∧
        startNode t = 4 ∧ endNode t = 7) ∧
  status <$> find_agv "AGV1" (agvs s') = Some executing.
Proof.
  split_and!.
  - eexists. split; [vm_compute; reflexivity|]. split_and!; reflexivity.
  - eexists. split; [vm_compute; reflexivity|]. split_and!; reflexivity.
  - vm_compute. reflexivity.
Qed.

(** The sibling path: a vehicle picked by [createTaskInternal] is idle and
    above the low-battery threshold. *)
Lemma createTaskInternal_selects_charged clk payload start end_ w prio auto s s1 task :
  createTaskInternal clk payload start end_ w prio auto s = (s1, Created task) →
  ∃ a, a ∈ agvs s ∧ agv_id a = task_agvId task ∧ status a = idle ∧
       battery a > LOW_BATTERY_THRESHOLD.
Proof.
  unfold createTaskInternal.
  destruct (filter _ (agvs s)) as [|first others] eqn:Hav; [done|].
  destruct (foldl_best_battery others first) as [Hin _].
  set (sel := foldl best_battery first others) in *.
  intros [= <- <-]. simpl. exists sel.
  rewrite <- Hav in Hin. apply list_elem_of_filter in Hin as [[Hidle Hneed] Hsel].
  split_and!; try done. unfold needsCharging in Hneed.
  apply bool_decide_eq_false in Hneed. lia.
Qed.


(** C2, counterexample: AGV2 and AGV3 both want the free node 8; AGV3, the
    higher id but queued first, is admitted and moves there, AGV2 stays on
    node 9 and is reported waiting. *)
Lemma higher_id_wins_contention :
  let s := crossing in
  let s' := coordinateSimultaneousMovement s in
  (mq_get "AGV2" (movementQueue s) = Some route_9_8 ∧
   mq_get "AGV3" (movementQueue s) = Some route_7_8 ∧
   pending route_9_8 ∧ pending route_7_8 ∧
   next_node route_9_8 = 8 ∧ next_node route_7_8 = 8 ∧ 8 ∉ occupiedNodes s) ∧
  String.ltb "AGV2" "AGV3" = true ∧
  movement_of "AGV3" route_7_8 ∈ (plan s).2 ∧
  (movement_of "AGV2" route_9_8 ∉ (plan s).2) ∧
  position <$> find_agv "AGV3" (agvs s') = Some 8 ∧
  position <$> find_agv "AGV2" (agvs s') = Some 9 ∧
  last (broadcasts s') = Some (agvWaiting "AGV2" (Some 9)).
Proof.
  split_and!.
  - vm_compute. reflexivity.
  - vm_compute. reflexivity.
  - unfold pending. simpl. lia.
  - unfold pending. simpl. lia.
  - reflexivity.
  - reflexivity.
  - by_compute.
  - vm_compute. reflexivity.
  - by_compute.
  - by_compute.
  - vm_compute. reflexivity.
  - vm_compute. reflexivity.
  - vm_compute. reflexivity.
Qed.

Lemma crossing_keys : NoDup (movementQueue crossing).*1.
Proof. by_compute. Qed.

(** In that tick AGV2, queued behind AGV3, keeps its record and its queue
    entry. *)
Lemma tick_contention_first_queued_witness :
  let s' := coordinateSimultaneousMovement crossing in
  find_agv "AGV2" (agvs s') = find_agv "AGV2" (agvs crossing) ∧
  mq_get "AGV2" (movementQueue s') = Some route_9_8.
Proof.
  destruct (tick_contention_first_queued crossing 2 "AGV2" route_9_8) as [_ Hlose].
  - exact crossing_keys.
  - vm_compute. reflexivity.
  - unfold pending. simpl. lia.
  - destruct Hlose as (Hf & Hq & _); [|by split].
    right. exists 1%nat, "AGV3", route_7_8.
    split_and!; [lia|vm_compute; reflexivity|unfold pending; simpl; lia|reflexivity].
Defined.

(** C6, counterexample: in a state reached from the initial one AGV1 is on
    a charging route with battery 10; its admitted step from node 3 to node
    2 leaves the battery at 10 instead of draining 1. *)
Lemma charging_step_at_floor_drains_nothing :
  let s := nearly_flat in
  let s' := coordinateSimultaneousMovement s in
  (∃ md, mq_get "AGV1" (movementQueue s) = Some md ∧ isChargingTask md = true ∧
         movement_of "AGV1" md ∈ (plan s).2) ∧
  battery <$> find_agv "AGV1" (agvs s) = Some 10 ∧
  position <$> find_agv "AGV1" (agvs s) = Some 3 ∧
  battery <$> find_agv "AGV1" (agvs s') = Some 10 ∧
  position <$> find_agv "AGV1" (agvs s') = Some 2.
Proof.
  split_and!; try (vm_compute; reflexivity).
  eexists. split; [vm_compute; reflexivity|]. split; [reflexivity|]. by_compute.
Qed.

(** AGV1 takes the first step of its route 1-2-3: battery 100 -> 97. *)
Lemma tick_applies_admitted_move_witness :
  let s' := coordinateSimultaneousMovement one_route in
  find_agv "AGV1" (agvs s') = Some (mkAGV "AGV1" 2 97 idle "A*") ∧
  2 ∈ occupiedNodes s' ∧ 1 ∉ occupiedNodes s'.
Proof.
  destruct (tick_applies_admitted_move one_route "AGV1" route_1_2_3
              (mkAGV "AGV1" 1 100 idle "A*")) as (Hf & _ & Hto & Hfrom).
  - exact one_route_inv.
  - reflexivity.
  - reflexivity.
  - by_compute.
  - split_and!; [exact Hf|exact Hto|exact Hfrom].
Defined.

(** The same step executed on its own. *)
Lemma execute_movement_battery_floor_witness :
  ∃ a', find_agv "AGV1"
          (agvs (execute_movement one_route (movement_of "AGV1" route_1_2_3))) = Some a' ∧
        battery a' = 97.
Proof.
  destruct (execute_movement_battery_floor one_route (movement_of "AGV1" route_1_2_3)
              (mkAGV "AGV1" 1 100 idle "A*")) as (a' & Hf & Hb & _).
  - reflexivity.
  - exists a'. split; [exact Hf|]. rewrite Hb. reflexivity.
Defined.

Example findPath_1_10 : findPath 1 10 = [1; 10].
Proof. vm_compute. reflexivity. Qed.

End CoordinatorFacts.

(** ** Facts about [backend/enhanced_server.js] *)

Module EnhancedFacts.
Import Graph GraphFacts Enhanced EnhancedSpec.

(** *** Searches between disconnected nodes *)

Lemma insert_sorted_perm {A} (le : A → A → bool) x l : insert_sorted le x l ≡ₚ x :: l.
Proof.
  induction l as [|y l IH]; simpl; [done|].
  destruct (le x y); [done|]. rewrite IH. apply Permutation_swap.
Qed.

Lemma stable_sort_perm {A} (le : A → A → bool) l : stable_sort le l ≡ₚ l.
Proof.
  induction l as [|x l IH]; simpl; [done|].
  rewrite insert_sorted_perm. by rewrite IH.
Qed.

Lemma positions_grid n : n ∈ grid_nodes → is_Some (positions n).
Proof.
  unfold grid_nodes. intros Hn.
  repeat (apply elem_of_cons in Hn as [->|Hn]; [by eexists|]).
  by apply elem_of_nil in Hn.
Qed.

Lemma heuristic_is_Some a b : is_Some (heuristic a b) ↔ is_Some (positions a) ∧ is_Some (positions b).
Proof.
  unfold heuristic. destruct (positions a) as [[x1 y1]|], (positions b) as [[x2 y2]|];
    split; try (intros [? ?]; done); try (intros [[? ?] [? ?]]; done); eauto.
Qed.

Lemma heuristic_scored start end_ n :
  is_Some (heuristic start end_) → n ∈ scored_nodes start → is_Some (heuristic n end_).
Proof.
  rewrite !heuristic_is_Some. intros [Hs He] Hn. split; [|done].
  unfold scored_nodes in Hn. apply elem_of_union in Hn as [Hn|Hn].
  - apply positions_grid. by apply elem_of_list_to_set in Hn.
  - apply elem_of_singleton in Hn as ->. done.
Qed.

(** One neighbour: the invariant survives and nothing throws. *)
Lemma relax_inv g start end_ avoid current st neighbor :
  is_Some (heuristic start end_) →
  astar_inv g start st → connected g start current → edge g current neighbor →
  ∃ st', relax end_ avoid current (Some st) neighbor = Some st' ∧
         astar_inv g start st' ∧ closedSet st' = closedSet st.
Proof.
  intros Hh Hinv Hcur Hedge. pose proof Hinv as (Hnd & Hopen & Hdom & Hclosed).
  unfold relax. cbn [mbind option_bind].
  case_decide as Hskip; [by exists st|].
  destruct (js_succ (gScore st !! current)) as [t| |];
    [|exists st; split_and!; [reflexivity|assumption|reflexivity]..].
  destruct (js_lt (Fin t) (gScore st !! neighbor)) eqn:Hlt; [|by exists st].
  assert (neighbor ∈ dom (gScore st)) as Hnd'.
  { apply elem_of_dom. destruct (gScore st !! neighbor); [by eexists|done]. }
  destruct (heuristic_scored start end_ neighbor Hh) as [h ->]; [set_solver|].
  cbn [mbind option_bind]. eexists. split; [reflexivity|]. split; [|done].
  assert (dom (<[neighbor:=Fin t]> (gScore st)) = dom (gScore st)) as Hdom'.
  { apply dom_insert_lookup_L. by apply elem_of_dom. }
  unfold astar_inv. simpl. rewrite Hdom'.
  case_decide as Hex.
  - split_and!; done.
  - assert (neighbor ∉ (openSet st).*1) as Hfresh.
    { intros ([n f] & -> & Hin)%list_elem_of_fmap. apply Hex, Exists_exists.
      by exists (n, f). }
    rewrite fmap_app. csimpl. split_and!; try done.
    + apply NoDup_app. split_and!; [done| |apply NoDup_singleton].
      intros x Hx ->%list_elem_of_singleton. done.
    + intros n [Hn|Hn%list_elem_of_singleton]%elem_of_app; [by apply Hopen|].
      subst n. split_and!; [|tauto|done]. eapply rtc_r; done.
Qed.

Lemma relax_fold_inv g start end_ avoid current ns : ∀ st,
  is_Some (heuristic start end_) →
  astar_inv g start st → connected g start current →
  (∀ n, n ∈ ns → edge g current n) →
  ∃ st', foldl (relax end_ avoid current) (Some st) ns = Some st' ∧
         astar_inv g start st' ∧ closedSet st' = closedSet st.
Proof.
  induction ns as [|n ns IH]; intros st Hh Hinv Hcur Hedges; cbn [foldl].
  - by exists st.
  - destruct (relax_inv g start end_ avoid current st n) as (st1 & -> & Hinv1 & Hc1);
      try done. { apply Hedges. left. }
    destruct (IH st1) as (st' & Hfold & Hinv' & Hc'); try done.
    { intros m Hm. apply Hedges. by right. }
    exists st'. split_and!; try done. congruence.
Qed.

(** With no route from [start] to [end_] the loop runs the open set empty
    and returns the empty path. *)
Lemma aStar_loop_disconnected g start end_ avoid fuel : ∀ st,
  is_Some (heuristic start end_) →
  ¬ connected g start end_ →
  astar_inv g start st →
  (size (scored_nodes start ∖ closedSet st) < fuel)%nat →
  aStar_loop fuel g end_ avoid st = Val [].
Proof.
  induction fuel as [|fuel IH]; intros st Hh Hnc Hinv Hsize; [lia|]. simpl.
  pose proof (stable_sort_perm (λ a b : Z * Z, bool_decide (a.2 ≤ b.2)) (openSet st)) as Hperm.
  destruct (stable_sort _ (openSet st)) as [|[current f] rest]; [done|].
  destruct Hinv as (Hnd & Hopen & Hdom & Hclosed).
  assert (current ∈ (openSet st).*1) as Hcur.
  { rewrite <- Hperm. csimpl. left. }
  destruct (Hopen current Hcur) as (Hconn & Hnotclosed & Hscored).
  rewrite decide_False by (intros ->; done).
  assert (NoDup (current :: rest.*1)) as Hnd'.
  { change (NoDup ((current, f) :: rest).*1). by rewrite Hperm. }
  apply NoDup_cons in Hnd' as [Hfresh Hndrest].
  set (st1 := mkSearch rest (closedSet st ∪ {[current]}) (cameFrom st) (gScore st)).
  assert (astar_inv g start st1) as Hinv1.
  { unfold astar_inv, st1. simpl. split_and!; try done.
    - intros n Hn. destruct (Hopen n) as (? & ? & ?).
      { rewrite <- Hperm. csimpl. by right. }
      split_and!; try done. set_solver.
    - set_solver. }
  destruct (relax_fold_inv g start end_ avoid current (neighbors g current) st1)
    as (st2 & -> & Hinv2 & Hc2); try done.
  apply IH; try done. rewrite Hc2. unfold st1. simpl.
  assert (scored_nodes start ∖ (closedSet st ∪ {[current]}) ⊂ scored_nodes start ∖ closedSet st) as Hsub.
  { assert (current ∈ scored_nodes start) by set_solver. set_solver. }
  apply subset_size in Hsub. lia.
Qed.

Lemma scored_nodes_size start : (size (scored_nodes start) ≤ 10)%nat.
Proof.
  unfold scored_nodes. rewrite size_union_alt.
  assert (size (list_to_set grid_nodes : gset Z) = 9%nat) as -> by (vm_compute; reflexivity).
  assert (size (({[start]} : gset Z) ∖ list_to_set grid_nodes) ≤ 1)%nat; [|lia].
  etrans; [apply subseteq_size|].
  { apply (subseteq_difference_l _ _ _ (reflexivity _)). }
  by rewrite size_singleton.
Qed.

Lemma gScore0_dom start :
  dom (<[start := Fin 0]> (list_to_map ((λ n, (n, Infinity)) <$> grid_nodes)) : gmap Z jsnum)
  = scored_nodes start.
Proof.
  rewrite dom_insert_L, dom_list_to_map_L. unfold scored_nodes.
  rewrite <- list_fmap_compose.
  assert (fst ∘ (λ n : Z, (n, Infinity)) = id) as -> by done.
  rewrite list_fmap_id. set_solver.
Qed.

Lemma aStarPathfinding_on_disconnected g start end_ avoid :
  is_Some (heuristic start end_) → ¬ connected g start end_ →
  aStarPathfinding_on g start end_ avoid = Val [].
Proof.
  intros Hh Hnc. unfold aStarPathfinding_on. destruct Hh as [h Hh]. rewrite Hh.
  apply (aStar_loop_disconnected g start); try done.
  - unfold astar_inv. cbn [openSet closedSet gScore]. rewrite gScore0_dom.
    split_and!.
    + apply NoDup_singleton.
    + intros n ->%list_elem_of_singleton. split_and!; [apply rtc_refl|set_solver|].
      unfold scored_nodes. set_solver.
    + done.
    + set_solver.
  - cbn [closedSet]. rewrite difference_empty_L. pose proof (scored_nodes_size start).
    unfold aStar_fuel. lia.
Qed.

Lemma dijkstra_relax_inv g start tw slots current st neighbor :
  dijkstra_inv g start st → edge g current neighbor →
  dijkstra_inv g start (dijkstra_relax tw slots current st neighbor) ∧
  unvisited (dijkstra_relax tw slots current st neighbor) = unvisited st.
Proof.
  intros Hinv Hedge. pose proof Hinv as [Hd Hp]. unfold dijkstra_relax.
  case_decide; [done|].
  destruct (distances st !! current) as [[dc| |]|] eqn:Hdc; simpl; try done.
  match goal with |- context [if ?b then _ else _] => destruct b end; [|done].
  assert (connected g start neighbor) as Hconn.
  { eapply rtc_r; [by eapply Hd|done]. }
  split; [|done]. split; simpl.
  - intros n d. destruct (decide (n = neighbor)) as [->|Hne]; [done|].
    rewrite lookup_insert_ne by done. apply Hd.
  - intros n p. destruct (decide (n = neighbor)) as [->|Hne]; [done|].
    rewrite lookup_insert_ne by done. apply Hp.
Qed.

Lemma dijkstra_relax_fold_inv g start tw slots current ns : ∀ st,
  dijkstra_inv g start st → (∀ n, n ∈ ns → edge g current n) →
  dijkstra_inv g start (foldl (dijkstra_relax tw slots current) st ns) ∧
  unvisited (foldl (dijkstra_relax tw slots current) st ns) = unvisited st.
Proof.
  induction ns as [|n ns IH]; intros st Hinv Hedges; cbn [foldl]; [done|].
  destruct (dijkstra_relax_inv g start tw slots current st n Hinv) as [Hinv1 Hu1].
  { apply Hedges. left. }
  destruct (IH _ Hinv1) as [Hinv2 Hu2].
  { intros m Hm. apply Hedges. by right. }
  split; [done|]. congruence.
Qed.

Lemma pick_min_fold_elem dist l : ∀ acc c,
  (foldl (pick_min dist) acc l).1 = Some c → acc.1 = Some c ∨ c ∈ l.
Proof.
  induction l as [|n l IH]; intros acc c; cbn [foldl]; [by left|].
  intros [Hacc|Hin]%IH; [|right; by right].
  unfold pick_min in Hacc. destruct (dist !! n) as [d|]; [|by left].
  destruct (js_lt d (Some acc.2)); [|by left].
  simpl in Hacc. injection Hacc as ->. right. left.
Qed.

(** The loop ends within one turn per unvisited node, and keeps the
    invariant. *)
Lemma dijkstra_loop_inv g start end_ tw slots fuel : ∀ st,
  dijkstra_inv g start st → (length (unvisited st) < fuel)%nat →
  ∃ st', dijkstra_loop fuel g end_ tw slots st = Some st' ∧ dijkstra_inv g start st'.
Proof.
  induction fuel as [|fuel IH]; intros st Hinv Hlen; [lia|]. simpl.
  destruct (unvisited st) as [|u us] eqn:Hu; [by exists st|]. rewrite <- Hu in Hlen |- *.
  destruct (foldl (pick_min (distances st)) (None, Infinity) (unvisited st)).1
    as [current|] eqn:Hpick; [|by exists st].
  case_decide; [by exists st|].
  apply pick_min_fold_elem in Hpick as [Hpick|Hin]; [done|].
  set (st1 := mkDijkstra (distances st) (previous st)
                (filter (λ n, n ≠ current) (unvisited st))).
  assert (dijkstra_inv g start st1) as Hinv1 by done.
  destruct (dijkstra_relax_fold_inv g start tw slots current (neighbors g current) st1 Hinv1)
    as [Hinv2 Hu2]; [done|].
  apply IH; [done|]. rewrite Hu2. unfold st1. simpl.
  assert (length (filter (λ n, n ≠ current) (unvisited st)) < length (unvisited st))%nat; [|lia].
  clear -Hin. induction (unvisited st) as [|x l IHl]; [by apply elem_of_nil in Hin|].
  destruct (decide (x = current)) as [->|Hne].
  - rewrite filter_cons_False by naive_solver. simpl.
    pose proof (length_filter (λ n, n ≠ current) l). lia.
  - rewrite filter_cons_True by done. simpl.
    apply elem_of_cons in Hin as [?|Hin]; [congruence|]. specialize (IHl Hin). lia.
Qed.

Lemma dijkstra_on_disconnected g start end_ tw slots :
  ¬ connected g start end_ →
  ∃ t, dijkstraWithTimeWindow_on g start end_ tw slots = Val ([end_], t) ∧
       (t = Infinity ∨ t = NaN).
Proof.
  intros Hnc. unfold dijkstraWithTimeWindow_on.
  set (st0 := mkDijkstra _ ∅ grid_nodes).
  destruct (dijkstra_loop_inv g start end_ tw slots 10 st0) as (st & -> & [Hd Hp]).
  - split; unfold st0; cbn [distances previous].
    + intros n d. destruct (decide (n = start)) as [->|Hne]; [intros _; apply rtc_refl|].
      rewrite lookup_insert_ne by done. intros Hl.
      apply elem_of_list_to_map_2 in Hl.
      apply list_elem_of_fmap in Hl as (m & Heq & _). done.
    + intros n p. by rewrite lookup_empty.
  - simpl. lia.
  - assert (previous st !! end_ = None) as Hprev.
    { destruct (previous st !! end_) eqn:Hl; [|done]. exfalso. by eapply Hnc, Hp. }
    unfold reconstructPath.
    assert (reconstructPath_loop (size (previous st)) (previous st) end_ [end_] = Some [end_]) as ->.
    { destruct (size (previous st)); simpl; by rewrite Hprev. }
    eexists. split; [reflexivity|].
    destruct (distances st !! end_) as [[d| |]|] eqn:Hdist; simpl; try tauto.
    exfalso. by eapply Hnc, Hd.
Qed.

(** *** Assignment *)

Lemma stable_sort_nil {A} (le : A → A → bool) l : stable_sort le l = [] → l = [].
Proof.
  destruct l as [|x l]; [done|]. simpl.
  destruct (stable_sort le l) as [|y k]; simpl; [done|]. by destruct (le x y).
Qed.

Lemma head_insert_sorted {A} (le : A → A → bool) x l :
  head (insert_sorted le x l)
  = Some (match head l with Some y => if le x y then x else y | None => x end).
Proof. destruct l as [|y l]; simpl; [done|]. by destruct (le x y). Qed.

(** The head of the descending stable sort is the first element of largest
    score. *)
Lemma head_sort_descending (l : list (AGV * Z)) h :
  head (stable_sort (λ a b, bool_decide (b.2 ≤ a.2)) l) = Some h →
  ∃ pre post, l = pre ++ h :: post ∧
              (∀ y, y ∈ pre → y.2 < h.2) ∧ (∀ y, y ∈ post → y.2 ≤ h.2).
Proof.
  revert h. induction l as [|x l IH]; intros h; [done|]. simpl.
  rewrite head_insert_sorted.
  destruct (head (stable_sort _ l)) as [y|] eqn:Hhead.
  - destruct (IH y eq_refl) as (pre & post & -> & Hpre & Hpost).
    case_bool_decide as Hle; intros [= <-].
    + exists [], (pre ++ y :: post). split_and!; [done|by intros ? ?%elem_of_nil|].
      intros z [Hz|[->|Hz]%elem_of_cons]%elem_of_app.
      * specialize (Hpre z Hz). lia.
      * done.
      * specialize (Hpost z Hz). lia.
    + exists (x :: pre), post. split_and!; [done| |done].
      intros z [->|Hz]%elem_of_cons; [lia|by apply Hpre].
  - intros [= <-]. apply head_None in Hhead. apply stable_sort_nil in Hhead as ->.
    exists [], []. split_and!; [done|by intros ? ?%elem_of_nil|by intros ? ?%elem_of_nil].
Qed.

Lemma score_all_Forall2 task l k :
  score_all task l = Some k →
  Forall2 (λ a p, p.1 = a ∧ ∃ d, heuristic (position a) (pickupLocation task) = Some d ∧
                                 p.2 = score_at a d) l k.
Proof.
  unfold score_all. intros H%mapM_Some. eapply Forall2_impl; [exact H|].
  intros a [a' sc]. unfold calculateAGVScore. simpl.
  destruct (heuristic (position a) (pickupLocation task)) as [d|]; simpl; [|done].
  intros [= <- <-]. split; [done|]. by exists d.
Qed.

Lemma selectAGV_best agvs task sel :
  selectAGV agvs task = Val (Some sel) →
  ∃ pre post d,
    filter (λ a, status a = "idle") agvs = pre ++ sel :: post ∧
    heuristic (position sel) (pickupLocation task) = Some d ∧
    (∀ b, b ∈ pre → ∃ db, heuristic (position b) (pickupLocation task) = Some db ∧
                          score_at b db < score_at sel d) ∧
    (∀ b, b ∈ post → ∃ db, heuristic (position b) (pickupLocation task) = Some db ∧
                           score_at b db ≤ score_at sel d).
Proof.
  unfold selectAGV. set (av := filter _ agvs).
  destruct av as [|a0 av'] eqn:Hav; [done|]. rewrite <- Hav. clear Hav a0 av'.
  destruct (score_all task av) as [k|] eqn:Hk; [|done].
  destruct (head (stable_sort _ k)) as [h|] eqn:Hh; [|done].
  intros [= <-]. apply head_sort_descending in Hh as (kpre & kpost & -> & Hpre & Hpost).
  apply score_all_Forall2 in Hk.
  apply Forall2_app_inv_r in Hk as (pre & rest & Hfpre & Hfrest & Heq).
  apply Forall2_cons_inv_r in Hfrest as (sel & post & (Hsel & d & Hd & Hsc) & Hfpost & ->).
  exists pre, post, d. rewrite <- Hsel in *. split_and!; try done.
  - intros b Hb. apply list_elem_of_lookup in Hb as [n Hn].
    destruct (Forall2_lookup_l _ _ _ _ _ Hfpre Hn) as (p & Hp & <- & db & Hdb & Hscb).
    exists db. split; [done|]. rewrite <- Hsc, <- Hscb. apply Hpre.
    by eapply list_elem_of_lookup_2.
  - intros b Hb. apply list_elem_of_lookup in Hb as [n Hn].
    destruct (Forall2_lookup_l _ _ _ _ _ Hfpost Hn) as (p & Hp & <- & db & Hdb & Hscb).
    exists db. split; [done|]. rewrite <- Hsc, <- Hscb. apply Hpost.
    by eapply list_elem_of_lookup_2.
Qed.

(** C3 (amended): when [assignTaskToAGV] assigns a vehicle, the candidates
    were all vehicles of status idle (whatever their battery); each is scored
    [(10 - manhattan(position, pickup)) * 10 + batteryBonus + priorityBonus
    + algorithmBonus], the priority bonus being read from the vehicle's own
    priority; the assigned vehicle has the highest score, and among equal
    scores it is the first in fleet order. *)
Theorem assignTaskToAGV_picks_first_best_idle clock agvs task task' i :
  assignTaskToAGV clock agvs task = Val (task', Some i) →
  ∃ sel pre post d,
    filter (λ a, status a = "idle") agvs = pre ++ sel :: post ∧
    agv_id sel = i ∧ assignedAGV task' = Some i ∧
    heuristic (position sel) (pickupLocation task) = Some d ∧
    calculateAGVScore sel task = Some (score_at sel d) ∧
    (∀ b, b ∈ pre → ∃ db, heuristic (position b) (pickupLocation task) = Some db ∧
                          score_at b db < score_at sel d) ∧
    (∀ b, b ∈ post → ∃ db, heuristic (position b) (pickupLocation task) = Some db ∧
                           score_at b db ≤ score_at sel d).
Proof.
  unfold assignTaskToAGV.
  destruct (selectAGV agvs task) as [[sel|]| |] eqn:Hsel; try done.
  destruct (plan_route clock sel task) as [route| |]; try done.
  case_decide; [|done]. intros [= <- <-].
  destruct (selectAGV_best _ _ _ Hsel) as (pre & post & d & Hav & Hd & Hpre & Hpost).
  exists sel, pre, post, d. split_and!; try done.
  unfold calculateAGVScore. rewrite Hd. done.
Qed.

(** On the start-up fleet a pickup at node 5 goes to AGV2 with score 150. *)
Lemma assignTaskToAGV_picks_first_best_idle_witness :
  ∃ sel, sel ∈ initial_fleet ∧ agv_id sel = "AGV2" ∧
         calculateAGVScore sel pickup_at_5 = Some 150.
Proof.
  destruct (assignTaskToAGV_picks_first_best_idle 0 initial_fleet pickup_at_5
              (mkTask 7 5 9 "Low" "assigned" (Some "AGV2") (Some [5])
                 (Some "Dijkstra+TimeWindow") None) "AGV2")
    as (sel & pre & post & d & Hav & Hid & _ & Hd & Hsc & _).
  - vm_compute. reflexivity.
  - exists sel. split_and!; [|exact Hid|].
    + assert (sel ∈ filter (λ a, status a = "idle") initial_fleet) as Hin.
      { rewrite Hav. apply elem_of_app. right. left. }
      by apply list_elem_of_filter in Hin as [_ ?].
    + assert (sel = mkAGV "AGV2" 5 85 "idle" "Dijkstra+TimeWindow" "Medium") as ->.
      { assert (sel ∈ filter (λ a, status a = "idle") initial_fleet) as Hin.
        { rewrite Hav. apply elem_of_app. right. left. }
        vm_compute in Hin.
        repeat (apply elem_of_cons in Hin as [->|Hin]; [try done|]).
        by apply elem_of_nil in Hin. }
      vm_compute. reflexivity.
Defined.

(** C3, counterexample: an idle vehicle with battery 20 is assigned, and its
    score (135) carries its own priority bonus, not the task's (120). *)
Lemma low_battery_vehicle_is_selected :
  (∃ task', assignTaskToAGV 0 tired_fleet pickup_at_5 = Val (task', Some "AGV1")) ∧
  (mkAGV "AGV1" 5 20 "idle" "A*" "High" ∉ spec_candidates tired_fleet) ∧
  calculateAGVScore (mkAGV "AGV1" 5 20 "idle" "A*" "High") pickup_at_5 = Some 135 ∧
  spec_score (mkAGV "AGV1" 5 20 "idle" "A*" "High") pickup_at_5 = Some 120.
Proof.
  split_and!.
  - eexists. vm_compute. reflexivity.
  - unfold spec_candidates. intros [[_ Hb] _]%list_elem_of_filter. simpl in Hb. lia.
  - vm_compute. reflexivity.
  - vm_compute. reflexivity.
Qed.

(** What [resolveConflicts] would do with a [time_overlap] conflict, were
    one ever flagged: for the pair (low-priority task 1, high-priority task
    2) the resolution delays task 2, the second of the pair, by 10 minutes
    and leaves task 1 alone. *)
Lemma resolve_delays_second_task_of_pair :
  let r := api_conflicts_resolve 1000 overlap_state in
  priority <$> tasks overlap_state !! 0%nat = Some "Low" ∧
  priority <$> tasks overlap_state !! 1%nat = Some "High" ∧
  r.2 = [mkResolution "delay" (Some 2) 600000] ∧
  delayedUntil <$> tasks r.1 !! 0%nat = Some None ∧
  delayedUntil <$> tasks r.1 !! 1%nat = Some (Some 601000) ∧
  conflicts r.1 = [] ∧ resolvedConflicts r.1 = 1.
Proof. vm_compute. split_and!; reflexivity. Qed.

(** The endpoint always clears the flagged set and adds the number of
    resolutions, one per [time_overlap] conflict, to the resolved count. *)
Lemma api_conflicts_resolve_clears clock s :
  let r := api_conflicts_resolve clock s in
  conflicts r.1 = [] ∧
  resolvedConflicts r.1 = resolvedConflicts s + Z.of_nat (length r.2) ∧
  length r.2 = length (filter (λ c, conflict_type c = "time_overlap") (conflicts s)) ∧
  Forall (λ x, delayTime x = 600000) r.2.
Proof.
  simpl. unfold resolveConflicts. split_and!; try done.
  - by rewrite length_fmap.
  - apply Forall_fmap, Forall_forall. intros c _. simpl. done.
Qed.

(** What [detectConflicts] flags is never of type [time_overlap], so the
    endpoint, run on a detected set, applies no resolution at all. *)
Lemma detected_conflicts_unresolved clock clock' s :
  (api_conflicts_resolve clock' (detectConflicts clock s)).2 = [].
Proof.
  simpl. unfold resolveConflicts.
  induction (filter _ (pairs _)) as [|p l IH]; csimpl; [done|].
  rewrite filter_cons_False; [exact IH|]. simpl. done.
Qed.



End EnhancedFacts.

(** ** Route finding between disconnected nodes, all strategies *)

Module RouteFacts.
Import Graph GraphFacts EnhancedSpec EnhancedFacts.

Lemma nodeGraph_1_10_disconnected : ¬ connected Coordinator.nodeGraph 1 10.
Proof.
  intros H.
  apply (connected_closed _ (list_to_set [1; 2; 3; 4; 5; 6; 7; 8; 9])) in H.
  - revert H. by_compute.
  - by_compute.
  - by_compute.
Qed.

Lemma nodeConnections_1_10_disconnected : ¬ connected Enhanced.nodeConnections 1 10.
Proof.
  intros H.
  apply (connected_closed _ (list_to_set [1; 2; 3; 4; 5; 6; 7; 8; 9])) in H.
  - revert H. by_compute.
  - by_compute.
  - by_compute.
Qed.

Lemma cut_grid_1_9_disconnected : ¬ connected cut_grid 1 9.
Proof.
  intros H.
  apply (connected_closed _ (list_to_set [1; 2; 3; 4; 5; 6; 7; 8])) in H.
  - revert H. by_compute.
  - by_compute.
  - by_compute.
Qed.

(** C4 (amended): for every adjacency table and every pair of nodes with no
    route from [start] to [end_], no strategy answers with a separate
    no-path outcome: the breadth-first [findPath] returns the two-node
    sequence [start, end_]; the A* search (which also serves the ACO
    strategy) returns the empty path when both nodes are on the coordinate
    grid and throws otherwise; Dijkstra with time windows returns the
    one-node sequence [end_]. *)
Theorem disconnected_route_outcomes g start end_ :
  ¬ connected g start end_ →
  Coordinator.findPath_on g start end_ = [start; end_] ∧
  (∀ avoid, is_Some (Enhanced.heuristic start end_) →
            Enhanced.aStarPathfinding_on g start end_ avoid = Enhanced.Val []) ∧
  (∀ avoid, Enhanced.heuristic start end_ = None →
            Enhanced.aStarPathfinding_on g start end_ avoid = Enhanced.TypeError) ∧
  (∀ tw slots, ∃ t, Enhanced.dijkstraWithTimeWindow_on g start end_ tw slots
                    = Enhanced.Val ([end_], t)).
Proof.
  intros Hnc. split_and!.
  - apply CoordinatorFacts.findPath_on_disconnected; [|done].
    intros ->. apply Hnc, rtc_refl.
  - intros avoid Hh. by apply aStarPathfinding_on_disconnected.
  - intros avoid Hh. unfold Enhanced.aStarPathfinding_on. by rewrite Hh.
  - intros tw slots. destruct (dijkstra_on_disconnected g start end_ tw slots Hnc) as (t & Ht & _).
    by exists t.
Qed.

(** Node 10 is not on the grid of the coordinator. *)
Lemma disconnected_route_outcomes_witness :
  Coordinator.findPath_on Coordinator.nodeGraph 1 10 = [1; 10].
Proof.
  destruct (disconnected_route_outcomes Coordinator.nodeGraph 1 10) as (H & _).
  - exact nodeGraph_1_10_disconnected.
  - exact H.
Defined.

(** C4, counterexample: for disconnected pairs [findPath] returns the
    sequence [1, 10], which is no walk of the graph, A* returns the empty
    path and Dijkstra returns [10]. *)
Lemma disconnected_pair_gets_a_path :
  (¬ connected Coordinator.nodeGraph 1 10 ∧
   Coordinator.findPath 1 10 = [1; 10] ∧ ¬ is_walk Coordinator.nodeGraph [1; 10]) ∧
  (¬ connected cut_grid 1 9 ∧
   Enhanced.aStarPathfinding_on cut_grid 1 9 [] = Enhanced.Val []) ∧
  (¬ connected Enhanced.nodeConnections 1 10 ∧
   Enhanced.dijkstraWithTimeWindow 1 10 0 ∅ = Enhanced.Val ([10], Enhanced.NaN)).
Proof.
  split_and!.
  - exact nodeGraph_1_10_disconnected.
  - vm_compute. reflexivity.
  - intros [He _]. revert He. unfold edge. by_compute.
  - exact cut_grid_1_9_disconnected.
  - vm_compute. reflexivity.
  - exact nodeConnections_1_10_disconnected.
  - vm_compute. reflexivity.
Qed.

(** An empty route makes [assignTaskToAGV] return [null] and leave the task
    as it was. *)
Lemma assignTaskToAGV_no_route clock agvs task sel :
  Enhanced.selectAGV agvs task = Enhanced.Val (Some sel) →
  Enhanced.plan_route clock sel task = Enhanced.Val [] →
  Enhanced.assignTaskToAGV clock agvs task = Enhanced.Val (task, None).
Proof. intros Hs Hr. unfold Enhanced.assignTaskToAGV. rewrite Hs, Hr. done. Qed.

End RouteFacts.

(** ** The breadth-first route is a shortest walk *)

Module SearchFacts.
Import Graph GraphFacts Coordinator CoordinatorSpec CoordinatorFacts SearchSpec
  GridSpec.

Lemma within_mono g start k k' v : (k ≤ k')%nat → within g start k v → within g start k' v.
Proof.
  induction 1 as [|k' _ IH]; [done|]. intros Hw. left. by apply IH.
Qed.

Lemma within_connected g start k v : within g start k v → connected g start v.
Proof.
  revert v. induction k as [|k IH]; simpl; intros v.
  - intros ->. apply rtc_refl.
  - intros [Hw|(u & Hu & He)]; [by apply IH|].
    eapply rtc_r; [by apply IH|done].
Qed.

Lemma connected_within g start v : connected g start v → ∃ k, within g start k v.
Proof.
  intros Hc. apply rtc_nsteps in Hc as [n Hn]. exists n.
  revert v Hn. induction n as [|n IH]; intros v Hn.
  - by inversion Hn.
  - apply nsteps_inv_r in Hn as (u & Hu & He).
    right. exists u. split; [by apply IH|done].
Qed.

Lemma is_walk_snoc_inv g q y x :
  is_walk g ((q ++ [y]) ++ [x]) → is_walk g (q ++ [y]) ∧ edge g y x.
Proof.
  induction q as [|a [|b q] IH]; simpl.
  - tauto.
  - tauto.
  - intros [Hab Hw]. apply IH in Hw. tauto.
Qed.

(** A walk of [k] edges from [start] ends within distance [k]. *)
Lemma walk_within g start : ∀ q v,
  is_walk g q → head q = Some start → last q = Some v → within g start (hops q) v.
Proof.
  intros q. induction q as [|x q IH] using rev_ind; intros v Hw Hh Hl; [done|].
  rewrite last_snoc in Hl. injection Hl as <-.
  destruct (decide (q = [])) as [->|Hq].
  - simpl in *. by injection Hh as ->.
  - apply exists_last in Hq as (q' & y & ->).
    apply is_walk_snoc_inv in Hw as [Hw He].
    replace (hops ((q' ++ [y]) ++ [x])) with (S (hops (q' ++ [y]))).
    2:{ unfold hops. rewrite !length_app. simpl. lia. }
    right. exists y. split; [|done].
    apply IH; [done| |apply last_snoc].
    destruct q'; simpl in *; done.
Qed.

Lemma hops_snoc p n : p ≠ [] → hops (p ++ [n]) = S (hops p).
Proof.
  intros Hp. unfold hops. rewrite length_app. simpl.
  destruct p; [done|]. simpl. lia.
Qed.

(** When the entries of [h] edges are used up, the next level starts. *)
Lemma bfs_level_next g start e h V q2 :
  bfs_level g start e h V [] q2 → bfs_level g start e (S h) V q2 [].
Proof.
  intros [Hw Hn Hf Hb Hfr Hc He]. simpl in *. split; simpl.
  - by rewrite app_nil_r.
  - done.
  - constructor.
  - intros k v Hk Hv. destruct (Hfr v) as [?|Hin]; [|done|by apply elem_of_nil in Hin].
    eapply within_mono; [|done]. lia.
  - intros v [Hv|(u & Hu & Huv)].
    + destruct (Hfr v Hv) as [?|Hin]; [by left|by apply elem_of_nil in Hin].
    + destruct (Hfr u Hu) as [HuV|Hin]; [|by apply elem_of_nil in Hin].
      by apply (Hc u v).
  - intros u w Hu Huw. rewrite app_nil_r. by apply (Hc u w).
  - done.
Qed.

(** With an empty queue every node in reach has been visited. *)
Lemma bfs_level_exhausted g start e h V :
  bfs_level g start e h V [] [] → ∀ k v, within g start k v → v ∈ V.
Proof.
  intros [Hw Hn Hf Hb Hfr Hc He]. simpl in *.
  assert (∀ v, within g start 0 v → v ∈ V) as H0.
  { intros v Hv. destruct (Hfr v) as [?|Hin]; [|done|by apply elem_of_nil in Hin].
    eapply within_mono; [|done]. lia. }
  induction k as [|k IH]; [done|]. intros v [Hv|(u & Hu & Huv)]; [by apply IH|].
  destruct (Hc u v) as [?|Hin]; [by apply IH|done|done|by apply elem_of_nil in Hin].
Qed.

(** What the loop answers, given the level invariant. *)
Lemma bfs_level_loop g start e fuel : ∀ h V q1 q2,
  bfs_level g start e h V q1 q2 →
  match findPath_loop fuel g e V (q1 ++ q2) with
  | Returned p => is_walk g p ∧ head p = Some start ∧ last p = Some e ∧
                  ∀ k, within g start k e → (hops p ≤ k)%nat
  | Exhausted => ∀ k, ¬ within g start k e
  | OutOfFuel => True
  end.
Proof.
  induction fuel as [|fuel IH]; intros h V q1 q2 Hinv; [done|].
  assert (∃ h' q1' q2', q1 ++ q2 = q1' ++ q2' ∧ bfs_level g start e h' V q1' q2' ∧
                        (q1' = [] → q2' = [])) as (h' & q1' & q2' & -> & Hinv' & Hne).
  { destruct q1 as [|e1 q1].
    - exists (S h), q2, []. split; [by rewrite app_nil_r|].
      split; [by apply bfs_level_next|done].
    - exists h, (e1 :: q1), q2. done. }
  clear Hinv h q1 q2. destruct q1' as [|[c p] q1].
  - rewrite Hne by done. simpl. rewrite Hne in Hinv' by done.
    intros k Hk. apply (lvl_end _ _ _ _ _ _ _ Hinv').
    by apply (bfs_level_exhausted _ _ _ _ _ Hinv' k).
  - clear Hne. destruct Hinv' as [Hw Hn Hf Hb Hfr Hc He].
    cbn [app findPath_loop]. simpl in Hw.
    apply Forall_cons in Hw as [(Hwp & Hhp & Hlp) Hw].
    apply Forall_cons in Hn as [Hhops Hn]. simpl in *.
    case_decide as Hce.
    + subst c. split_and!; try done. intros k Hk.
      destruct (decide (k < h')%nat) as [Hlt|]; [|lia].
      exfalso. apply He. by apply (Hb k).
    + case_decide as HcV.
      * apply (IH h'). split; try done.
        -- intros v Hv. destruct (Hfr v Hv) as [?|Hin]; [by left|].
           apply elem_of_cons in Hin as [->|Hin]; [by left|by right].
        -- intros u w Hu Huw. destruct (Hc u w Hu Huw) as [?|Hin]; [by left|].
           apply elem_of_cons in Hin as [->|Hin]; [by left|by right].
      * rewrite <- app_assoc. apply (IH h'). split.
        -- rewrite app_assoc. apply Forall_app. split; [done|].
           apply Forall_fmap, Forall_forall. intros n Hin. simpl.
           apply list_elem_of_filter in Hin as [_ Hin]. split_and!.
           ++ eapply is_walk_snoc; done.
           ++ rewrite head_snoc, Hhp. done.
           ++ apply last_snoc.
        -- done.
        -- apply Forall_app. split; [done|].
           apply Forall_fmap, Forall_forall. intros n Hin. simpl.
           rewrite hops_snoc; [by rewrite Hhops|]. by destruct p.
        -- intros k v Hk Hv. apply elem_of_union_l. by apply (Hb k).
        -- intros v Hv. destruct (Hfr v Hv) as [?|Hin]; [left; set_solver|].
           apply elem_of_cons in Hin as [->|Hin]; [left; set_solver|by right].
        -- intros u w [Hu|Hu%elem_of_singleton]%elem_of_union Huw.
           ++ destruct (Hc u w Hu Huw) as [?|Hin]; [left; set_solver|].
              apply elem_of_cons in Hin as [->|Hin]; [left; set_solver|].
              right. rewrite app_assoc, fmap_app. apply elem_of_app. by left.
           ++ subst u. destruct (decide (w ∈ V ∪ {[c]})) as [?|Hw']; [by left|].
              right. rewrite !fmap_app. apply elem_of_app. right. apply elem_of_app. right.
              rewrite <- list_fmap_compose. apply list_elem_of_fmap.
              exists w. split; [done|]. apply list_elem_of_filter. done.
        -- set_solver.
Qed.

Lemma bfs_level_init g start e :
  start ≠ e → bfs_level g start e 0 ∅ [(start, [start])] [].
Proof.
  intros Hne. split; simpl.
  - apply Forall_singleton. done.
  - apply Forall_singleton. done.
  - constructor.
  - intros; lia.
  - intros v ->. right. set_solver.
  - set_solver.
  - set_solver.
Qed.

(** The route of [findPath_on] when [start] and [end_] differ. *)
Lemma findPath_on_cases g start e :
  start ≠ e →
  (¬ connected g start e ∧ findPath_on g start e = [start; e]) ∨
  (let p := findPath_on g start e in
   is_walk g p ∧ head p = Some start ∧ last p = Some e ∧
   ∀ k, within g start k e → (hops p ≤ k)%nat).
Proof.
  intros Hne. unfold findPath_on. rewrite decide_False by done.
  pose proof (bfs_level_loop g start e (findPath_fuel g) 0 ∅ _ _ (bfs_level_init g start e Hne)) as H.
  pose proof (findPath_loop_terminates g e (findPath_fuel g) ∅ [(start, [start])]) as Ht.
  cbn [app] in H. destruct (findPath_loop _ _ _ _ _) as [p| |].
  - right. done.
  - left. split; [|done]. intros [k Hk]%connected_within. by apply (H k).
  - exfalso. apply Ht; [|done]. unfold findPath_fuel, total_degree. simpl. lia.
Qed.

(** X1: Whenever the destination can be reached, [findPath] answers with a
    walk of the graph from [start] to [end_]. *)
Theorem findPath_on_walk g start end_ :
  connected g start end_ →
  let p := findPath_on g start end_ in
  is_walk g p ∧ head p = Some start ∧ last p = Some end_.
Proof.
  intros Hc. destruct (decide (start = end_)) as [->|Hne].
  - unfold findPath_on. rewrite decide_True by done. done.
  - destruct (findPath_on_cases g start end_ Hne) as [[Hn _]|H]; [done|].
    simpl in *. tauto.
Qed.

(** Node 9 can be reached from node 1, so the route from 1 to 9 is a walk
    between them. *)
Lemma findPath_on_walk_witness :
  connected nodeGraph 1 9 ∧
  is_walk nodeGraph (findPath 1 9) ∧ head (findPath 1 9) = Some 1 ∧
  last (findPath 1 9) = Some 9.
Proof.
  assert (connected nodeGraph 1 9) as H.
  { apply (is_walk_connected nodeGraph [1; 2; 5; 8; 9]); [by_compute|done..]. }
  split; [exact H|]. exact (findPath_on_walk nodeGraph 1 9 H).
Defined.

(** X2: No walk from [start] to [end_] is shorter than the route of
    [findPath]. *)
Theorem findPath_on_shortest g start end_ q :
  is_walk g q → head q = Some start → last q = Some end_ →
  (length (findPath_on g start end_) ≤ length q)%nat.
Proof.
  intros Hw Hh Hl. destruct (decide (start = end_)) as [->|Hne].
  - unfold findPath_on. rewrite decide_True by done. destruct q; simpl in *; [done|lia].
  - destruct (findPath_on_cases g start end_ Hne) as [[Hn _]|H].
    + exfalso. apply Hn. by eapply is_walk_connected.
    + simpl in H. destruct H as (_ & Hhp & _ & Hmin).
      specialize (Hmin _ (walk_within g start q end_ Hw Hh Hl)).
      unfold hops in Hmin. destruct (findPath_on g start end_); [done|].
      destruct q; [done|]. simpl in *. lia.
Qed.

(** The walk 1-4-7-8-9 is not shorter than the route from 1 to 9. *)
Lemma findPath_on_shortest_witness :
  is_walk nodeGraph [1; 4; 7; 8; 9] ∧
  (length (findPath 1 9) ≤ 5)%nat.
Proof.
  assert (is_walk nodeGraph [1; 4; 7; 8; 9]) as H by by_compute.
  split; [exact H|].
  exact (findPath_on_shortest nodeGraph 1 9 [1; 4; 7; 8; 9] H eq_refl eq_refl).
Defined.

End SearchFacts.

(** ** Properties of the fleet that every operation keeps *)

Module FleetFacts.
Import Graph GraphFacts Coordinator CoordinatorSpec TableFacts CoordinatorFacts
  Scenarios.

Section FleetInvariant.

(** A property of a vehicle record that neither a change of position or
    status nor a battery update of the movement or charging code breaks. *)
Variable P : AGV → Prop.
Hypothesis P_position : ∀ p a, P a → P (set_position p a).
Hypothesis P_status : ∀ st a, P a → P (set_status st a).
Hypothesis P_drain : ∀ d a, d = 1 ∨ d = 3 → P a →
  P (set_battery (Z.max 10 (battery a - d)) a).
Hypothesis P_charge : ∀ a, battery a < MAX_BATTERY → P a →
  P (set_battery (Z.min MAX_BATTERY (battery a + CHARGING_RATE)) a).

Lemma Forall_alter_agv f i l :
  Forall P l → (∀ a, find_agv i l = Some a → P a → P (f a)) → Forall P (alter_agv f i l).
Proof.
  induction l as [|b l IH]; simpl; intros Hl Hf; [done|].
  apply Forall_cons in Hl as [Hb Hl]. case_decide.
  - constructor; [by apply Hf|done].
  - constructor; [done|]. by apply IH.
Qed.

Lemma startCharging_fleet i s : Forall P (agvs s) → Forall P (agvs (startCharging i s)).
Proof.
  intros H. unfold startCharging. destruct (find_agv i (agvs s)); [|done].
  case_decide; [|done]. simpl. apply Forall_alter_agv; [done|]. intros. by apply P_status.
Qed.

Lemma chargingCycle_fleet i s : Forall P (agvs s) → Forall P (agvs (chargingCycle i s)).
Proof.
  intros H. unfold chargingCycle. destruct (find_agv i (agvs s)) as [a|] eqn:Ha; [|done].
  case_decide; simpl.
  - apply Forall_alter_agv; [done|]. intros a' Ha' HP. simplify_eq. by apply P_charge.
  - apply Forall_alter_agv; [done|]. intros. by apply P_status.
Qed.

Lemma simulateAGVMovement_fleet i route log ch s :
  Forall P (agvs s) → Forall P (agvs (simulateAGVMovement i route log ch s)).
Proof.
  intros H. unfold simulateAGVMovement. case_decide; [done|]. simpl.
  destruct (find_agv i (agvs s)); [|done]. simpl.
  apply Forall_alter_agv; [done|]. intros. by apply P_position, P_status.
Qed.

Lemma completeAGVTask_fleet i pos log ch s :
  Forall P (agvs s) → Forall P (agvs (completeAGVTask i pos log ch s)).
Proof.
  intros H. unfold completeAGVTask. destruct (find_agv i (agvs s)); [|done]. simpl.
  assert (Forall P (alter_agv (set_position pos) i (agvs s))) as H1.
  { apply Forall_alter_agv; [done|]. intros. by apply P_position. }
  destruct (ch && _).
  - by apply startCharging_fleet.
  - assert (Forall P (alter_agv (set_status idle) i (alter_agv (set_position pos) i (agvs s)))).
    { apply Forall_alter_agv; [done|]. intros. by apply P_status. }
    by destruct (needsCharging _ && _).
Qed.

Lemma plan_entry_fleet acc e : Forall P (agvs acc.1) → Forall P (agvs (plan_entry acc e).1).
Proof.
  destruct acc as [s moves], e as [i md]. simpl. intros H. case_decide.
  - simpl. destruct (find_agv i (agvs s)); [|done]. by apply completeAGVTask_fleet.
  - case_decide; done.
Qed.

Lemma plan_fleet s : Forall P (agvs s) → Forall P (agvs (plan s).1).
Proof.
  intros H. unfold plan.
  assert (∀ q acc, Forall P (agvs acc.1) → Forall P (agvs (foldl plan_entry acc q).1)) as Hq.
  { induction q as [|e q IH]; intros acc Hacc; [done|]. cbn [foldl].
    by apply IH, plan_entry_fleet. }
  by apply Hq.
Qed.

Lemma execute_movement_fleet s m : Forall P (agvs s) → Forall P (agvs (execute_movement s m)).
Proof.
  intros H. unfold execute_movement.
  destruct (find_agv (mv_agvId m) (agvs s)) as [a|] eqn:Ha; [|done].
  assert (Forall P (alter_agv
            (λ a0, set_battery (if negb (mv_isChargingTask m) then Z.max 10 (battery a - 3)
                                else Z.max 10 (battery a - 1))
                     (set_position (mv_to m) a0)) (mv_agvId m) (agvs s))) as H1.
  { apply Forall_alter_agv; [done|]. intros a' Ha' HP. simplify_eq.
    destruct (mv_isChargingTask m); simpl.
    - apply (P_drain 1 (set_position (mv_to m) a)); [by left|by apply P_position].
    - apply (P_drain 3 (set_position (mv_to m) a)); [by right|by apply P_position]. }
  simpl. by destruct (mq_get _ _).
Qed.

Lemma tick_fleet s :
  Forall P (agvs s) → Forall P (agvs (coordinateSimultaneousMovement s)).
Proof.
  intros H. rewrite tick_unfold.
  destruct (report_fold_frame (plan s).2
              (movementQueue (foldl execute_movement (plan s).1 (plan s).2))
              (foldl execute_movement (plan s).1 (plan s).2)) as (-> & _).
  assert (∀ ms s0, Forall P (agvs s0) → Forall P (agvs (foldl execute_movement s0 ms))) as Hm.
  { induction ms as [|m ms IH]; intros s0 H0; [done|]. simpl.
    by apply IH, execute_movement_fleet. }
  by apply Hm, plan_fleet.
Qed.

Lemma createChargingTask_fleet clk i s :
  Forall P (agvs s) → Forall P (agvs (createChargingTask clk i s)).
Proof.
  intros H. unfold createChargingTask. destruct (find_agv i (agvs s)); [|done].
  case_decide; [done|]. case_decide; [by apply startCharging_fleet|].
  simpl. apply simulateAGVMovement_fleet. simpl.
  apply Forall_alter_agv; [done|]. intros. by apply P_status.
Qed.

Lemma createTaskInternal_fleet clk payload start end_ w prio auto s :
  Forall P (agvs s) →
  Forall P (agvs (createTaskInternal clk payload start end_ w prio auto s).1).
Proof.
  intros H. unfold createTaskInternal. destruct (filter _ (agvs s)) as [|first others].
  - simpl. generalize (filter (λ a, status a = idle ∧ needsCharging a = true) (agvs s)).
    intros l. revert s H. induction l as [|a l IH]; intros s H; [done|]. simpl.
    by apply IH, createChargingTask_fleet.
  - simpl. apply simulateAGVMovement_fleet. simpl.
    apply Forall_alter_agv; [done|]. intros. by apply P_position, P_status.
Qed.

Lemma api_tasks_create_fleet clk payload req s :
  Forall P (agvs s) → Forall P (agvs (api_tasks_create clk payload req s).1).
Proof.
  intros H. destruct (api_tasks_create_cases clk payload req s)
    as [->|(a & b & w & _ & _ & _ & _ & _ & ->)]; [done|].
  by apply createTaskInternal_fleet.
Qed.

Lemma step_fleet s op : Forall P (agvs s) → Forall P (agvs (step s op)).
Proof.
  intros H. destruct op as [| | |clk payload req|clk taskId|clk d|clk d|clk t]; simpl.
  - done.
  - apply Forall_fmap. eapply Forall_impl; [done|]. intros a Ha. by apply P_status.
  - destruct (movementInterval s); [by apply tick_fleet|done].
  - by apply api_tasks_create_fleet.
  - unfold api_tasks_complete. destruct (list_find _ _) as [[k task]|]; [|done]. simpl.
    apply Forall_alter_agv; [done|]. intros. by apply P_position, P_status.
  - unfold generateAutoTask. destruct (negb _); [done|]. destruct (redraw _ _); [|done].
    by apply createTaskInternal_fleet.
  - unfold autoTaskInterval. destruct (_ && _); [|done]. destruct (redraw _ _); [|done].
    destruct (getAvailableAGV s); [|done]. simpl.
    apply Forall_alter_agv; [done|]. intros. by apply P_position, P_status.
  - unfold fire. case_decide; [|done]. destruct t as [i|i|k i dest].
    + by apply chargingCycle_fleet.
    + by apply createChargingTask_fleet.
    + simpl. assert (Forall P (alter_agv (λ a, set_position dest (set_status idle a)) i (agvs s))).
      { apply Forall_alter_agv; [done|]. intros. by apply P_position, P_status. }
      by destruct (_ !! k).
Qed.

Lemma run_fleet ops : ∀ s, Forall P (agvs s) → Forall P (agvs (run s ops)).
Proof.
  induction ops as [|op ops IH]; intros s H; [done|]. simpl. by apply IH, step_fleet.
Qed.

End FleetInvariant.

(** X3: Whatever requests, ticks and timers follow the start of the server,
    every vehicle's battery stays between 10 and 100. *)
Theorem reachable_battery_bounds ops a :
  a ∈ agvs (run initialState ops) → 10 ≤ battery a ≤ MAX_BATTERY.
Proof.
  revert a. apply Forall_forall.
  apply (run_fleet (λ a, 10 ≤ battery a ≤ MAX_BATTERY)); unfold MAX_BATTERY, CHARGING_RATE; simpl.
  - done.
  - done.
  - intros; lia.
  - intros; lia.
  - repeat constructor; simpl; lia.
Qed.

(** After one step of a transport route AGV1 has 97 points. *)
Lemma reachable_battery_bounds_witness :
  mkAGV "AGV1" 2 97 busy "A*" ∈ agvs (run initialState first_step) ∧
  10 ≤ battery (mkAGV "AGV1" 2 97 busy "A*") ≤ MAX_BATTERY.
Proof.
  assert (mkAGV "AGV1" 2 97 busy "A*" ∈ agvs (run initialState first_step)) as H.
  { vm_compute. apply list_elem_of_here. }
  split; [exact H|]. exact (reachable_battery_bounds first_step _ H).
Defined.

End FleetFacts.

(** ** Everything stays on the grid *)

Module GridFacts.
Import Graph GraphFacts Coordinator CoordinatorSpec TableFacts CoordinatorFacts
  FleetFacts GridSpec Scenarios.

(** Between two different nodes of the grid [findPath] always finds a
    proper route. *)
Lemma findPath_good a b : on_grid a → on_grid b → a ≠ b → good_route (findPath a b).
Proof.
  assert (Forall (λ a, Forall (λ b, a ≠ b → good_route (findPath a b))
                         [1; 2; 3; 4; 5; 6; 7; 8; 9]) [1; 2; 3; 4; 5; 6; 7; 8; 9]) as H
    by by_compute.
  intros Ha Hb. rewrite Forall_forall in H. specialize (H a).
  rewrite Forall_forall in H. apply H.
  - unfold on_grid in Ha. assert (a = 1 ∨ a = 2 ∨ a = 3 ∨ a = 4 ∨ a = 5 ∨ a = 6 ∨ a = 7 ∨ a = 8 ∨ a = 9) by lia.
    set_solver.
  - unfold on_grid in Hb. assert (b = 1 ∨ b = 2 ∨ b = 3 ∨ b = 4 ∨ b = 5 ∨ b = 6 ∨ b = 7 ∨ b = 8 ∨ b = 9) by lia.
    set_solver.
Qed.

Lemma Forall_mq_set (Q : string * MovementData → Prop) i d q :
  Forall Q q → (∀ k, Q (k, d)) → Forall Q (mq_set i d q).
Proof.
  induction q as [|[k d'] q IH]; simpl; intros Hq Hd.
  - by apply Forall_singleton.
  - apply Forall_cons in Hq as [? ?]. case_decide; constructor; auto.
Qed.

Lemma Forall_mq_delete (Q : string * MovementData → Prop) i q :
  Forall Q q → Forall Q (mq_delete i q).
Proof.
  induction q as [|[k d'] q IH]; simpl; intros Hq; [done|].
  apply Forall_cons in Hq as [? ?]. case_decide; [done|]. constructor; auto.
Qed.

Lemma Forall_clear_timer (Q : Timer → Prop) t l : Forall Q l → Forall Q (clear_timer t l).
Proof.
  induction l as [|t' l IH]; simpl; intros Hl; [done|].
  apply Forall_cons in Hl as [? ?]. case_decide; [done|]. constructor; auto.
Qed.

Lemma Forall_alter_task (Q : Task → Prop) f i l :
  Forall Q l → (∀ x, Q x → Q (f x)) → Forall Q (alter_task f i l).
Proof.
  induction l as [|x l IH]; simpl; intros Hl Hf; [done|].
  apply Forall_cons in Hl as [? ?]. case_decide; constructor; auto.
Qed.

Lemma good_route_last p : good_route p → on_grid (at_index p (length p - 1)).
Proof.
  intros (Hlen & Hg & _). unfold at_index.
  destruct (p !! (length p - 1)%nat) as [n|] eqn:Hn; simpl.
  - rewrite Forall_forall in Hg. apply Hg. by eapply list_elem_of_lookup_2.
  - apply lookup_ge_None in Hn. lia.
Qed.

Lemma good_route_at p k : good_route p → (k < length p)%nat → on_grid (at_index p k).
Proof.
  intros (Hlen & Hg & _) Hk. unfold at_index.
  destruct (p !! k) as [n|] eqn:Hn; simpl.
  - rewrite Forall_forall in Hg. apply Hg. by eapply list_elem_of_lookup_2.
  - apply lookup_ge_None in Hn. lia.
Qed.

Lemma redraw_Some start ends e : redraw start ends = Some e → e ∈ ends ∧ e ≠ start.
Proof.
  induction ends as [|d ds IH]; simpl; [done|]. case_decide.
  - intros [? ?]%IH. split; [by right|done].
  - intros [= ->]. split; [left|done].
Qed.

Lemma startCharging_grid i s : grid_inv s → grid_inv (startCharging i s).
Proof.
  intros [Hp Ht Hm Hr]. unfold startCharging. destruct (find_agv i (agvs s)); [|done].
  case_decide; [|done]. split; simpl; try done.
  - apply Forall_alter_agv; done.
  - apply Forall_app. split; [done|]. by apply Forall_singleton.
Qed.

Lemma chargingCycle_grid i s : grid_inv s → grid_inv (chargingCycle i s).
Proof.
  intros [Hp Ht Hm Hr]. unfold chargingCycle. destruct (find_agv i (agvs s)); [|done].
  case_decide; split; simpl; try done.
  - apply Forall_alter_agv; done.
  - apply Forall_alter_agv; done.
  - by apply Forall_clear_timer.
Qed.

Lemma simulateAGVMovement_grid i route log ch s :
  (length route ≤ 1)%nat ∨ good_route route →
  grid_inv s → grid_inv (simulateAGVMovement i route log ch s).
Proof.
  intros Hroute [Hp Ht Hm Hr]. unfold simulateAGVMovement. case_decide as Hlen; [done|].
  destruct Hroute as [?|Hroute]; [lia|].
  assert (Forall (λ e : string * MovementData, good_route (path e.2))
            (mq_set i (mkMovementData route 0 log ch) (movementQueue s))) as Hq.
  { apply Forall_mq_set; [done|]. intros k. done. }
  simpl. destruct (find_agv i (agvs s)); split; simpl; try done.
  apply Forall_alter_agv; [done|]. intros a' _ _. simpl.
  apply good_route_at; [done|lia].
Qed.

Lemma completeAGVTask_grid i pos log ch s :
  on_grid pos → grid_inv s → grid_inv (completeAGVTask i pos log ch s).
Proof.
  intros Hpos [Hp Ht Hm Hr]. unfold completeAGVTask.
  destruct (find_agv i (agvs s)); [|done].
  assert (Forall (λ a, on_grid (position a)) (alter_agv (set_position pos) i (agvs s))) as H1.
  { apply Forall_alter_agv; done. }
  destruct (ch && _).
  - destruct (startCharging_grid i (with_agvs (alter_agv (set_position pos) i) s)) as [? ? ? ?];
      [by split|]. split; done.
  - assert (Forall (λ a, on_grid (position a))
              (alter_agv (set_status idle) i (alter_agv (set_position pos) i (agvs s)))).
    { apply Forall_alter_agv; done. }
    destruct (needsCharging _ && _); split; simpl; try done.
    apply Forall_app. split; [done|]. by apply Forall_singleton.
Qed.

Lemma plan_entry_grid acc e :
  good_route (path e.2) → grid_inv acc.1 → grid_inv (plan_entry acc e).1.
Proof.
  destruct acc as [s moves], e as [i md]. simpl. intros Hgood H. case_decide.
  - simpl.
    assert (∀ s', grid_inv s' → grid_inv (with_movementQueue (mq_delete i) s')) as Hd.
    { intros s' [? ? ? ?]. split; simpl; try done. by apply Forall_mq_delete. }
    apply Hd. destruct (find_agv i (agvs s)) eqn:Hf; [|done].
    apply completeAGVTask_grid; [|done]. by apply good_route_last.
  - case_decide; [|done]. destruct H as [? ? ? ?]. split; done.
Qed.

Lemma plan_fold_grid q : ∀ acc,
  Forall (λ e : string * MovementData, good_route (path e.2)) q →
  grid_inv acc.1 → grid_inv (foldl plan_entry acc q).1.
Proof.
  induction q as [|e q IH]; intros acc Hq Hacc; [done|]. cbn [foldl].
  apply Forall_cons in Hq as [He Hq]. by apply IH, plan_entry_grid.
Qed.

Lemma plan_grid s : grid_inv s → grid_inv (plan s).1.
Proof.
  intros H. unfold plan. apply plan_fold_grid; [by destruct H|].
  destruct H as [? ? ? ?]. split; done.
Qed.

Lemma execute_movement_grid s m :
  on_grid (mv_to m) → grid_inv s → grid_inv (execute_movement s m).
Proof.
  intros Hto [Hp Ht Hm Hr]. unfold execute_movement.
  destruct (find_agv (mv_agvId m) (agvs s)) as [a|] eqn:Ha; [|done]. cbv zeta.
  match goal with |- context [alter_agv ?f _] =>
    assert (Forall (λ a, on_grid (position a)) (alter_agv f (mv_agvId m) (agvs s))) as H1
  end.
  { apply Forall_alter_agv; done. }
  simpl. destruct (mq_get _ _) as [md|] eqn:Hmd; split; simpl; try done.
  apply Forall_mq_set; [done|]. intros k. simpl.
  apply mq_get_Some in Hmd. rewrite Forall_forall in Hr. by apply (Hr _ Hmd).
Qed.

Lemma execute_fold_grid ms : ∀ s,
  Forall (λ m, on_grid (mv_to m)) ms → grid_inv s → grid_inv (foldl execute_movement s ms).
Proof.
  induction ms as [|m ms IH]; intros s Hms Hs; [done|]. simpl.
  apply Forall_cons in Hms as [? ?]. by apply IH, execute_movement_grid.
Qed.

Lemma tick_grid s : grid_inv s → grid_inv (coordinateSimultaneousMovement s).
Proof.
  intros H. rewrite tick_unfold.
  set (s2 := foldl execute_movement (plan s).1 (plan s).2).
  assert (grid_inv s2) as [? ? ? ?].
  { apply execute_fold_grid; [|by apply plan_grid].
    rewrite plan_moves. apply Forall_forall. intros m Hin.
    apply admitted_elem_of in Hin as (i & md & Hin & Hpend & -> & _). simpl.
    destruct H as [_ _ _ Hr]. rewrite Forall_forall in Hr.
    apply good_route_at; [by apply (Hr _ Hin)|]. unfold pending in Hpend. lia. }
  destruct (report_fold_frame (plan s).2 (movementQueue s2) s2)
    as (Ha & Hq & _ & _ & Ht & Htm & _).
  split; congruence.
Qed.

Lemma createChargingTask_grid clk i s : grid_inv s → grid_inv (createChargingTask clk i s).
Proof.
  intros H. unfold createChargingTask. destruct (find_agv i (agvs s)) as [a|] eqn:Ha; [|done].
  case_decide; [done|]. case_decide as Hpos; [by apply startCharging_grid|].
  assert (on_grid (position a)) as Hg.
  { destruct H as [Hp _ _ _]. rewrite Forall_forall in Hp.
    apply Hp. by apply find_agv_Some in Ha as [? _]. }
  assert (∀ e s', grid_inv s' → grid_inv (broadcast e s')) as Hb.
  { intros e s' [? ? ? ?]. split; done. }
  apply Hb, simulateAGVMovement_grid.
  - right. apply findPath_good; [done|unfold on_grid, CHARGING_NODE; lia|done].
  - destruct H as [Hp Ht Hm Hr]. split; simpl; try done.
    + apply Forall_alter_agv; done.
    + apply Forall_app. split; [done|]. apply Forall_singleton.
      split_and!; simpl; [done|unfold on_grid, CHARGING_NODE; lia|done].
Qed.

Lemma createTaskInternal_grid clk payload start end_ w prio auto s :
  on_grid start → on_grid end_ → start ≠ end_ →
  grid_inv s → grid_inv (createTaskInternal clk payload start end_ w prio auto s).1.
Proof.
  intros Hs He Hne H. unfold createTaskInternal.
  destruct (filter _ (agvs s)) as [|first others].
  - simpl. generalize (filter (λ a, status a = idle ∧ needsCharging a = true) (agvs s)).
    intros l. revert s H. induction l as [|a l IH]; intros s H; [done|]. simpl.
    by apply IH, createChargingTask_grid.
  - cbn [fst].
    assert (∀ e s', grid_inv s' → grid_inv (broadcast e s')) as Hb.
    { intros e s' [? ? ? ?]. split; done. }
    apply Hb, simulateAGVMovement_grid; [right; by apply findPath_good|].
    destruct H as [Hp Ht Hm Hr]. split; simpl; try done.
    + apply Forall_alter_agv; done.
    + apply Forall_app. split; [done|]. apply Forall_singleton. done.
Qed.

Lemma api_tasks_create_grid clk payload req s :
  integer_request req → grid_inv s → grid_inv (api_tasks_create clk payload req s).1.
Proof.
  intros (a & b & Ha & Hpa & Hb & Hpb & Hsame & _) H.
  destruct (api_tasks_create_cases clk payload req s)
    as [->|(a' & b' & w & Hpa' & Hpb' & _ & Hs & (H1 & H2 & H3 & H4) & ->)]; [done|].
  rewrite Hpa in Hpa'. rewrite Hpb in Hpb'. simplify_eq.
  rewrite Ha in H1, H2. rewrite Hb in H3, H4. simpl in H1, H2, H3, H4.
  apply bool_decide_eq_false in H1, H2, H3, H4.
  rewrite <- Z2Qc_inj_lt in H1, H2, H3, H4.
  apply createTaskInternal_grid; unfold on_grid; try done; try lia.
  intros ->. rewrite Hsame in Hs; done.
Qed.

Lemma step_grid s op : valid_op op → grid_inv s → grid_inv (step s op).
Proof.
  intros Hop H.
  assert (∀ e s', grid_inv s' → grid_inv (broadcast e s')) as Hb.
  { intros e s' [? ? ? ?]. split; done. }
  destruct op as [| | |clk payload req|clk taskId|clk d|clk d|clk t]; simpl.
  - destruct H as [? ? ? ?]. split; done.
  - destruct H as [? ? ? ?]. split; simpl; try done.
    apply Forall_fmap. eapply Forall_impl; [done|]. done.
  - destruct (movementInterval s); [by apply tick_grid|done].
  - by apply api_tasks_create_grid.
  - unfold api_tasks_complete.
    destruct (list_find _ _) as [[k task]|] eqn:Hfind; [|done]. simpl.
    apply list_find_Some in Hfind as (Hk & _ & _).
    destruct H as [Hp Ht Hm Hr].
    assert (good_task task) as (_ & Hend & _).
    { rewrite Forall_forall in Ht. apply Ht. by eapply list_elem_of_lookup_2. }
    split; simpl; try done.
    + apply Forall_alter_agv; done.
    + apply Forall_alter_task; done.
  - unfold generateAutoTask. destruct (negb _); [done|].
    destruct (redraw _ _) as [e|] eqn:Hre; [|done].
    apply redraw_Some in Hre as [Hin Hne]. destruct Hop as [Hs He].
    rewrite Forall_forall in He. apply createTaskInternal_grid; auto.
  - unfold autoTaskInterval. destruct (_ && _); [|done].
    destruct (redraw _ _) as [e|] eqn:Hre; [|done].
    apply redraw_Some in Hre as [Hin Hne]. destruct Hop as [Hs He].
    rewrite Forall_forall in He.
    destruct (getAvailableAGV s); [|done].
    destruct H as [Hp Ht Hm Hr]. split; simpl; try done.
    + apply Forall_alter_agv; done.
    + apply Forall_app. split; [done|]. apply Forall_singleton. split_and!; simpl; auto.
    + apply Forall_app. split; [done|]. apply Forall_singleton. simpl. auto.
  - unfold fire. case_decide as Hin; [|done]. destruct t as [i|i|k i dest].
    + by apply chargingCycle_grid.
    + apply createChargingTask_grid. destruct H as [? ? ? ?]. split; simpl; try done.
      by apply Forall_clear_timer.
    + destruct H as [Hp Ht Hm Hr].
      assert (on_grid dest) as Hdest.
      { rewrite Forall_forall in Hm. apply (Hm _ Hin). }
      match goal with |- grid_inv (match ?x with _ => _ end) =>
        assert (grid_inv (with_agvs (alter_agv (λ a, set_position dest (set_status idle a)) i)
                  (with_tasks (alter (complete_task (now clk)) k)
                     (with_timers (clear_timer (AutoCompleteTimeout k i dest)) s)))) as Hs3
      end.
      { split; simpl.
        - apply Forall_alter_agv; done.
        - apply Forall_forall. intros x Hx.
          apply list_elem_of_lookup in Hx as [j Hj].
          rewrite Forall_forall in Ht.
          destruct (decide (j = k)) as [->|Hjk].
          + rewrite list_lookup_alter_eq in Hj.
            destruct (tasks s !! k) as [y|] eqn:Hy; [|done]. injection Hj as <-.
            apply (Ht y). by eapply list_elem_of_lookup_2.
          + rewrite list_lookup_alter_ne in Hj by done.
            apply (Ht x). by eapply list_elem_of_lookup_2.
        - by apply Forall_clear_timer.
        - done. }
      destruct (_ !! k); [|done]. apply Hb. destruct Hs3 as [? ? ? ?]. split; done.
Qed.

Lemma run_grid ops : ∀ s, Forall valid_op ops → grid_inv s → grid_inv (run s ops).
Proof.
  induction ops as [|op ops IH]; intros s Hops H; [done|]. simpl.
  apply Forall_cons in Hops as [? ?]. by apply IH, step_grid.
Qed.

Lemma initialState_grid : grid_inv initialState.
Proof. split; simpl; repeat constructor; unfold on_grid; simpl; lia. Qed.

(** X4: Every route the server queues has at least two nodes, stays on the
    grid and follows edges of [nodeGraph], whatever start, stop and
    completion requests, ticks, timers, generator runs (with draws between 1
    and 9) and creation requests came before, as long as every creation
    request carries integer-valued nodes that are [===] when they are the
    same node, and a weight [parseInt] reads. *)
Theorem reachable_routes_are_walks ops i md :
  Forall valid_op ops →
  (i, md) ∈ movementQueue (run initialState ops) →
  (2 ≤ length (path md))%nat ∧ Forall on_grid (path md) ∧ is_walk nodeGraph (path md).
Proof.
  intros Hops Hin.
  destruct (run_grid ops initialState Hops initialState_grid) as [_ _ _ Hr].
  rewrite Forall_forall in Hr. apply (Hr _ Hin).
Qed.

Lemma request_integer a b : integer_request (request a b).
Proof.
  exists a, b. unfold request. simpl. split_and!; try done.
  intros ->. by rewrite bool_decide_eq_true.
Qed.

Lemma generated_valid : Forall valid_op generated.
Proof.
  unfold generated. repeat apply Forall_cons_2; try done.
  - split; [unfold on_grid; simpl; lia|]. repeat constructor; unfold on_grid; lia.
  - apply request_integer.
Qed.

(** The route queued for the generated task from 1 to 3. *)
Lemma reachable_routes_are_walks_witness :
  (2 ≤ length [1; 2; 3])%nat ∧ Forall on_grid [1; 2; 3] ∧ is_walk nodeGraph [1; 2; 3].
Proof.
  apply (reachable_routes_are_walks generated "AGV1"
           (mkMovementData [1; 2; 3] 0 (mkLog "1" 1 3 "12:00:00" 20 (Some 41)) false)).
  - exact generated_valid.
  - vm_compute. apply list_elem_of_here.
Defined.

(** X5: Every vehicle stands on a node of the grid, whatever start, stop and
    completion requests, ticks, timers, generator runs (with draws between 1
    and 9) and creation requests follow the start of the server, as long as
    every creation request carries integer-valued nodes that are [===] when
    they are the same node, and a weight [parseInt] reads. *)
Theorem reachable_positions_on_grid ops a :
  Forall valid_op ops → a ∈ agvs (run initialState ops) → on_grid (position a).
Proof.
  intros Hops Hin.
  destruct (run_grid ops initialState Hops initialState_grid) as [Hp _ _ _].
  rewrite Forall_forall in Hp. by apply Hp.
Qed.

(** AGV1 after the generated task has been assigned to it. *)
Lemma reachable_positions_on_grid_witness :
  on_grid (position (mkAGV "AGV1" 1 100 busy "A*")).
Proof.
  apply (reachable_positions_on_grid generated).
  - exact generated_valid.
  - vm_compute. apply list_elem_of_here.
Defined.

(** X6: Every task of the task list, transport or charging, has a start and
    an end node on the grid that differ, whatever start, stop and completion
    requests, ticks, timers, generator runs (with draws between 1 and 9) and
    creation requests follow the start of the server, as long as every
    creation request carries integer-valued nodes that are [===] when they
    are the same node, and a weight [parseInt] reads. *)
Theorem reachable_tasks_well_formed ops t :
  Forall valid_op ops → t ∈ tasks (run initialState ops) →
  on_grid (startNode t) ∧ on_grid (endNode t) ∧ startNode t ≠ endNode t.
Proof.
  intros Hops Hin.
  destruct (run_grid ops initialState Hops initialState_grid) as [_ Ht _ _].
  rewrite Forall_forall in Ht. by apply Ht.
Qed.

(** The task the generator has created. *)
Lemma reachable_tasks_well_formed_witness :
  ∃ t, t ∈ tasks (run initialState generated) ∧
       on_grid (startNode t) ∧ on_grid (endNode t) ∧ startNode t ≠ endNode t.
Proof.
  exists (mkTask (now (at_ms 100)) 1 3 20 (Some "high") "AGV1" 41
            (mkLog "1" 1 3 "12:00:00" 20 (Some 41)) task_executing
            (now (at_ms 100)) None true false).
  assert (mkTask (now (at_ms 100)) 1 3 20 (Some "high") "AGV1" 41
            (mkLog "1" 1 3 "12:00:00" 20 (Some 41)) task_executing
            (now (at_ms 100)) None true false ∈ tasks (run initialState generated)) as H.
  { vm_compute. apply list_elem_of_here. }
  split; [exact H|].
  exact (reachable_tasks_well_formed generated _ generated_valid H).
Defined.

End GridFacts.

(** ** Single ticks: steps along edges, standstill, bookkeeping *)

Module TickFacts.
Import Graph GraphFacts Coordinator CoordinatorSpec TableFacts CoordinatorFacts
  FleetFacts GridSpec GridFacts TickSpec Scenarios.

Lemma is_walk_lookup g p k x y :
  is_walk g p → p !! k = Some x → p !! S k = Some y → edge g x y.
Proof.
  revert k. induction p as [|a [|b q] IH]; intros k Hw Hx Hy; [done|..].
  - destruct k; done.
  - destruct Hw as [Hab Hw]. destruct k as [|k].
    + simpl in *. by simplify_eq.
    + by apply (IH k).
Qed.

(** X7: When the bookkeeping invariant holds and the queued routes are walks,
    a tick leaves every vehicle where it is or moves it along one edge. *)
Theorem tick_moves_along_edges s i a a' :
  coordinator_inv s →
  (∀ j md, mq_get j (movementQueue s) = Some md → is_walk nodeGraph (path md)) →
  find_agv i (agvs s) = Some a →
  find_agv i (agvs (coordinateSimultaneousMovement s)) = Some a' →
  position a' = position a ∨ edge nodeGraph (position a) (position a').
Proof.
  intros Hinv Hwalks Ha Ha'.
  pose proof (inv_keys s Hinv) as Hk.
  destruct (mq_get i (movementQueue s)) as [md|] eqn:Hmd.
  - destruct (inv_queue s Hinv i md Hmd) as (a0 & Ha0 & Hidx & Hat). simplify_eq.
    destruct (tick_vehicle s i md Hk Hmd) as (Hdone & Hmove & Hwait).
    destruct (decide (pending md)) as [Hp|Hp].
    + destruct (decide (movement_of i md ∈ (plan s).2)) as [Hin|Hout].
      * destruct (Hmove Hp Hin) as [Hf _]. rewrite Ha in Hf. simpl in Hf.
        rewrite Ha' in Hf. injection Hf as ->. right. simpl.
        unfold next_node, at_index in *. unfold pending in Hp.
        destruct (path md !! currentIndex md) as [x|] eqn:Hx;
          [|apply lookup_ge_None in Hx; lia].
        destruct (path md !! (currentIndex md + 1)%nat) as [y|] eqn:Hy;
          [|apply lookup_ge_None in Hy; lia].
        simpl in *. subst x. eapply is_walk_lookup; [by eapply Hwalks|done|].
        by rewrite Nat.add_1_r in Hy.
      * destruct (Hwait Hp Hout) as [Hf _]. left. congruence.
    + destruct (Hdone Hp) as (_ & f & Hf & Hpos & Hfind).
      rewrite Ha in Hfind. simpl in Hfind. rewrite Ha' in Hfind. injection Hfind as ->.
      left. destruct (Hpos a) as [-> _]. rewrite <- Hat. unfold final_node. f_equal.
      unfold pending in Hp. lia.
  - destruct (tick_not_queued s i Hk Hmd) as [Hf _]. left. congruence.
Qed.

Lemma one_route_walks j md :
  mq_get j (movementQueue one_route) = Some md → is_walk nodeGraph (path md).
Proof.
  unfold one_route. simpl. case_decide; [|done]. intros [= <-]. by_compute.
Qed.

(** The tick of [one_route] takes AGV1 from 1 to 2. *)
Lemma tick_moves_along_edges_witness :
  position (mkAGV "AGV1" 2 97 idle "A*") = position (mkAGV "AGV1" 1 100 idle "A*") ∨
  edge nodeGraph (position (mkAGV "AGV1" 1 100 idle "A*"))
                 (position (mkAGV "AGV1" 2 97 idle "A*")).
Proof.
  apply (tick_moves_along_edges one_route "AGV1").
  - exact one_route_inv.
  - exact one_route_walks.
  - vm_compute. reflexivity.
  - vm_compute. reflexivity.
Defined.

Lemma plan_fold_blocked q : ∀ s moves,
  Forall (λ e : string * MovementData, pending e.2 ∧ next_node e.2 ∈ occupiedNodes s) q →
  foldl plan_entry (s, moves) q = (s, moves).
Proof.
  induction q as [|[i md] q IH]; intros s moves Hq; [done|]. cbn [foldl].
  apply Forall_cons in Hq as [[Hp Hocc] Hq]. cbn [snd] in Hp, Hocc.
  rewrite plan_entry_pending by done. rewrite decide_False by tauto. by apply IH.
Qed.

Lemma report_fold_nobody q : ∀ s,
  foldl (report_waiting []) s q
  = mkState (agvs s) (tasks s) (isRunning s) (totalTasksCompleted s) (occupiedNodes s)
      (reservedNodes s) (movementQueue s) (movementInterval s) (timers s)
      (broadcasts s ++ ((λ e : string * MovementData,
                           agvWaiting e.1 (position <$> find_agv e.1 (agvs s))) <$> q)).
Proof.
  induction q as [|e q IH]; intros s; simpl.
  - rewrite app_nil_r. by destruct s.
  - rewrite IH. unfold report_waiting. rewrite decide_False by (by intros ?%Exists_nil).
    simpl. by rewrite <- app_assoc.
Qed.

(** One tick of a blocked state: only the reservations are cleared and the
    waiting messages sent. *)
Lemma tick_blocked s :
  blocked s →
  coordinateSimultaneousMovement s
  = mkState (agvs s) (tasks s) (isRunning s) (totalTasksCompleted s) (occupiedNodes s)
      ∅ (movementQueue s) (movementInterval s) (timers s)
      (broadcasts s ++ waiting_events s).
Proof.
  intros Hb. unfold coordinateSimultaneousMovement, plan.
  rewrite plan_fold_blocked by done. simpl. by rewrite report_fold_nobody.
Qed.

(** X8: Vehicles that all wait for occupied nodes wait for good: after any
    number of ticks the fleet, the queue and the occupancy are as before, and
    every tick has reported every queued vehicle waiting once. *)
Theorem blocked_queue_never_moves s n :
  blocked s →
  let sn := Nat.iter n coordinateSimultaneousMovement s in
  agvs sn = agvs s ∧ movementQueue sn = movementQueue s ∧
  occupiedNodes sn = occupiedNodes s ∧
  totalTasksCompleted sn = totalTasksCompleted s ∧
  broadcasts sn = broadcasts s ++ concat (replicate n (waiting_events s)).
Proof.
  intros Hb. induction n as [|n IH]; simpl.
  - by rewrite app_nil_r.
  - destruct IH as (Ha & Hq & Ho & Ht & Hbr).
    rewrite tick_blocked.
    2:{ unfold blocked. rewrite Hq, Ho. done. }
    simpl. rewrite Ha, Hq, Ho, Ht, Hbr. split_and!; try done.
    unfold waiting_events. rewrite Ha, Hq. rewrite <- app_assoc. f_equal.
    clear. induction n as [|n IH]; simpl; [by rewrite app_nil_r|].
    by rewrite <- app_assoc, IH.
Qed.

Lemma worn_down_blocked : blocked worn_down.
Proof. unfold blocked, pending. by_compute. Qed.

(** AGV2 and AGV3 face each other on 5 and 8: two more ticks change
    neither the fleet nor the queue. *)
Lemma blocked_queue_never_moves_witness :
  agvs (Nat.iter 2 coordinateSimultaneousMovement worn_down) = agvs worn_down ∧
  movementQueue (Nat.iter 2 coordinateSimultaneousMovement worn_down)
  = movementQueue worn_down.
Proof.
  destruct (blocked_queue_never_moves worn_down 2 worn_down_blocked) as (Ha & Hq & _).
  split; [exact Ha|exact Hq].
Defined.

Lemma find_agv_is_Some_ids i l l' :
  agv_id <$> l = agv_id <$> l' → is_Some (find_agv i l) ↔ is_Some (find_agv i l').
Proof.
  intros Hids. rewrite <- !not_eq_None_Some, !find_agv_None, Hids. done.
Qed.

Lemma startCharging_books i s :
  tasks (startCharging i s) = tasks s ∧
  totalTasksCompleted (startCharging i s) = totalTasksCompleted s.
Proof.
  unfold startCharging. destruct (find_agv i (agvs s)); [|done]. by case_decide.
Qed.

Lemma completeAGVTask_books i pos log ch s :
  let s' := completeAGVTask i pos log ch s in
  tasks s' = tasks s ∧
  totalTasksCompleted s' = totalTasksCompleted s +
    (if decide (is_Some (find_agv i (agvs s)) ∧ ¬ (ch = true ∧ pos = CHARGING_NODE))
     then 1 else 0).
Proof.
  cbv zeta. unfold completeAGVTask. destruct (find_agv i (agvs s)) as [a|] eqn:Ha.
  - destruct (ch && bool_decide (pos = CHARGING_NODE)) eqn:Hch.
    + apply andb_true_iff in Hch as [-> Hpos%bool_decide_eq_true].
      rewrite decide_False by tauto.
      destruct (startCharging_books i (with_agvs (alter_agv (set_position pos) i) s))
        as [Ht Hn]. cbn [tasks totalTasksCompleted broadcast]. rewrite Ht, Hn.
      split; [done|simpl; lia].
    + rewrite decide_True.
      2:{ split; [done|]. intros [-> ->]. by rewrite bool_decide_eq_true_2 in Hch. }
      by destruct (needsCharging a && _).
  - rewrite decide_False; [split; [done|lia]|]. intros [[? ?] _]. done.
Qed.

Lemma plan_fold_books q : ∀ s moves,
  let s' := (foldl plan_entry (s, moves) q).1 in
  tasks s' = tasks s ∧
  totalTasksCompleted s' = totalTasksCompleted s +
    Z.of_nat (length (filter (counts_as_completed s) q)).
Proof.
  induction q as [|[i md] q IH]; intros s moves; cbn [foldl].
  - simpl. split; [done|lia].
  - destruct (plan_entry_frame s moves i md) as (_ & Hids & _).
    destruct (plan_entry (s, moves) (i, md)) as [s1 moves1] eqn:Hpe. simpl in Hids.
    destruct (IH s1 moves1) as [Ht Hn]. simpl in Ht, Hn. simpl. rewrite Ht, Hn.
    assert (filter (counts_as_completed s1) q = filter (counts_as_completed s) q) as ->.
    { apply list_filter_iff. intros e. unfold counts_as_completed.
      by rewrite (find_agv_is_Some_ids e.1 _ _ Hids). }
    rewrite filter_cons. destruct (decide (pending md)) as [Hp|Hp].
    + rewrite plan_entry_pending in Hpe by done.
      rewrite decide_False by (intros [? _]; done).
      case_decide; simplify_eq; simpl; split; try done; lia.
    + rewrite plan_entry_complete in Hpe by done. simplify_eq. simpl.
      destruct (completeAGVTask_books i (at_index (path md) (length (path md) - 1))
                  (md_log md) (isChargingTask md) s) as [-> ->].
      split; [done|]. unfold counts_as_completed, final_node. simpl.
      case_decide as H1; case_decide as H2; simpl; try lia; tauto.
Qed.

Lemma execute_fold_books ms : ∀ s,
  tasks (foldl execute_movement s ms) = tasks s ∧
  totalTasksCompleted (foldl execute_movement s ms) = totalTasksCompleted s.
Proof.
  induction ms as [|m ms IH]; intros s; [done|]. simpl.
  destruct (IH (execute_movement s m)) as [-> ->].
  unfold execute_movement. destruct (find_agv _ _); [|done]. simpl.
  by destruct (mq_get _ _).
Qed.

(** X9: A tick does not write to the task list, and it adds to
    [totalTasksCompleted] exactly the number of queued routes of existing
    vehicles that had no step left at its start, charging routes that end on
    the charging node apart. *)
Theorem tick_task_bookkeeping s :
  let s' := coordinateSimultaneousMovement s in
  tasks s' = tasks s ∧
  totalTasksCompleted s' = totalTasksCompleted s +
    Z.of_nat (length (filter (counts_as_completed s) (movementQueue s))).
Proof.
  simpl. rewrite tick_unfold.
  set (s2 := foldl execute_movement (plan s).1 (plan s).2).
  destruct (report_fold_frame (plan s).2 (movementQueue s2) s2)
    as (_ & _ & _ & _ & -> & _ & -> & _).
  subst s2. destruct (execute_fold_books (plan s).2 (plan s).1) as [-> ->].
  unfold plan.
  destruct (plan_fold_books (movementQueue s) (with_reservedNodes (λ _, ∅) s) [])
    as [-> ->]. done.
Qed.

End TickFacts.

(** ** Task creation and completion requests *)

Module CreationFacts.
Import Graph GraphFacts Coordinator CoordinatorSpec TableFacts CoordinatorFacts
  SearchSpec SearchFacts CreationSpec Scenarios.

Lemma findPath_length start end_ : start ≠ end_ → (2 ≤ length (findPath start end_))%nat.
Proof.
  intros Hne. unfold findPath.
  destruct (findPath_on_cases nodeGraph start end_ Hne) as [[_ ->]|H]; [simpl; lia|].
  simpl in H. destruct H as (_ & Hh & Hl & _).
  destruct (findPath_on nodeGraph start end_) as [|x [|y p]]; simpl in *; [done| |lia].
  congruence.
Qed.

(** The vehicle [createTaskInternal] settles on and the state it leaves. *)
Lemma createTaskInternal_created clk payload start end_ w prio auto s s1 task :
  NoDup (agv_id <$> agvs s) →
  createTaskInternal clk payload start end_ w prio auto s = (s1, Created task) →
  ∃ sel, find_agv (task_agvId task) (agvs s) = Some sel ∧
         agv_id sel = task_agvId task ∧ status sel = idle ∧
         task = mkTask (now clk) start end_ w (Some prio) (agv_id sel) payload
                  (mkLog (slice_last (agv_id sel)) start end_ (timeStr clk) w (Some payload))
                  task_executing (now clk) None auto false ∧
         s1 = broadcast (taskCreated task (Some (findPath start end_)))
                (simulateAGVMovement (agv_id sel) (findPath start end_)
                   (executionLog task) false
                   (with_tasks (λ t, t ++ [task])
                      (with_agvs
                         (alter_agv (λ a, set_position start (set_status busy a)) (agv_id sel))
                         s))).
Proof.
  intros Hids. unfold createTaskInternal.
  destruct (filter _ (agvs s)) as [|first others] eqn:Hav; [done|].
  destruct (foldl_best_battery others first) as [Hin _].
  set (sel := foldl best_battery first others) in *.
  intros [= <- <-]. exists sel. simpl.
  rewrite <- Hav in Hin. apply list_elem_of_filter in Hin as [[Hidle _] Hsel].
  split_and!; try done. by apply find_agv_elem_of.
Qed.

Lemma foldl_best_battery_first (others : list AGV) : ∀ first,
  let sel := foldl best_battery first others in
  ∃ pre post, first :: others = pre ++ sel :: post ∧
              (∀ b, b ∈ pre → battery b < battery sel) ∧
              (∀ b, b ∈ post → battery b ≤ battery sel).
Proof.
  induction others as [|c others IH]; intros first; cbn [foldl].
  { exists [], []. split_and!; [done|intros b ?%elem_of_nil; done..]. }
  destruct (IH (best_battery first c)) as (pre & post & Heq & Hpre & Hpost).
  destruct (foldl_best_battery others (best_battery first c)) as [_ Hmax].
  cbv zeta in *. set (sel := foldl best_battery (best_battery first c) others) in *.
  unfold best_battery in Heq, Hmax. case_decide as Hc.
  - exists (first :: pre), post. split_and!; [by rewrite Heq| |done].
    intros b [->|Hb]%elem_of_cons; [|by apply Hpre].
    assert (battery c ≤ battery sel) by (apply Hmax; left). lia.
  - destruct pre as [|x pre].
    + simpl in Heq. injection Heq as Hsel Hothers. exists [], (c :: post).
      split_and!; [by rewrite <- Hsel, Hothers|intros b ?%elem_of_nil; done|].
      intros b [->|Hb]%elem_of_cons; [rewrite <- Hsel; lia|by apply Hpost].
    + simpl in Heq. injection Heq as <- Hothers. exists (first :: c :: pre), post.
      split_and!; [by rewrite Hothers| |done].
      assert (battery first < battery sel) by (apply Hpre; left).
      intros b [->|[->|Hb]%elem_of_cons]%elem_of_cons; [done|lia|].
      apply Hpre. by right.
Qed.

(** X10: [createTaskInternal] gives the task to the available vehicle (idle,
    battery above 30) with the fullest battery; of several equally full ones
    it takes the first in fleet order. *)
Theorem createTaskInternal_picks_first_fullest
    clk payload start end_ w prio auto s s1 task :
  createTaskInternal clk payload start end_ w prio auto s = (s1, Created task) →
  ∃ pre sel post,
    available s = pre ++ sel :: post ∧ agv_id sel = task_agvId task ∧
    status sel = idle ∧ battery sel > LOW_BATTERY_THRESHOLD ∧
    (∀ b, b ∈ pre → battery b < battery sel) ∧
    (∀ b, b ∈ post → battery b ≤ battery sel).
Proof.
  unfold createTaskInternal, available.
  destruct (filter _ (agvs s)) as [|first others] eqn:Hav; [done|].
  destruct (foldl_best_battery_first others first) as (pre & post & Heq & Hpre & Hpost).
  destruct (foldl_best_battery others first) as [Hin _].
  set (sel := foldl best_battery first others) in *.
  intros [= <- <-]. exists pre, sel, post. split_and!; try done.
  - rewrite <- Hav in Hin. by apply list_elem_of_filter in Hin as [[? ?] ?].
  - rewrite <- Hav in Hin. apply list_elem_of_filter in Hin as [[_ Hneed] _].
    unfold needsCharging in Hneed. apply bool_decide_eq_false in Hneed. lia.
Qed.

Lemma started_ids : NoDup (agv_id <$> agvs started).
Proof. by_compute. Qed.

Lemma started_creates_7_3 :
  createTaskInternal noon 7 7 3 10 "medium" false started
  = ((createTaskInternal noon 7 7 3 10 "medium" false started).1,
     Created (mkTask (now noon) 7 3 10 (Some "medium") "AGV1" 7
                (mkLog "1" 7 3 "12:00:00" 10 (Some 7)) task_executing
                (now noon) None false false)).
Proof. vm_compute. reflexivity. Qed.

(** On the started server the task from 7 to 3 goes to AGV1, the fullest
    vehicle. *)
Lemma createTaskInternal_picks_first_fullest_witness :
  ∃ pre sel post,
    available started = pre ++ sel :: post ∧ agv_id sel = "AGV1" ∧
    status sel = idle ∧ battery sel > LOW_BATTERY_THRESHOLD ∧
    (∀ b, b ∈ pre → battery b < battery sel) ∧
    (∀ b, b ∈ post → battery b ≤ battery sel).
Proof.
  exact (createTaskInternal_picks_first_fullest _ _ _ _ _ _ _ _ _ _ started_creates_7_3).
Defined.

(** X11: A created task puts its vehicle on the start node and marks that node
    occupied, but the node the vehicle stood on is not released: occupancy
    only grows. *)
Theorem createTaskInternal_keeps_old_node_occupied
    clk payload start end_ w prio auto s s1 task :
  NoDup (agv_id <$> agvs s) →
  start ≠ end_ →
  createTaskInternal clk payload start end_ w prio auto s = (s1, Created task) →
  ∃ a0, find_agv (task_agvId task) (agvs s) = Some a0 ∧
        find_agv (task_agvId task) (agvs s1)
        = Some (mkAGV (agv_id a0) start (battery a0) busy (algorithm a0)) ∧
        occupiedNodes s1 = occupiedNodes s ∪ {[start]} ∧
        mq_get (task_agvId task) (movementQueue s1)
        = Some (mkMovementData (findPath start end_) 0 (executionLog task) false) ∧
        tasks s1 = tasks s ++ [task].
Proof.
  intros Hids Hne Hc.
  destruct (createTaskInternal_created _ _ _ _ _ _ _ _ _ _ Hids Hc)
    as (sel & Hfind & Hid & Hidle & Htask & ->).
  exists sel. split; [done|]. rewrite <- Hid.
  pose proof (findPath_length start end_ Hne) as Hlen.
  assert (at_index (findPath start end_) 0 = start) as Hhead.
  { unfold findPath. destruct (findPath_on_cases nodeGraph start end_ Hne) as [[_ ->]|H]; [done|].
    simpl in H. destruct H as (_ & Hh & _). unfold at_index.
    destruct (findPath_on nodeGraph start end_); simpl in *; congruence. }
  unfold simulateAGVMovement. rewrite decide_False by lia. simpl.
  rewrite find_agv_alter_eq by done. rewrite Hid, Hfind. simpl.
  rewrite <- Hid. rewrite alter_agv_compose by done.
  rewrite find_agv_alter_eq by done. rewrite Hid, Hfind. simpl.
  rewrite Hhead, mq_get_set_eq. split_and!; try done.
  unfold set_position, set_status. simpl. by rewrite Hid.
Qed.

(** AGV1 is put on node 7 and node 1, where it stood, stays occupied. *)
Lemma createTaskInternal_keeps_old_node_occupied_witness :
  let s1 := (createTaskInternal noon 7 7 3 10 "medium" false started).1 in
  find_agv "AGV1" (agvs s1) = Some (mkAGV "AGV1" 7 100 busy "A*") ∧
  occupiedNodes s1 = occupiedNodes started ∪ {[7]}.
Proof.
  destruct (createTaskInternal_keeps_old_node_occupied
              noon 7 7 3 10 "medium" false started _ _
              started_ids ltac:(lia) started_creates_7_3)
    as (a0 & Ha0 & Hf & Hocc & _).
  assert (a0 = mkAGV "AGV1" 1 100 idle "A*") as -> by (vm_compute in Ha0; congruence).
  split; [exact Hf|exact Hocc].
Defined.

(** X12: With equal start and end nodes no route is queued: the selected
    vehicle is left busy on that node, and no number of ticks makes it idle
    again. *)
Theorem createTaskInternal_same_node_strands_vehicle
    clk payload n w prio auto s s1 task k :
  NoDup (agv_id <$> agvs s) →
  NoDup (movementQueue s).*1 →
  mq_get (task_agvId task) (movementQueue s) = None →
  createTaskInternal clk payload n n w prio auto s = (s1, Created task) →
  let sk := Nat.iter k coordinateSimultaneousMovement s1 in
  ∃ a0, find_agv (task_agvId task) (agvs s) = Some a0 ∧ status a0 = idle ∧
        find_agv (task_agvId task) (agvs sk)
        = Some (mkAGV (agv_id a0) n (battery a0) busy (algorithm a0)) ∧
        mq_get (task_agvId task) (movementQueue sk) = None.
Proof.
  intros Hids Hkeys Hq Hc.
  destruct (createTaskInternal_created _ _ _ _ _ _ _ _ _ _ Hids Hc)
    as (sel & Hfind & Hid & Hidle & Htask & ->).
  exists sel. split; [done|]. split; [done|].
  assert (findPath n n = [n]) as ->.
  { unfold findPath, findPath_on. by rewrite decide_True. }
  unfold simulateAGVMovement. rewrite decide_True by (simpl; lia).
  induction k as [|k IH]; simpl.
  - rewrite <- Hid in Hfind |- *. rewrite find_agv_alter_eq by done. rewrite Hfind.
    rewrite <- Hid in Hq. done.
  - simpl in IH. destruct IH as [IHa IHq].
    match goal with |- context [coordinateSimultaneousMovement ?x] => set (sk := x) in * end.
    assert (NoDup (movementQueue sk).*1) as Hnd.
    { subst sk. clear IHa IHq. induction k as [|k IHk]; simpl; [done|].
      by apply tick_keys_NoDup. }
    destruct (tick_not_queued sk (task_agvId task) Hnd IHq) as [-> ->]. done.
Qed.

Lemma started_creates_4_4 :
  createTaskInternal noon 7 4 4 10 "medium" false started
  = ((createTaskInternal noon 7 4 4 10 "medium" false started).1,
     Created (mkTask (now noon) 4 4 10 (Some "medium") "AGV1" 7
                (mkLog "1" 4 4 "12:00:00" 10 (Some 7)) task_executing
                (now noon) None false false)).
Proof. vm_compute. reflexivity. Qed.

(** A task from 4 to 4 on the started server: three ticks later AGV1 is
    still busy on node 4. *)
Lemma createTaskInternal_same_node_strands_vehicle_witness :
  find_agv "AGV1"
    (agvs (Nat.iter 3 coordinateSimultaneousMovement
             (createTaskInternal noon 7 4 4 10 "medium" false started).1))
  = Some (mkAGV "AGV1" 4 100 busy "A*").
Proof.
  destruct (createTaskInternal_same_node_strands_vehicle
              noon 7 4 10 "medium" false started _ _ 3%nat
              started_ids ltac:(by_compute) eq_refl started_creates_4_4)
    as (a0 & Ha0 & _ & Hf & _).
  assert (a0 = mkAGV "AGV1" 1 100 idle "A*") as -> by (vm_compute in Ha0; congruence).
  exact Hf.
Defined.

(** X13: The completion request does not look at the status of the task: asked
    twice for the same task it counts it twice. *)
Theorem api_tasks_complete_counts_again clk clk' taskId s s1 :
  api_tasks_complete clk taskId s = (s1, true) →
  ∃ s2, api_tasks_complete clk' taskId s1 = (s2, true) ∧
        totalTasksCompleted s2 = totalTasksCompleted s + 2.
Proof.
  unfold api_tasks_complete.
  destruct (list_find _ (tasks s)) as [[k task]|] eqn:Hfind; [|done].
  intros [= <-]. simpl.
  assert (list_find (λ x, task_id x = taskId)
            (alter_task (complete_task (now clk)) taskId (tasks s))
          = Some (k, complete_task (now clk) task)) as ->.
  { clear -Hfind. revert k Hfind. induction (tasks s) as [|x l IH]; intros k; simpl; [done|].
    case_decide as Hx.
    - intros [= <- <-]. simpl. by rewrite decide_True.
    - simpl. rewrite decide_False by done.
      destruct (list_find _ l) as [[k' t']|] eqn:Hl; simpl; [|done].
      intros [= <- <-]. by rewrite (IH k' eq_refl). }
  eexists. split; [reflexivity|]. simpl. lia.
Qed.

(** The task of [arriving] is completed by request twice. *)
Lemma api_tasks_complete_counts_again_witness :
  ∃ s2, api_tasks_complete (at_ms 6000) task_1_to_2
          (api_tasks_complete (at_ms 5000) task_1_to_2 arriving).1 = (s2, true) ∧
        totalTasksCompleted s2 = totalTasksCompleted arriving + 2.
Proof.
  apply (api_tasks_complete_counts_again (at_ms 5000)).
  vm_compute. reflexivity.
Defined.

End CreationFacts.

(** ** Arrival and charging *)

Module ChargingFacts.
Import Graph GraphFacts Coordinator CoordinatorSpec TableFacts CoordinatorFacts
  TickSpec Scenarios.

Lemma chargingCycle_below i s a :
  find_agv i (agvs s) = Some a → battery a < MAX_BATTERY →
  find_agv i (agvs (chargingCycle i s))
  = Some (set_battery (Z.min MAX_BATTERY (battery a + CHARGING_RATE)) a) ∧
  timers (chargingCycle i s) = timers s.
Proof.
  intros Ha Hb. unfold chargingCycle. rewrite Ha. rewrite decide_True by done. simpl.
  rewrite find_agv_alter_eq by done. by rewrite Ha.
Qed.

Lemma chargingCycle_full i s a :
  find_agv i (agvs s) = Some a → ¬ battery a < MAX_BATTERY →
  find_agv i (agvs (chargingCycle i s)) = Some (set_status idle a) ∧
  timers (chargingCycle i s) = clear_timer (ChargingInterval i) (timers s).
Proof.
  intros Ha Hb. unfold chargingCycle. rewrite Ha. rewrite decide_False by done. simpl.
  rewrite find_agv_alter_eq by done. by rewrite Ha.
Qed.

Lemma cycles_to_full_spec b k :
  b ≤ MAX_BATTERY →
  ((k < cycles_to_full b)%nat ↔ b + CHARGING_RATE * Z.of_nat k < MAX_BATTERY).
Proof.
  unfold cycles_to_full, MAX_BATTERY, CHARGING_RATE. intros Hb.
  pose proof (Z.div_mod (100 - b + 4) 5 ltac:(lia)) as Hdm.
  pose proof (Z.mod_pos_bound (100 - b + 4) 5 ltac:(lia)) as Hmod.
  assert (0 ≤ (100 - b + 4) / 5) by (apply Z.div_pos; lia).
  split; intros Hk; [|apply Nat2Z.inj_lt; rewrite Z2Nat.id by done]; lia.
Qed.

(** While the battery is below 100 every cycle adds 5 (capped at 100) and
    nothing else changes. *)
Lemma charging_progress i s a k :
  find_agv i (agvs s) = Some a → battery a ≤ MAX_BATTERY →
  (k ≤ cycles_to_full (battery a))%nat →
  find_agv i (agvs (Nat.iter k (chargingCycle i) s))
  = Some (set_battery (Z.min MAX_BATTERY (battery a + CHARGING_RATE * Z.of_nat k)) a) ∧
  timers (Nat.iter k (chargingCycle i) s) = timers s.
Proof.
  intros Ha Hb. induction k as [|k IH]; intros Hk.
  - simpl. rewrite Ha. split; [|done]. f_equal. destruct a. unfold set_battery. simpl.
    f_equal. unfold MAX_BATTERY, CHARGING_RATE in *. simpl in Hb. lia.
  - destruct IH as [IHa IHt]; [lia|].
    assert (battery a + CHARGING_RATE * Z.of_nat k < MAX_BATTERY) as Hlt
      by (apply cycles_to_full_spec; [done|lia]).
    destruct (chargingCycle_below i (Nat.iter k (chargingCycle i) s) _ IHa) as [Hn Ht].
    { simpl. lia. }
    rewrite !Nat.iter_succ. rewrite Hn, Ht, IHt. split; [|done]. f_equal.
    unfold set_battery. simpl. f_equal. unfold CHARGING_RATE, MAX_BATTERY in *. lia.
Qed.

(** X14: A vehicle at battery [b] is charged to exactly 100 in [cycles_to_full
    b] cycles of 5 points; one more cycle makes it idle and clears its
    charging interval. *)
Theorem charging_runs_to_full i s a :
  find_agv i (agvs s) = Some a → battery a ≤ MAX_BATTERY →
  let n := cycles_to_full (battery a) in
  battery <$> find_agv i (agvs (Nat.iter n (chargingCycle i) s)) = Some MAX_BATTERY ∧
  status <$> find_agv i (agvs (Nat.iter n (chargingCycle i) s)) = Some (status a) ∧
  find_agv i (agvs (Nat.iter (S n) (chargingCycle i) s))
  = Some (mkAGV (agv_id a) (position a) MAX_BATTERY idle (algorithm a)) ∧
  timers (Nat.iter (S n) (chargingCycle i) s) = clear_timer (ChargingInterval i) (timers s).
Proof.
  intros Ha Hb n.
  destruct (charging_progress i s a n Ha Hb) as [Hn Ht]; [done|].
  assert (Z.min MAX_BATTERY (battery a + CHARGING_RATE * Z.of_nat n) = MAX_BATTERY) as Hfull.
  { pose proof (cycles_to_full_spec (battery a) n Hb) as Hs. fold n in Hs.
    unfold MAX_BATTERY in *. lia. }
  rewrite Hfull in Hn. rewrite Hn. split; [done|]. split; [done|].
  destruct (chargingCycle_full i (Nat.iter n (chargingCycle i) s) _ Hn) as [Hn' Ht'].
  { simpl. lia. }
  rewrite !Nat.iter_succ. rewrite Hn', Ht', Ht. done.
Qed.

(** AGV3 starts with 92 points: two cycles fill it, the third makes it
    idle. *)
Lemma charging_runs_to_full_witness :
  battery <$> find_agv "AGV3" (agvs (Nat.iter 2 (chargingCycle "AGV3") initialState))
  = Some MAX_BATTERY ∧
  find_agv "AGV3" (agvs (Nat.iter 3 (chargingCycle "AGV3") initialState))
  = Some (mkAGV "AGV3" 9 MAX_BATTERY idle "ACO").
Proof.
  destruct (charging_runs_to_full "AGV3" initialState (mkAGV "AGV3" 9 92 idle "ACO")
              eq_refl ltac:(unfold MAX_BATTERY; simpl; lia))
    as (Hb & _ & Hf & _).
  split; [exact Hb|exact Hf].
Defined.

Lemma startCharging_record i s a :
  find_agv i (agvs s) = Some a → position a = CHARGING_NODE →
  find_agv i (agvs (startCharging i s)) = Some (set_status charging a) ∧
  timers (startCharging i s) = timers s ++ [ChargingInterval i].
Proof.
  intros Ha Hp. unfold startCharging. rewrite Ha, decide_True by done. simpl.
  rewrite find_agv_alter_eq by done. by rewrite Ha.
Qed.

Lemma completeAGVTask_record i md s a :
  find_agv i (agvs s) = Some a →
  let s' := completeAGVTask i (final_node md) (md_log md) (isChargingTask md) s in
  find_agv i (agvs s') = Some (arrived md a) ∧
  timers s' = timers s ++ arrival_timers i md a.
Proof.
  intros Ha. cbv zeta. unfold completeAGVTask, arrived, arrival_timers. rewrite Ha.
  destruct (isChargingTask md && bool_decide (final_node md = CHARGING_NODE)) eqn:Hch.
  - apply andb_true_iff in Hch as [_ Hpos%bool_decide_eq_true].
    destruct (startCharging_record i (with_agvs (alter_agv (set_position (final_node md)) i) s)
                (set_position (final_node md) a)) as [Hr Ht]; [|done|].
    { simpl. rewrite find_agv_alter_eq by done. by rewrite Ha. }
    cbn [agvs timers broadcast]. rewrite Hr, Ht. done.
  - destruct (needsCharging a && _); simpl;
      rewrite alter_agv_compose, find_agv_alter_eq, Ha by done; [done|].
    by rewrite app_nil_r.
Qed.

Lemma startCharging_timers i s : ∃ ts, timers (startCharging i s) = timers s ++ ts.
Proof.
  unfold startCharging. destruct (find_agv i (agvs s)); [|exists []; by rewrite app_nil_r].
  case_decide; [by eexists|exists []; by rewrite app_nil_r].
Qed.

Lemma completeAGVTask_timers i pos log ch s :
  ∃ ts, timers (completeAGVTask i pos log ch s) = timers s ++ ts.
Proof.
  unfold completeAGVTask. destruct (find_agv i (agvs s)); [|exists []; by rewrite app_nil_r].
  destruct (ch && _).
  - destruct (startCharging_timers i (with_agvs (alter_agv (set_position pos) i) s)) as [ts Hts].
    exists ts. simpl. by rewrite Hts.
  - destruct (needsCharging _ && _); simpl; [by eexists|exists []; by rewrite app_nil_r].
Qed.

Lemma plan_entry_timers acc e : ∃ ts, timers (plan_entry acc e).1 = timers acc.1 ++ ts.
Proof.
  destruct acc as [s moves], e as [i md]. simpl. case_decide.
  - simpl. destruct (find_agv i (agvs s)); [|exists []; by rewrite app_nil_r].
    apply completeAGVTask_timers.
  - case_decide; exists []; by rewrite app_nil_r.
Qed.

Lemma plan_fold_timers q : ∀ acc, ∃ ts, timers (foldl plan_entry acc q).1 = timers acc.1 ++ ts.
Proof.
  induction q as [|e q IH]; intros acc; cbn [foldl].
  - exists []. by rewrite app_nil_r.
  - destruct (IH (plan_entry acc e)) as [ts Hts]. destruct (plan_entry_timers acc e) as [ts0 Hts0].
    exists (ts0 ++ ts). by rewrite Hts, Hts0, app_assoc.
Qed.

Lemma plan_fold_other i q : ∀ s moves,
  i ∉ q.*1 → find_agv i (agvs (foldl plan_entry (s, moves) q).1) = find_agv i (agvs s).
Proof.
  induction q as [|[i0 md0] q IH]; intros s moves Hi; [done|]. cbn [foldl].
  rewrite fmap_cons, not_elem_of_cons in Hi. destruct Hi as [Hne Hi]. simpl in Hne.
  destruct (plan_entry_frame s moves i0 md0) as (_ & _ & _ & Hother & _).
  destruct (plan_entry (s, moves) (i0, md0)) as [s1 moves1]. simpl in Hother.
  rewrite IH by done. by apply Hother.
Qed.

Lemma plan_fold_arrival i md a q : ∀ s moves,
  NoDup q.*1 → (i, md) ∈ q → ¬ pending md → find_agv i (agvs s) = Some a →
  let s' := (foldl plan_entry (s, moves) q).1 in
  find_agv i (agvs s') = Some (arrived md a) ∧
  ∃ pre post, timers s' = timers s ++ pre ++ arrival_timers i md a ++ post.
Proof.
  induction q as [|[i0 md0] q IH]; intros s moves Hnd Hin Hp Ha; [by apply elem_of_nil in Hin|].
  rewrite fmap_cons in Hnd. apply NoDup_cons in Hnd as [Hi0 Hnd]. simpl in Hi0.
  cbn [foldl]. apply elem_of_cons in Hin as [[= <- <-]|Hin].
  - rewrite plan_entry_complete by done. fold (final_node md).
    destruct (completeAGVTask_record i md s a Ha) as [Hr Ht].
    set (s1 := with_movementQueue (mq_delete i) _).
    destruct (plan_fold_timers q (s1, moves)) as [post Hpost].
    cbv zeta. rewrite plan_fold_other by done. split; [done|].
    exists [], post. rewrite Hpost. subst s1. simpl. simpl in Ht. rewrite Ht.
    by rewrite <- app_assoc.
  - assert (i ≠ i0) as Hne.
    { intros ->. apply Hi0. by apply (list_elem_of_fmap_2 fst _ (i0, md)). }
    destruct (plan_entry_frame s moves i0 md0) as (_ & _ & _ & Hother & _).
    destruct (plan_entry_timers (s, moves) (i0, md0)) as [ts0 Hts0].
    destruct (plan_entry (s, moves) (i0, md0)) as [s1 moves1]. simpl in Hother, Hts0.
    destruct (Hother i Hne) as [Hf _].
    destruct (IH s1 moves1 Hnd Hin Hp) as [Hr (pre & post & Ht)]; [congruence|].
    split; [done|]. exists (ts0 ++ pre), post. simpl in Ht. rewrite Ht, Hts0.
    by rewrite <- !app_assoc.
Qed.

Lemma execute_fold_timers ms : ∀ s, timers (foldl execute_movement s ms) = timers s.
Proof.
  induction ms as [|m ms IH]; intros s; [done|]. simpl. rewrite IH.
  unfold execute_movement. destruct (find_agv _ _); [|done]. simpl. by destruct (mq_get _ _).
Qed.

(** X15: What a tick does with a queued route that has no step left: the entry
    leaves the queue and the vehicle rests on the final node; a charging route
    that has reached the charging node leaves the vehicle charging with its
    charging interval armed, any other route leaves it idle, with a charging
    task due in a second if its battery is at 30 or below. *)
Theorem tick_completes_route s i md a :
  NoDup (movementQueue s).*1 →
  mq_get i (movementQueue s) = Some md →
  ¬ pending md →
  find_agv i (agvs s) = Some a →
  let s' := coordinateSimultaneousMovement s in
  find_agv i (agvs s') = Some (arrived md a) ∧
  mq_get i (movementQueue s') = None ∧
  ∃ pre post, timers s' = timers s ++ pre ++ arrival_timers i md a ++ post.
Proof.
  intros Hk Hmd Hp Ha. cbv zeta.
  destruct (tick_vehicle s i md Hk Hmd) as ((Hgone & _) & _); [done|].
  split_and!; [|done|].
  - rewrite tick_unfold.
    set (s2 := foldl execute_movement (plan s).1 (plan s).2).
    destruct (report_fold_frame (plan s).2 (movementQueue s2) s2) as (-> & _).
    subst s2.
    destruct (execute_fold_frame (plan s).2 (plan s).1 (plan_moves_NoDup s Hk))
      as (_ & _ & _ & Hother & _).
    destruct (Hother i) as [-> _].
    + intros (m & Hid & Hm)%list_elem_of_fmap.
      apply plan_moves_ids in Hm as (md' & Hmd' & Hp' & _); [|done].
      rewrite <- Hid in Hmd'. congruence.
    + unfold plan.
      apply (plan_fold_arrival i md a (movementQueue s)); try done.
      by apply mq_get_Some.
  - rewrite tick_unfold.
    set (s2 := foldl execute_movement (plan s).1 (plan s).2).
    destruct (report_fold_frame (plan s).2 (movementQueue s2) s2)
      as (_ & _ & _ & _ & _ & -> & _).
    subst s2. rewrite execute_fold_timers. unfold plan.
    destruct (plan_fold_arrival i md a (movementQueue s) (with_reservedNodes (λ _, ∅) s) [])
      as [_ H]; try done.
    by apply mq_get_Some.
Qed.

(** The tick after AGV1 has reached the end of its route from 1 to 2. *)
Lemma tick_completes_route_witness :
  find_agv "AGV1" (agvs (coordinateSimultaneousMovement arriving))
  = Some (mkAGV "AGV1" 2 97 idle "A*") ∧
  mq_get "AGV1" (movementQueue (coordinateSimultaneousMovement arriving)) = None.
Proof.
  destruct (tick_completes_route arriving "AGV1"
              (mkMovementData [1; 2] 1 (mkLog "1" 1 2 "12:00:00" 10 (Some 1)) false)
              (mkAGV "AGV1" 2 97 busy "A*"))
    as (Hf & Hq & _).
  - by_compute.
  - vm_compute. reflexivity.
  - unfold pending. simpl. lia.
  - vm_compute. reflexivity.
  - split; [exact Hf|exact Hq].
Defined.

End ChargingFacts.

(** ** The planners of [enhanced_server.js] *)

Module PlannerFacts.
Import Graph GraphFacts Enhanced EnhancedSpec EnhancedFacts PlannerSpec.

Section Chain.

Variables (g : gmap Z (list Z)) (start : Z) (prev : gmap Z Z) (score : gmap Z jsnum).
Hypothesis Htree : search_tree g start prev score.

(** The nodes on the way back from a node of score [m] are [m] different
    keys of the predecessor map. *)
Lemma chain_nodes (m : nat) : ∀ cur,
  score !! cur = Some (Fin (Z.of_nat m)) →
  ∃ T : gset Z, size T = m ∧ T ⊆ dom prev ∧
    ∀ n, n ∈ T → ∃ j, score !! n = Some (Fin j) ∧ 1 ≤ j ≤ Z.of_nat m.
Proof.
  destruct Htree as [He [Hr0 Hr1] Hs].
  induction m as [|m IH]; intros cur Hcur.
  - exists ∅. split_and!; [done|set_solver|set_solver].
  - destruct (Hs cur _ Hcur) as [_ [->|[c Hc]]]; [rewrite Hr0 in Hcur; simplify_eq; lia|].
    destruct (He cur c Hc) as (_ & k & Hkc & Hkn).
    rewrite Hcur in Hkn. assert (k = Z.of_nat m) as -> by (simplify_eq; lia).
    destruct (IH c Hkc) as (T & Hsize & Hsub & HT).
    assert (cur ∉ T) as Hfresh.
    { intros Hin. destruct (HT cur Hin) as (j & Hj & Hle). rewrite Hcur in Hj.
      simplify_eq. lia. }
    exists (T ∪ {[cur]}). split_and!.
    + rewrite size_union by set_solver. rewrite size_singleton. lia.
    + apply union_subseteq. split; [done|]. apply singleton_subseteq_l.
      apply elem_of_dom. by eexists.
    + intros n [Hn|Hn%elem_of_singleton]%elem_of_union.
      * destruct (HT n Hn) as (j & Hj & Hle). exists j. split; [done|]. lia.
      * subst n. eexists. split; [done|]. lia.
Qed.

(** Walking back from a node of score [m] takes [m] turns of the loop of
    [reconstructPath] and yields a walk from the root whose [i]-th node has
    score [i]. *)
Lemma reconstruct_chain (m : nat) : ∀ fuel cur rest e,
  score !! cur = Some (Fin (Z.of_nat m)) → (m ≤ fuel)%nat →
  is_walk g (cur :: rest) → last (cur :: rest) = Some e →
  Forall (λ n, is_Some (prev !! n)) rest →
  (∀ i n, (cur :: rest) !! i = Some n → score !! n = Some (Fin (Z.of_nat (m + i)))) →
  ∃ p, reconstructPath_loop fuel prev cur (cur :: rest) = Some p ∧
       is_walk g p ∧ head p = Some start ∧ last p = Some e ∧
       Forall (λ n, is_Some (prev !! n)) (tail p) ∧
       (∀ i n, p !! i = Some n → score !! n = Some (Fin (Z.of_nat i))).
Proof.
  destruct Htree as [He [Hr0 Hr1] Hs].
  induction m as [|m IH]; intros fuel cur rest e Hcur Hfuel Hw Hl Hrest Hidx.
  - assert (prev !! cur = None) as Hnone.
    { destruct (prev !! cur) as [c|] eqn:Hc; [|done].
      destruct (He cur c Hc) as (_ & k & Hkc & Hkn). rewrite Hcur in Hkn.
      destruct (Hs c k Hkc) as [? _]. simplify_eq. lia. }
    assert (cur = start) as ->.
    { destruct (Hs cur _ Hcur) as [_ [?|[? ?]]]; [done|congruence]. }
    exists (start :: rest). split_and!; try done.
    destruct fuel; simpl; by rewrite Hnone.
  - destruct (Hs cur _ Hcur) as [_ [->|[c Hc]]]; [rewrite Hr0 in Hcur; simplify_eq; lia|].
    destruct (He cur c Hc) as (Hedge & k & Hkc & Hkn).
    rewrite Hcur in Hkn. assert (k = Z.of_nat m) as -> by (simplify_eq; lia).
    destruct fuel as [|fuel]; [lia|]. simpl. rewrite Hc.
    apply (IH fuel c (cur :: rest) e); try done.
    + lia.
    + constructor; [by eexists|done].
    + intros [|i] n Hn; simpl in Hn.
      * simplify_eq. by rewrite Nat.add_0_r.
      * rewrite (Hidx i n Hn). do 3 f_equal. lia.
Qed.

(** [reconstructPath] from a node of finite score. *)
Lemma reconstructPath_tree e k :
  score !! e = Some (Fin k) →
  ∃ p, reconstructPath prev e = Val p ∧
       is_walk g p ∧ head p = Some start ∧ last p = Some e ∧
       Forall (λ n, is_Some (prev !! n)) (tail p) ∧
       (∀ i n, p !! i = Some n → score !! n = Some (Fin (Z.of_nat i))) ∧
       Z.of_nat (length p) = k + 1.
Proof.
  intros Hk. pose proof (tree_score _ _ _ _ Htree e k Hk) as [Hk0 _].
  assert (k = Z.of_nat (Z.to_nat k)) as Hkm by lia. rewrite Hkm in Hk.
  destruct (chain_nodes _ e Hk) as (T & Hsize & Hsub & _).
  destruct (reconstruct_chain (Z.to_nat k) (size prev) e [] e) as (p & Hp & Hw & Hh & Hl & Ht & Hi);
    try done.
  - rewrite <- Hsize, <- size_dom. by apply subseteq_size.
  - intros [|i] n Hn; simpl in Hn; [|done]. simplify_eq. by rewrite Nat.add_0_r.
  - exists p. unfold reconstructPath. rewrite Hp. split_and!; try done.
    assert (p !! (length p - 1)%nat = Some e) as Hlast.
    { rewrite <- Hl. by rewrite last_lookup, Nat.sub_1_r. }
    apply Hi in Hlast. rewrite Hk in Hlast.
    destruct p; [done|]. simpl in *. simplify_eq. lia.
Qed.

End Chain.

(** *** A* *)

Lemma js_succ_Fin x t : js_succ x = Fin t → x = Some (Fin (t - 1)).
Proof.
  destruct x as [[z| |]|]; simpl; try done. intros [= <-]. do 2 f_equal. lia.
Qed.

Lemma gScore0_lookup start n k :
  (<[start := Fin 0]> (list_to_map ((λ n, (n, Infinity)) <$> grid_nodes)) : gmap Z jsnum) !! n
  = Some (Fin k) → n = start ∧ k = 0.
Proof.
  destruct (decide (n = start)) as [->|Hne].
  - rewrite lookup_insert_eq. by intros [= <-].
  - rewrite lookup_insert_ne by done. intros Hl.
    apply elem_of_list_to_map_2 in Hl.
    apply list_elem_of_fmap in Hl as (m & Heq & _). done.
Qed.

Lemma search_tree_init g start :
  search_tree g start ∅
    (<[start := Fin 0]> (list_to_map ((λ n, (n, Infinity)) <$> grid_nodes))).
Proof.
  split.
  - intros n c. by rewrite lookup_empty.
  - split; [by rewrite lookup_insert_eq|by rewrite lookup_empty].
  - intros n k [-> ->]%gScore0_lookup. split; [done|by left].
Qed.

(** One neighbour: the tree stays a tree. *)
Lemma relax_tree g start end_ avoid current st nb st' :
  relax end_ avoid current (Some st) nb = Some st' →
  astar_tree g start avoid st → current ∈ closedSet st → edge g current nb →
  astar_tree g start avoid st' ∧ closedSet st' = closedSet st.
Proof.
  intros Hrelax Htree Hcur Hedge. pose proof Htree as ([He [Hr0 Hr1] Hs] & Hcf & Hopen).
  unfold relax in Hrelax. cbn [mbind option_bind] in Hrelax.
  case_decide as Hskip; [by simplify_eq|].
  destruct (js_succ (gScore st !! current)) as [t| |] eqn:Hsucc; [|by simplify_eq..].
  apply js_succ_Fin in Hsucc.
  destruct (js_lt (Fin t) (gScore st !! nb)) eqn:Hlt; [|by simplify_eq].
  destruct (heuristic nb end_) as [h|]; [|done]. cbn [mbind option_bind] in Hrelax.
  injection Hrelax as <-. split; [|done].
  assert ((nb ∉ closedSet st) ∧ (nb ∉ avoid)) as [Hnc Hna] by tauto.
  assert (nb ≠ current) as Hne1 by (intros ->; done).
  destruct (Hs current _ Hsucc) as [Ht0 _].
  assert (nb ≠ start) as Hne2.
  { intros ->. rewrite Hr0 in Hlt. simpl in Hlt.
    apply bool_decide_eq_true in Hlt. lia. }
  split_and!; cbn [openSet closedSet cameFrom gScore].
  - split.
    + intros n c. destruct (decide (n = nb)) as [->|Hn].
      * rewrite lookup_insert_eq. intros [= <-]. split; [done|].
        exists (t - 1). rewrite lookup_insert_ne by done. rewrite lookup_insert_eq.
        split; [done|]. do 2 f_equal. lia.
      * rewrite lookup_insert_ne by done. intros Hc.
        destruct (He n c Hc) as (Hed & k & Hkc & Hkn). split; [done|]. exists k.
        destruct (Hcf n c Hc) as [_ Hcc].
        rewrite !lookup_insert_ne; [done|done|]. intros ->. done.
    + rewrite !lookup_insert_ne by done. done.
    + intros n k. destruct (decide (n = nb)) as [->|Hn].
      * rewrite !lookup_insert_eq. intros [= <-]. split; [lia|]. right. by eexists.
      * rewrite !lookup_insert_ne by done. apply Hs.
  - intros n c. destruct (decide (n = nb)) as [->|Hn].
    + rewrite lookup_insert_eq. intros [= <-]. done.
    + rewrite lookup_insert_ne by done. apply Hcf.
  - intros n Hn.
    destruct (decide (n = nb)) as [->|Hnn]; [rewrite lookup_insert_eq; by eexists|].
    rewrite lookup_insert_ne by done. apply Hopen.
    case_decide; [done|]. rewrite fmap_app in Hn.
    apply elem_of_app in Hn as [?|Hn]; [done|].
    apply list_elem_of_singleton in Hn. done.
Qed.

Lemma relax_fold_None end_ avoid current ns :
  foldl (relax end_ avoid current) None ns = None.
Proof. induction ns as [|n ns IH]; simpl; done. Qed.

Lemma relax_fold_tree g start end_ avoid current ns : ∀ st st',
  foldl (relax end_ avoid current) (Some st) ns = Some st' →
  astar_tree g start avoid st → current ∈ closedSet st →
  (∀ n, n ∈ ns → edge g current n) →
  astar_tree g start avoid st'.
Proof.
  induction ns as [|n ns IH]; intros st st' Hfold Htree Hcur Hedges; cbn [foldl] in Hfold.
  - by simplify_eq.
  - destruct (relax end_ avoid current (Some st) n) as [st1|] eqn:Hrelax;
      [|by rewrite relax_fold_None in Hfold].
    destruct (relax_tree g start end_ avoid current st n st1 Hrelax Htree Hcur) as [Ht1 Hc1].
    { apply Hedges. left. }
    apply (IH st1 st' Hfold Ht1); [by rewrite Hc1|].
    intros m Hm. apply Hedges. by right.
Qed.

(** The loop always ends with a value: the empty path, or a walk from
    [start] to [end_] that enters no node to avoid. *)
Lemma aStar_loop_sound g start end_ avoid fuel : ∀ st,
  is_Some (heuristic start end_) →
  astar_inv g start st → astar_tree g start avoid st →
  (size (scored_nodes start ∖ closedSet st) < fuel)%nat →
  ∃ p, aStar_loop fuel g end_ avoid st = Val p ∧
       (p = [] ∨ (route g start end_ p ∧ Forall (λ n, n ∉ avoid) (tail p))).
Proof.
  induction fuel as [|fuel IH]; intros st Hh Hinv Htree Hsize; [lia|]. simpl.
  pose proof (stable_sort_perm (λ a b : Z * Z, bool_decide (a.2 ≤ b.2)) (openSet st)) as Hperm.
  destruct (stable_sort _ (openSet st)) as [|[current f] rest]; [exists []; by split; [|left]|].
  destruct Hinv as (Hnd & Hopen & Hdom & Hclosed).
  pose proof Htree as (Hst & Hcf & Hfin).
  assert (current ∈ (openSet st).*1) as Hcur.
  { rewrite <- Hperm. csimpl. left. }
  destruct (Hopen current Hcur) as (Hconn & Hnotclosed & Hscored).
  case_decide as Hend.
  - subst current. destruct (Hfin end_ Hcur) as [k Hk].
    destruct (reconstructPath_tree g start _ _ Hst end_ k Hk)
      as (p & -> & Hw & Hhd & Hl & Ht & _).
    exists p. split; [done|]. right. split; [done|].
    eapply Forall_impl; [exact Ht|]. intros n [c Hc]. by destruct (Hcf n c Hc).
  - assert (NoDup (current :: rest.*1)) as Hnd'.
    { change (NoDup ((current, f) :: rest).*1). by rewrite Hperm. }
    apply NoDup_cons in Hnd' as [Hfresh Hndrest].
    set (st1 := mkSearch rest (closedSet st ∪ {[current]}) (cameFrom st) (gScore st)).
    assert (astar_inv g start st1) as Hinv1.
    { unfold astar_inv, st1. simpl. split_and!; try done.
      - intros n Hn. destruct (Hopen n) as (? & ? & ?).
        { rewrite <- Hperm. csimpl. by right. }
        split_and!; try done. set_solver.
      - set_solver. }
    assert (astar_tree g start avoid st1) as Htree1.
    { unfold astar_tree, st1. simpl. split_and!; try done.
      - intros n c Hc. destruct (Hcf n c Hc). split; [done|set_solver].
      - intros n Hn. apply Hfin. rewrite <- Hperm. csimpl. by right. }
    destruct (relax_fold_inv g start end_ avoid current (neighbors g current) st1)
      as (st2 & Hfold & Hinv2 & Hc2); try done.
    rewrite Hfold.
    apply IH; try done.
    + eapply (relax_fold_tree g start end_ avoid current); try done.
      unfold st1. simpl. set_solver.
    + rewrite Hc2. unfold st1. simpl.
      assert (scored_nodes start ∖ (closedSet st ∪ {[current]})
              ⊂ scored_nodes start ∖ closedSet st) as Hsub.
      { assert (current ∈ scored_nodes start) by set_solver. set_solver. }
      apply subset_size in Hsub. lia.
Qed.

(** X16: For two nodes of the coordinate table [aStarPathfinding] always
    returns: either the empty path, or a walk of the table from [start] to
    [end_] none of whose nodes after the first is one to avoid. *)
Theorem aStarPathfinding_on_sound g start end_ avoid :
  is_Some (heuristic start end_) →
  ∃ p, aStarPathfinding_on g start end_ avoid = Val p ∧
       (p = [] ∨ (route g start end_ p ∧ Forall (λ n, n ∉ avoid) (tail p))).
Proof.
  intros Hh. unfold aStarPathfinding_on. destruct Hh as [h Hh]. rewrite Hh.
  apply (aStar_loop_sound g start); try done.
  - unfold astar_inv. cbn [openSet closedSet gScore]. rewrite gScore0_dom.
    split_and!.
    + apply NoDup_singleton.
    + intros n ->%list_elem_of_singleton. split_and!; [apply rtc_refl|set_solver|].
      unfold scored_nodes. set_solver.
    + done.
    + set_solver.
  - unfold astar_tree. cbn [openSet closedSet gScore cameFrom]. split_and!.
    + apply search_tree_init.
    + intros n c. by rewrite lookup_empty.
    + intros n ->%list_elem_of_singleton. exists 0. by rewrite lookup_insert_eq.
  - cbn [closedSet]. rewrite difference_empty_L. pose proof (scored_nodes_size start).
    unfold aStar_fuel. lia.
Qed.

(** From 1 to 9 with node 5 to avoid. *)
Lemma aStarPathfinding_on_sound_witness :
  ∃ p, aStarPathfinding_on nodeConnections 1 9 [5] = Val p ∧
       (p = [] ∨ (route nodeConnections 1 9 p ∧ Forall (λ n, n ∉ [5]) (tail p))).
Proof.
  apply (aStarPathfinding_on_sound nodeConnections 1 9 [5]).
  vm_compute. eexists. reflexivity.
Defined.

(** *** Dijkstra with time windows *)

Lemma dijkstra_relax_unvisited tw slots current st nb :
  unvisited (dijkstra_relax tw slots current st nb) = unvisited st.
Proof.
  unfold dijkstra_relax. case_decide; [done|].
  destruct (js_succ _); try done.
  match goal with |- context [if ?b then _ else _] => destruct b end; done.
Qed.

Lemma dijkstra_relax_tree g start tw slots current st nb :
  dijkstra_tree g start tw slots st → (current ∉ unvisited st) → edge g current nb →
  dijkstra_tree g start tw slots (dijkstra_relax tw slots current st nb).
Proof.
  intros Htree Hcur Hedge. pose proof Htree as ([He [Hr0 Hr1] Hs] & Hpv).
  unfold dijkstra_relax. case_decide as Hskip; [done|].
  destruct (js_succ (distances st !! current)) as [alt| |] eqn:Hsucc; try done.
  apply js_succ_Fin in Hsucc.
  destruct (isTimeSlotAvailable nb _ slots) eqn:Hslot; [|done].
  destruct (js_lt (Fin alt) (distances st !! nb)) eqn:Hlt; [|done]. cbn [andb].
  assert (nb ∈ unvisited st) as Hnb by (destruct (decide (nb ∈ unvisited st)); tauto).
  assert (nb ≠ current) as Hne1 by (intros ->; done).
  destruct (Hs current _ Hsucc) as [Ht0 _].
  assert (nb ≠ start) as Hne2.
  { intros ->. rewrite Hr0 in Hlt. simpl in Hlt.
    apply bool_decide_eq_true in Hlt. lia. }
  split; cbn [distances previous unvisited].
  - split.
    + intros n c. destruct (decide (n = nb)) as [->|Hn].
      * rewrite lookup_insert_eq. intros [= <-]. split; [done|].
        exists (alt - 1). rewrite lookup_insert_ne by done. rewrite lookup_insert_eq.
        split; [done|]. do 2 f_equal. lia.
      * rewrite lookup_insert_ne by done. intros Hc.
        destruct (He n c Hc) as (Hed & k & Hkc & Hkn). split; [done|]. exists k.
        destruct (Hpv n c Hc) as [Hcc _].
        rewrite !lookup_insert_ne; [done|done|]. intros ->. done.
    + rewrite !lookup_insert_ne by done. done.
    + intros n k. destruct (decide (n = nb)) as [->|Hn].
      * rewrite !lookup_insert_eq. intros [= <-]. split; [lia|]. right. by eexists.
      * rewrite !lookup_insert_ne by done. apply Hs.
  - intros n c. destruct (decide (n = nb)) as [->|Hn].
    + rewrite !lookup_insert_eq. intros [= <-]. split; [done|]. by exists alt.
    + rewrite !lookup_insert_ne by done. apply Hpv.
Qed.

Lemma dijkstra_relax_fold_tree g start tw slots current ns : ∀ st,
  dijkstra_tree g start tw slots st → (current ∉ unvisited st) →
  (∀ n, n ∈ ns → edge g current n) →
  dijkstra_tree g start tw slots (foldl (dijkstra_relax tw slots current) st ns).
Proof.
  induction ns as [|n ns IH]; intros st Htree Hcur Hedges; cbn [foldl]; [done|].
  apply IH.
  - apply dijkstra_relax_tree; [done..|]. apply Hedges. left.
  - by rewrite dijkstra_relax_unvisited.
  - intros m Hm. apply Hedges. by right.
Qed.

Lemma dijkstra_loop_tree g start end_ tw slots fuel : ∀ st st',
  dijkstra_loop fuel g end_ tw slots st = Some st' →
  dijkstra_tree g start tw slots st → dijkstra_tree g start tw slots st'.
Proof.
  induction fuel as [|fuel IH]; intros st st' Hloop Htree; [done|]. simpl in Hloop.
  destruct (unvisited st) as [|u us] eqn:Hu; [by simplify_eq|]. rewrite <- Hu in Hloop.
  destruct (foldl (pick_min (distances st)) (None, Infinity) (unvisited st)).1
    as [current|] eqn:Hpick; [|by simplify_eq].
  case_decide; [by simplify_eq|].
  apply (IH _ _ Hloop). apply dijkstra_relax_fold_tree.
  - destruct Htree as [Hst Hpv]. split; [done|]. cbn [previous distances unvisited].
    intros n c Hc. destruct (Hpv n c Hc) as [Hcu ?]. split; [|done].
    intros [_ ?]%list_elem_of_filter. done.
  - cbn [unvisited]. intros [? _]%list_elem_of_filter. done.
  - done.
Qed.

(** X17: [dijkstraWithTimeWindow] always returns.  When the distance of [end_]
    is finite the path is a walk from [start] to [end_], the total time is
    five minutes per edge, and every node after the first is free at its
    arrival time; otherwise the path is the single node [end_] and the total
    time is not a finite number. *)
Theorem dijkstraWithTimeWindow_on_sound g start end_ tw slots :
  ∃ p t, dijkstraWithTimeWindow_on g start end_ tw slots = Val (p, t) ∧
    ((route g start end_ p ∧
      t = Fin (Z.of_nat (length p - 1) * 5 * 60 * 1000) ∧
      time_feasible tw slots p) ∨
     (p = [end_] ∧ (t = Infinity ∨ t = NaN))).
Proof.
  unfold dijkstraWithTimeWindow_on.
  set (st0 := mkDijkstra _ ∅ grid_nodes).
  destruct (dijkstra_loop_inv g start end_ tw slots 10 st0) as (st & Hloop & _).
  - split; unfold st0; cbn [distances previous].
    + intros n d [-> _]%gScore0_lookup. apply rtc_refl.
    + intros n p. by rewrite lookup_empty.
  - simpl. lia.
  - rewrite Hloop.
    assert (dijkstra_tree g start tw slots st) as [Hst Hpv].
    { apply (dijkstra_loop_tree g start end_ tw slots 10 st0 st Hloop).
      split; unfold st0; cbn [distances previous unvisited].
      - apply search_tree_init.
      - intros n c. by rewrite lookup_empty. }
    destruct (distances st !! end_) as [[k| |]|] eqn:Hdist.
    + destruct (reconstructPath_tree g start _ _ Hst end_ k Hdist)
        as (p & -> & Hw & Hhd & Hl & Ht & Hi & Hlen).
      exists p. eexists. split; [reflexivity|]. left. split_and!; try done.
      * simpl. f_equal.
        destruct (tree_score _ _ _ _ Hst end_ k Hdist) as [Hk0 _].
        assert (Z.of_nat (length p - 1) = k) as -> by lia. done.
      * intros i n Hi0 Hn.
        assert (is_Some (previous st !! n)) as [c Hc].
        { rewrite Forall_forall in Ht. apply Ht.
          destruct p as [|x p]; [done|]. destruct i as [|i]; [lia|]. simpl in Hn |- *.
          by eapply list_elem_of_lookup_2. }
        destruct (Hpv n c Hc) as (_ & k' & Hk' & Hslot).
        rewrite (Hi i n Hn) in Hk'. by simplify_eq.
    + assert (previous st !! end_ = None) as Hprev.
      { destruct (previous st !! end_) as [c|] eqn:Hc; [|done].
        destruct (tree_edge _ _ _ _ Hst end_ c Hc) as (_ & k & _ & Hk). congruence. }
      unfold reconstructPath.
      assert (reconstructPath_loop (size (previous st)) (previous st) end_ [end_]
              = Some [end_]) as ->.
      { destruct (size (previous st)); simpl; by rewrite Hprev. }
      eexists _, _. split; [reflexivity|]. right. simpl. tauto.
    + assert (previous st !! end_ = None) as Hprev.
      { destruct (previous st !! end_) as [c|] eqn:Hc; [|done].
        destruct (tree_edge _ _ _ _ Hst end_ c Hc) as (_ & k & _ & Hk). congruence. }
      unfold reconstructPath.
      assert (reconstructPath_loop (size (previous st)) (previous st) end_ [end_]
              = Some [end_]) as ->.
      { destruct (size (previous st)); simpl; by rewrite Hprev. }
      eexists _, _. split; [reflexivity|]. right. simpl. tauto.
    + assert (previous st !! end_ = None) as Hprev.
      { destruct (previous st !! end_) as [c|] eqn:Hc; [|done].
        destruct (tree_edge _ _ _ _ Hst end_ c Hc) as (_ & k & _ & Hk). congruence. }
      unfold reconstructPath.
      assert (reconstructPath_loop (size (previous st)) (previous st) end_ [end_]
              = Some [end_]) as ->.
      { destruct (size (previous st)); simpl; by rewrite Hprev. }
      eexists _, _. split; [reflexivity|]. right. simpl. tauto.
Qed.

(** *** The planners on the table of the server *)

Lemma on_table_cases n : on_table n → n ∈ grid_nodes.
Proof.
  unfold on_table, grid_nodes. intros Hn.
  assert (n = 1 ∨ n = 2 ∨ n = 3 ∨ n = 4 ∨ n = 5 ∨ n = 6 ∨ n = 7 ∨ n = 8 ∨ n = 9) by lia.
  set_solver.
Qed.

Lemma zip_tail_walk g p :
  Forall (λ e : Z * Z, e.2 ∈ neighbors g e.1) (zip p (tail p)) → is_walk g p.
Proof.
  induction p as [|a [|b q] IH]; simpl; [done..|].
  intros [Hab Hq]%Forall_cons. split; [done|]. by apply IH.
Qed.

(** A path that is as long as the breadth-first route is a shortest one. *)
Lemma as_short_as_bfs_shortest a b p :
  as_short_as_bfs a b p →
  route nodeConnections a b p ∧
  ∀ q, route nodeConnections a b q → (length p ≤ length q)%nat.
Proof.
  intros (Hh & Hl & Hw & Hlen). split; [split_and!; [by apply zip_tail_walk|done..]|].
  intros q (Hwq & Hhq & Hlq). rewrite Hlen.
  destruct (decide (a = b)) as [->|Hne].
  - unfold Coordinator.findPath_on. rewrite decide_True by done.
    destruct q; [done|]. cbn [length]. lia.
  - destruct (SearchFacts.findPath_on_cases nodeConnections a b Hne) as [[Hn _]|H].
    + exfalso. apply Hn. by eapply is_walk_connected.
    + cbv zeta in H. destruct H as (_ & Hhp & _ & Hmin).
      specialize (Hmin _ (SearchFacts.walk_within nodeConnections a q b Hwq Hhq Hlq)).
      unfold SearchSpec.hops in Hmin.
      destruct (Coordinator.findPath_on nodeConnections a b); [done|].
      destruct q; [done|]. cbn [length] in *. lia.
Qed.

Lemma astar_table : Forall (λ a, Forall (astar_checked a) grid_nodes) grid_nodes.
Proof. by_compute. Qed.

Lemma dijkstra_table : Forall (λ a, Forall (dijkstra_checked a) grid_nodes) grid_nodes.
Proof. by_compute. Qed.

Lemma astar_on_table start end_ :
  on_table start → on_table end_ →
  ∃ p, aStarPathfinding start end_ [] = Val p ∧ as_short_as_bfs start end_ p.
Proof.
  intros Hs He. pose proof astar_table as H.
  rewrite Forall_forall in H. specialize (H start (on_table_cases _ Hs)).
  rewrite Forall_forall in H. specialize (H end_ (on_table_cases _ He)).
  unfold astar_checked in H. destruct (aStarPathfinding start end_ []) as [p| |]; [|done..].
  by exists p.
Qed.

(** X18: Between any two nodes of the table, A* with nothing to avoid returns
    a walk from [start] to [end_] that no other walk undercuts. *)
Theorem aStarPathfinding_shortest_on_table start end_ :
  on_table start → on_table end_ →
  ∃ p, aStarPathfinding start end_ [] = Val p ∧
       route nodeConnections start end_ p ∧
       ∀ q, route nodeConnections start end_ q → (length p ≤ length q)%nat.
Proof.
  intros Hs He. destruct (astar_on_table start end_ Hs He) as (p & Hp & Hshort).
  exists p. split; [done|]. by apply as_short_as_bfs_shortest.
Qed.

(** From 4 to 5, which the table does not join by an edge. *)
Lemma aStarPathfinding_shortest_on_table_witness :
  ∃ p, aStarPathfinding 4 5 [] = Val p ∧
       route nodeConnections 4 5 p ∧
       ∀ q, route nodeConnections 4 5 q → (length p ≤ length q)%nat.
Proof.
  apply (aStarPathfinding_shortest_on_table 4 5); unfold on_table; lia.
Defined.

(** With no slot taken the start of the time window plays no role. *)
Lemma dijkstra_loop_no_slots g end_ tw fuel : ∀ st,
  dijkstra_loop fuel g end_ tw ∅ st = dijkstra_loop fuel g end_ 0 ∅ st.
Proof.
  assert (∀ current ns st1, foldl (dijkstra_relax tw ∅ current) st1 ns
                            = foldl (dijkstra_relax 0 ∅ current) st1 ns) as Hrelax.
  { intros current ns. induction ns as [|n ns IHn]; intros st1; [done|]. cbn [foldl].
    rewrite IHn. f_equal. }
  induction fuel as [|fuel IH]; intros st; [done|]. simpl.
  destruct (unvisited st) as [|u us] eqn:Hu; [done|]. rewrite <- Hu.
  destruct (foldl (pick_min (distances st)) (None, Infinity) (unvisited st)).1
    as [current|]; [|done].
  case_decide; [done|]. by rewrite IH, Hrelax.
Qed.

Lemma dijkstra_on_table start end_ tw :
  on_table start → on_table end_ →
  ∃ p, dijkstraWithTimeWindow start end_ tw ∅
       = Val (p, Fin (Z.of_nat (length p - 1) * 5 * 60 * 1000)) ∧
       as_short_as_bfs start end_ p.
Proof.
  intros Hs He. pose proof dijkstra_table as H.
  rewrite Forall_forall in H. specialize (H start (on_table_cases _ Hs)).
  rewrite Forall_forall in H. specialize (H end_ (on_table_cases _ He)).
  unfold dijkstra_checked in H.
  assert (dijkstraWithTimeWindow start end_ tw ∅ = dijkstraWithTimeWindow start end_ 0 ∅) as ->.
  { unfold dijkstraWithTimeWindow, dijkstraWithTimeWindow_on.
    by rewrite dijkstra_loop_no_slots. }
  destruct (dijkstraWithTimeWindow start end_ 0 ∅) as [[p t]| |]; [|done..].
  destruct H as [H ->]. by exists p.
Qed.

(** X19: Between any two nodes of the table, Dijkstra with no slot taken
    returns a walk from [start] to [end_] that no other walk undercuts, and
    counts five minutes per edge. *)
Theorem dijkstraWithTimeWindow_shortest_on_table start end_ tw :
  on_table start → on_table end_ →
  ∃ p, dijkstraWithTimeWindow start end_ tw ∅
       = Val (p, Fin (Z.of_nat (length p - 1) * 5 * 60 * 1000)) ∧
       route nodeConnections start end_ p ∧
       ∀ q, route nodeConnections start end_ q → (length p ≤ length q)%nat.
Proof.
  intros Hs He. destruct (dijkstra_on_table start end_ tw Hs He) as (p & Hp & Hshort).
  exists p. split; [done|]. by apply as_short_as_bfs_shortest.
Qed.

(** From 4 to 5 with the window starting at 0. *)
Lemma dijkstraWithTimeWindow_shortest_on_table_witness :
  ∃ p, dijkstraWithTimeWindow 4 5 0 ∅
       = Val (p, Fin (Z.of_nat (length p - 1) * 5 * 60 * 1000)) ∧
       route nodeConnections 4 5 p ∧
       ∀ q, route nodeConnections 4 5 q → (length p ≤ length q)%nat.
Proof.
  apply (dijkstraWithTimeWindow_shortest_on_table 4 5 0); unfold on_table; lia.
Defined.

(** *** Assignment *)

Lemma positions_on_table n : is_Some (positions n) ↔ on_table n.
Proof.
  unfold positions, on_table. split.
  - repeat case_decide; intros [? ?]; simplify_eq; lia.
  - intros Hn. repeat case_decide; try (by eexists). lia.
Qed.

Lemma score_all_is_Some task l :
  on_table (pickupLocation task) → Forall (λ a, on_table (position a)) l →
  is_Some (score_all task l).
Proof.
  intros Hp Hl. unfold score_all. apply mapM_is_Some. eapply Forall_impl; [exact Hl|].
  intros a Ha. unfold compose, calculateAGVScore. cbv beta.
  assert (is_Some (heuristic (position a) (pickupLocation task))) as [d Hd].
  { apply heuristic_is_Some. by rewrite !positions_on_table. }
  rewrite Hd. csimpl. by eexists.
Qed.

Lemma score_all_None task l :
  ¬ on_table (pickupLocation task) → l ≠ [] → score_all task l = None.
Proof.
  intros Hp Hl. destruct l as [|a l]; [done|]. unfold score_all. simpl.
  unfold calculateAGVScore.
  assert (heuristic (position a) (pickupLocation task) = None) as ->; [|done].
  destruct (heuristic _ _) eqn:Hh; [|done]. exfalso. apply Hp.
  apply positions_on_table.
  assert (is_Some (heuristic (position a) (pickupLocation task))) as Hs by by eexists.
  by apply heuristic_is_Some in Hs as [_ ?].
Qed.

(** X20: With an idle vehicle and a pickup node that the coordinate table does
    not list, [assignTaskToAGV] throws; with no idle vehicle it returns [null]
    and leaves the task as it was, whatever the pickup. *)
Theorem assignTaskToAGV_off_table clock agvs task :
  (filter (λ a, status a = "idle") agvs = [] →
   assignTaskToAGV clock agvs task = Val (task, None)) ∧
  (filter (λ a, status a = "idle") agvs ≠ [] → ¬ on_table (pickupLocation task) →
   assignTaskToAGV clock agvs task = TypeError).
Proof.
  unfold assignTaskToAGV, selectAGV. split.
  - intros ->. done.
  - intros Hne Hp. destruct (filter _ agvs) as [|a l] eqn:Hf; [done|].
    rewrite score_all_None; done.
Qed.

(** X21: When some vehicle is idle, every idle vehicle stands on a node of the
    table and the pickup is a node of the table, the task is assigned: the
    chosen vehicle is idle, the task becomes [assigned] and carries a shortest
    walk from the vehicle to the pickup. *)
Theorem assignTaskToAGV_succeeds_on_table clock agvs task :
  filter (λ a, status a = "idle") agvs ≠ [] →
  (∀ a, a ∈ agvs → status a = "idle" → on_table (position a)) →
  on_table (pickupLocation task) →
  ∃ sel p task',
    sel ∈ agvs ∧ status sel = "idle" ∧
    assignTaskToAGV clock agvs task = Val (task', Some (agv_id sel)) ∧
    task_status task' = "assigned" ∧ assignedAGV task' = Some (agv_id sel) ∧
    plannedPath task' = Some p ∧
    route nodeConnections (position sel) (pickupLocation task) p ∧
    ∀ q, route nodeConnections (position sel) (pickupLocation task) q →
         (length p ≤ length q)%nat.
Proof.
  intros Hne Hpos Hpick. unfold assignTaskToAGV, selectAGV.
  destruct (filter _ agvs) as [|a0 l0] eqn:Hf; [done|]. rewrite <- Hf. clear Hne.
  assert (Forall (λ a, on_table (position a)) (filter (λ a, status a = "idle") agvs)) as Hall.
  { apply Forall_forall. intros a [? ?]%list_elem_of_filter. by apply Hpos. }
  destruct (score_all_is_Some task _ Hpick Hall) as [scores Hscores]. rewrite Hscores.
  pose proof (score_all_Forall2 _ _ _ Hscores) as Hf2.
  pose proof (stable_sort_perm (λ a b : AGV * Z, bool_decide (b.2 ≤ a.2)) scores) as Hperm.
  destruct (stable_sort _ scores) as [|h sorted] eqn:Hsort.
  { apply Permutation_nil_l in Hperm. subst scores.
    apply Forall2_nil_inv_r in Hf2. rewrite Hf in Hf2. done. }
  assert (h ∈ scores) as Hin by (rewrite <- Hperm; left).
  assert (h.1 ∈ filter (λ a, status a = "idle") agvs) as Hsel.
  { apply list_elem_of_lookup in Hin as [i Hi].
    destruct (Forall2_lookup_r _ _ _ _ _ Hf2 Hi) as (a & Ha & <- & _).
    by eapply list_elem_of_lookup_2. }
  apply list_elem_of_filter in Hsel as [Hidle Hmem].
  cbn [head fmap option_fmap option_map].
  assert (∃ p, plan_route clock h.1 task = Val p ∧
               as_short_as_bfs (position h.1) (pickupLocation task) p) as (p & -> & Hshort).
  { unfold plan_route. case_decide.
    - destruct (dijkstra_on_table (position h.1) (pickupLocation task) clock)
        as (p & -> & Hp); [by apply Hpos|done|]. by exists p.
    - apply astar_on_table; [by apply Hpos|done]. }
  destruct (as_short_as_bfs_shortest _ _ _ Hshort) as [Hroute Hmin].
  assert (0 < length p)%nat as Hlen.
  { destruct Hroute as (_ & Hh & _). destruct p; [done|]. simpl. lia. }
  rewrite decide_True by done.
  exists h.1, p. eexists. split_and!; try done.
Qed.

(** The start-up fleet and a pickup at node 5. *)
Lemma assignTaskToAGV_succeeds_on_table_witness :
  ∃ sel p task',
    sel ∈ initial_fleet ∧ status sel = "idle" ∧
    assignTaskToAGV 0 initial_fleet pickup_at_5 = Val (task', Some (agv_id sel)) ∧
    task_status task' = "assigned" ∧ assignedAGV task' = Some (agv_id sel) ∧
    plannedPath task' = Some p ∧
    route nodeConnections (position sel) (pickupLocation pickup_at_5) p ∧
    ∀ q, route nodeConnections (position sel) (pickupLocation pickup_at_5) q →
         (length p ≤ length q)%nat.
Proof.
  apply (assignTaskToAGV_succeeds_on_table 0 initial_fleet pickup_at_5).
  - vm_compute. discriminate.
  - intros a Ha _. unfold initial_fleet in Ha.
    repeat (apply elem_of_cons in Ha as [->|Ha]); try (unfold on_table; simpl; lia).
    by apply elem_of_nil in Ha.
  - unfold on_table. simpl. lia.
Defined.

(** *** The heuristic *)

Lemma table_lookup (g : list (Z * list Z)) a ns :
  (list_to_map g : gmap Z (list Z)) !! a = Some ns → (a, ns) ∈ g.
Proof. apply elem_of_list_to_map_2. Qed.

Lemma edge_on_table a b : edge nodeConnections a b → on_table a ∧ on_table b.
Proof.
  unfold edge, neighbors, nodeConnections.
  destruct (list_to_map _ !! a) as [ns|] eqn:Hl; simpl; [|by intros ?%elem_of_nil].
  apply table_lookup in Hl. unfold on_table.
  repeat (apply elem_of_cons in Hl as [Hl|Hl];
          [injection Hl as -> ->; intros Hb;
           repeat (apply elem_of_cons in Hb as [->|Hb]; [lia|]); by apply elem_of_nil in Hb|]).
  by apply elem_of_nil in Hl.
Qed.

Lemma heuristic_table :
  Forall (λ e, Forall (λ a, Forall (consistent_at e a) (neighbors nodeConnections a))
                 grid_nodes) grid_nodes.
Proof. by_compute. Qed.

Lemma heuristic_consistent e a b :
  on_table e → edge nodeConnections a b → consistent_at e a b.
Proof.
  intros He Hab. pose proof heuristic_table as H.
  rewrite Forall_forall in H. specialize (H e (on_table_cases _ He)).
  rewrite Forall_forall in H.
  specialize (H a (on_table_cases _ (proj1 (edge_on_table a b Hab)))).
  rewrite Forall_forall in H. by apply H.
Qed.

(** X22: The heuristic never overestimates: from a node of the table it is at
    most the number of edges of any walk of the table to the target. *)
Theorem heuristic_admissible a e q :
  on_table a → route nodeConnections a e q →
  ∃ h, heuristic a e = Some h ∧ 0 ≤ h ≤ Z.of_nat (length q) - 1.
Proof.
  intros Ha (Hw & Hh & Hl). revert a Ha Hh Hw Hl.
  induction q as [|x [|y q] IH]; intros a Ha Hh Hw Hl; [done|..].
  - simpl in Hh, Hl. simplify_eq. exists 0. split; [|simpl; lia].
    unfold heuristic. apply positions_on_table in Ha as [[u v] ->].
    f_equal. lia.
  - simpl in Hh. injection Hh as ->. destruct Hw as [Hay Hw].
    destruct (IH y) as (hy & Hhy & Hy0 & Hyle); try done.
    { by apply edge_on_table in Hay as [_ ?]. }
    assert (on_table e) as He.
    { apply positions_on_table.
      assert (is_Some (heuristic y e)) as Hs by by eexists.
      by apply heuristic_is_Some in Hs as [_ ?]. }
    pose proof (heuristic_consistent e a y He Hay) as Hc. unfold consistent_at in Hc.
    rewrite Hhy in Hc. destruct (heuristic a e) as [ha|] eqn:Hha; [|done].
    exists ha. split; [done|]. split.
    + unfold heuristic in Hha.
      destruct (positions a) as [[? ?]|], (positions e) as [[? ?]|]; simplify_eq. lia.
    + cbn [length] in Hyle |- *. lia.
Qed.

(** From 4 the way to 5 over 1 and 2 has three edges. *)
Lemma heuristic_admissible_witness :
  route nodeConnections 4 5 [4; 1; 2; 5] ∧
  ∃ h, heuristic 4 5 = Some h ∧ 0 ≤ h ≤ 3.
Proof.
  assert (route nodeConnections 4 5 [4; 1; 2; 5]) as H.
  { split; [|done]. simpl. unfold edge. split_and!; try done; by_compute. }
  split; [exact H|].
  apply (heuristic_admissible 4 5 [4; 1; 2; 5]); [unfold on_table; lia|exact H].
Defined.

End PlannerFacts.

(** ** Conflicts *)

Module ConflictFacts.
Import Graph Enhanced EnhancedSpec EnhancedFacts.

Lemma NoDup_length_two (l : list Z) :
  NoDup l → (1 < length l)%nat ↔ ∃ a b, a ≠ b ∧ a ∈ l ∧ b ∈ l.
Proof.
  intros Hnd. split.
  - destruct l as [|a [|b l]]; simpl; [lia..|]. intros _.
    exists a, b. split_and!; [|left|right; left].
    apply NoDup_cons in Hnd as [Ha _]. intros ->. apply Ha. left.
  - intros (a & b & Hne & Ha & Hb). destruct l as [|x [|y l]]; simpl; [..|lia].
    + by apply elem_of_nil in Ha.
    + apply list_elem_of_singleton in Ha, Hb. congruence.
Qed.

(** X23: For planned paths that visit no node twice, [hasPathConflict] holds
    exactly when the two paths have two different nodes in common, and it does
    not matter which task is asked first. *)
Theorem hasPathConflict_two_shared_nodes t1 t2 p1 p2 :
  plannedPath t1 = Some p1 → plannedPath t2 = Some p2 →
  NoDup p1 → NoDup p2 →
  (hasPathConflict t1 t2 = true ↔
   ∃ a b, a ≠ b ∧ a ∈ p1 ∧ a ∈ p2 ∧ b ∈ p1 ∧ b ∈ p2) ∧
  hasPathConflict t2 t1 = hasPathConflict t1 t2.
Proof.
  intros H1 H2 Hnd1 Hnd2.
  assert (∀ q1 q2 : list Z, NoDup q1 →
            bool_decide (1 < length (filter (λ n, n ∈ q2) q1))%nat = true ↔
            ∃ a b, a ≠ b ∧ a ∈ q1 ∧ a ∈ q2 ∧ b ∈ q1 ∧ b ∈ q2) as Hchar.
  { intros q1 q2 Hnd. rewrite bool_decide_eq_true.
    rewrite NoDup_length_two by by apply NoDup_filter.
    split; intros (a & b & Hne & Ha & Hb); exists a, b.
    - apply list_elem_of_filter in Ha, Hb. tauto.
    - rewrite !list_elem_of_filter. tauto. }
  unfold hasPathConflict. rewrite H1, H2. split; [by apply Hchar|].
  apply eq_true_iff_eq. rewrite !Hchar by done.
  split; intros (a & b & ?); exists a, b; tauto.
Qed.

(** The two tasks of [overlap_state], planned over 1-2-3 and 3-2-1. *)
Lemma hasPathConflict_two_shared_nodes_witness :
  hasPathConflict
    (mkTask 2 3 1 "High" "assigned" (Some "AGV2") (Some [3; 2; 1]) (Some "A*") None)
    (mkTask 1 1 3 "Low" "assigned" (Some "AGV1") (Some [1; 2; 3]) (Some "A*") None)
  = hasPathConflict
    (mkTask 1 1 3 "Low" "assigned" (Some "AGV1") (Some [1; 2; 3]) (Some "A*") None)
    (mkTask 2 3 1 "High" "assigned" (Some "AGV2") (Some [3; 2; 1]) (Some "A*") None).
Proof.
  apply (hasPathConflict_two_shared_nodes _ _ [1; 2; 3] [3; 2; 1]); try done; by_compute.
Defined.

(** X24: Whatever [detectConflicts] has flagged, the resolve endpoint delays
    no task and counts nothing as resolved; it only empties the flagged set.
    *)
Theorem resolve_after_detect_changes_no_task clock clock' s :
  let r := api_conflicts_resolve clock' (detectConflicts clock s) in
  r.2 = [] ∧ tasks r.1 = tasks s ∧ conflicts r.1 = [] ∧
  resolvedConflicts r.1 = resolvedConflicts s ∧
  totalConflicts r.1 = totalConflicts s.
Proof.
  cbv zeta. unfold api_conflicts_resolve.
  assert (resolveConflicts (conflicts (detectConflicts clock s)) = []) as ->.
  { unfold resolveConflicts, detectConflicts. cbn [conflicts].
    induction (filter _ (pairs _)) as [|p l IH]; csimpl; [done|].
    rewrite filter_cons_False; [exact IH|]. simpl. done. }
  simpl. split_and!; try done. lia.
Qed.

End ConflictFacts.

(** ** The three copies of the grid *)

Module TopologyFacts.
Import Graph GraphFacts Frontend.

Lemma nodeGraph_on_grid a b :
  edge Coordinator.nodeGraph a b → a ∈ Enhanced.grid_nodes ∧ b ∈ Enhanced.grid_nodes.
Proof.
  unfold edge, neighbors, Coordinator.nodeGraph.
  destruct (list_to_map _ !! a) as [ns|] eqn:Hl; simpl; [|by intros ?%elem_of_nil].
  apply PlannerFacts.table_lookup in Hl. unfold Enhanced.grid_nodes.
  repeat (apply elem_of_cons in Hl as [Hl|Hl];
          [injection Hl as -> ->; intros Hb;
           repeat (apply elem_of_cons in Hb as [->|Hb]; [split; set_solver|]);
           by apply elem_of_nil in Hb|]).
  by apply elem_of_nil in Hl.
Qed.

Lemma drawn_on_grid a b : drawn a b → a ∈ Enhanced.grid_nodes ∧ b ∈ Enhanced.grid_nodes.
Proof.
  unfold drawn, nodeEdges, Enhanced.grid_nodes. intros [H|H];
    repeat (apply elem_of_cons in H as [H|H]; [injection H as -> ->; split; set_solver|]);
    by apply elem_of_nil in H.
Qed.

Lemma tables_checked :
  Forall (λ a, Forall (tables_agree_at a) Enhanced.grid_nodes) Enhanced.grid_nodes.
Proof. by_compute. Qed.

(** X25: The coordinator's [nodeGraph] has exactly the edges the dashboard
    draws, in both directions; the table of [ServerPathfinding] has the same
    edges except the one between 4 and 5. *)
Theorem grid_tables_agree a b :
  (edge Coordinator.nodeGraph a b ↔ drawn a b) ∧
  (edge Enhanced.nodeConnections a b ↔
   drawn a b ∧ (a, b) ≠ (4, 5) ∧ (a, b) ≠ (5, 4)).
Proof.
  destruct (decide (a ∈ Enhanced.grid_nodes ∧ b ∈ Enhanced.grid_nodes)) as [[Ha Hb]|Hout].
  - pose proof tables_checked as H. rewrite Forall_forall in H. specialize (H a Ha).
    rewrite Forall_forall in H. by apply H.
  - split; split.
    + intros H. exfalso. by apply Hout, nodeGraph_on_grid.
    + intros H. exfalso. by apply Hout, drawn_on_grid.
    + intros H. exfalso. apply Hout.
      apply PlannerFacts.edge_on_table in H as [? ?].
      split; by apply PlannerFacts.on_table_cases.
    + intros [H _]. exfalso. by apply Hout, drawn_on_grid.
Qed.

End TopologyFacts.

(** ** The dataset batch *)

Module BatchFacts.
Import Graph GraphFacts Coordinator CoordinatorSpec TableFacts CoordinatorFacts
  FleetFacts CreationSpec CreationFacts Batch Scenarios.

Lemma filter_alter_agv_drop (P : AGV → Prop) `{∀ a, Decision (P a)} h i l a :
  find_agv i l = Some a → P a → (∀ b, ¬ P (h b)) →
  (length (filter P (alter_agv h i l)) + 1 = length (filter P l))%nat.
Proof.
  intros Hf Ha Hh. induction l as [|b l IH]; simpl in *; [done|].
  case_decide as Hb.
  - simplify_eq. rewrite filter_cons_False by apply Hh.
    rewrite filter_cons_True by done. simpl. lia.
  - rewrite !filter_cons. destruct (decide (P b)); simpl; rewrite <- IH by done; lia.
Qed.

Lemma filter_nil_Forall {A} (P : A → Prop) `{∀ a, Decision (P a)} (l : list A) :
  filter P l = [] ↔ Forall (λ a, ¬ P a) l.
Proof.
  induction l as [|a l IH]; [done|]. rewrite filter_cons, Forall_cons.
  destruct (decide (P a)); [split; [done|tauto]|]. rewrite IH. tauto.
Qed.

Lemma startCharging_ids i s : agv_id <$> agvs (startCharging i s) = agv_id <$> agvs s.
Proof.
  unfold startCharging. destruct (find_agv i (agvs s)); [|done].
  case_decide; [|done]. simpl. by apply alter_agv_ids.
Qed.

Lemma simulateAGVMovement_agvs i route log (ch : bool) s :
  ∃ h, (∀ a, agv_id (h a) = agv_id a ∧ battery (h a) = battery a ∧
             (status (h a) = status a ∨
              status (h a) = (if ch then charging_route else busy))) ∧
       agvs (simulateAGVMovement i route log ch s) = alter_agv h i (agvs s).
Proof.
  unfold simulateAGVMovement. case_decide.
  - exists id. split; [intros a; simpl; tauto|].
    clear. induction (agvs s) as [|b l IH]; simpl; [done|]. case_decide; [done|]. by rewrite <- IH.
  - simpl. destruct (find_agv i (agvs s)) as [a0|] eqn:Hf.
    + eexists. split; [|reflexivity]. intros a. simpl. split_and!; try done. by right.
    + exists id. split; [intros a; simpl; tauto|]. simpl.
      by rewrite alter_agv_not_found.
Qed.

Lemma simulateAGVMovement_tasks i route log ch s :
  tasks (simulateAGVMovement i route log ch s) = tasks s.
Proof.
  unfold simulateAGVMovement. case_decide; [done|].
  destruct (find_agv i (agvs (with_movementQueue _ s))); done.
Qed.

Lemma createChargingTask_agvs clk i s :
  ∃ h, (∀ a, agv_id (h a) = agv_id a ∧ battery (h a) = battery a ∧
             (h a = a ∨ status (h a) = charging_route ∨ status (h a) = charging)) ∧
       agvs (createChargingTask clk i s) = alter_agv h i (agvs s) ∧
       ∃ ts, tasks (createChargingTask clk i s) = tasks s ++ ts.
Proof.
  assert (∀ l : list AGV, alter_agv id i l = l) as Hid.
  { induction l as [|b l IH]; simpl; [done|]. case_decide; [done|]. by rewrite IH. }
  unfold createChargingTask. destruct (find_agv i (agvs s)) as [a|] eqn:Ha.
  2:{ exists id. split_and!; [intros; simpl; tauto|by rewrite Hid|exists []; by rewrite app_nil_r]. }
  case_decide.
  { exists id. split_and!; [intros; simpl; tauto|by rewrite Hid|exists []; by rewrite app_nil_r]. }
  case_decide.
  - unfold startCharging. rewrite Ha, decide_True by done. simpl.
    exists (set_status charging). split_and!; [intros; simpl; tauto|done|].
    exists []. by rewrite app_nil_r.
  - match goal with |- context [simulateAGVMovement i ?r ?l true ?s1] =>
      destruct (simulateAGVMovement_agvs i r l true s1) as (h & Hh & Hagvs);
      assert (tasks (simulateAGVMovement i r l true s1) = tasks s1) as Htasks
    end.
    { apply simulateAGVMovement_tasks. }
    exists (h ∘ set_status charging_route). split_and!.
    + intros b. simpl. destruct (Hh (set_status charging_route b)) as (-> & -> & Hst).
      split_and!; try done. right. left. destruct Hst as [->| ->]; done.
    + cbn [agvs broadcast]. rewrite Hagvs. simpl. by rewrite alter_agv_compose.
    + cbn [tasks broadcast]. rewrite Htasks. simpl. by eexists.
Qed.

(** What a failed creation leaves: nobody becomes available, and tasks are
    only appended. *)
Lemma createTaskInternal_none clk payload start end_ w prio auto s s1 :
  createTaskInternal clk payload start end_ w prio auto s = (s1, NoAvailableAGV) →
  available s = [] ∧ available s1 = [] ∧
  agv_id <$> agvs s1 = agv_id <$> agvs s ∧ ∃ ts, tasks s1 = tasks s ++ ts.
Proof.
  unfold createTaskInternal, available.
  destruct (filter _ (agvs s)) as [|first others] eqn:Hav; [|done].
  intros [= <-]. split; [done|].
  generalize (filter (λ a, status a = idle ∧ needsCharging a = true) (agvs s)).
  intros l. revert s Hav. induction l as [|a l IH]; intros s Hav.
  - simpl. split_and!; [done|done|]. exists []. by rewrite app_nil_r.
  - cbn [foldl].
    destruct (createChargingTask_agvs clk (agv_id a) s) as (h & Hh & Hagvs & ts & Hts).
    destruct (IH (createChargingTask clk (agv_id a) s)) as (Hav' & Hids & ts' & Hts').
    + rewrite Hagvs. apply filter_nil_Forall in Hav. apply filter_nil_Forall.
      apply Forall_alter_agv; [done|]. intros b _ Hb.
      destruct (Hh b) as (_ & Hbat & [-> | [Hst|Hst]]); [done|..];
        intros [Hidle _]; congruence.
    + split_and!; [done| |].
      * rewrite Hids, Hagvs. apply alter_agv_ids. intros b. by destruct (Hh b).
      * exists (ts ++ ts'). by rewrite Hts', Hts, app_assoc.
Qed.

(** What a successful creation leaves: one vehicle fewer is available. *)
Lemma createTaskInternal_one clk payload start end_ w prio auto s s1 task :
  NoDup (agv_id <$> agvs s) →
  createTaskInternal clk payload start end_ w prio auto s = (s1, Created task) →
  (length (available s1) + 1 = length (available s))%nat ∧
  agv_id <$> agvs s1 = agv_id <$> agvs s ∧
  tasks s1 = tasks s ++ [task] ∧
  startNode task = start ∧ endNode task = end_ ∧ isCharging task = false.
Proof.
  intros Hids Hc.
  assert (∃ sel, sel ∈ available s ∧ agv_id sel = task_agvId task) as (sel0 & Hsel0 & Hid0).
  { revert Hc. unfold createTaskInternal, available.
    destruct (filter _ (agvs s)) as [|first others] eqn:Hav; [done|].
    destruct (foldl_best_battery others first) as [Hin _].
    intros [= <- <-]. eexists. split; [exact Hin|done]. }
  destruct (createTaskInternal_created _ _ _ _ _ _ _ _ _ _ Hids Hc)
    as (sel & Hfind & Hid & Hidle & Htask & ->).
  assert (sel0 = sel) as ->.
  { unfold available in Hsel0. apply list_elem_of_filter in Hsel0 as [_ Hin].
    pose proof (find_agv_elem_of _ _ _ Hids Hin Hid0). congruence. }
  match goal with |- context [simulateAGVMovement ?i ?r ?l false ?s1] =>
    destruct (simulateAGVMovement_agvs i r l false s1) as (h & Hh & Hagvs);
    assert (tasks (simulateAGVMovement i r l false s1) = tasks s1) as Htasks
  end.
  { apply simulateAGVMovement_tasks. }
  unfold available. cbn [agvs tasks broadcast]. rewrite Hagvs, Htasks. simpl.
  rewrite alter_agv_compose by done. split_and!.
  - apply (filter_alter_agv_drop _ _ _ _ sel).
    + by rewrite Hid.
    + unfold available in Hsel0. by apply list_elem_of_filter in Hsel0 as [? _].
    + intros b [Hst _]. simpl in Hst.
      destruct (Hh (set_position start (set_status busy b))) as (_ & _ & [Hs|Hs]);
        rewrite Hs in Hst; done.
  - apply alter_agv_ids. intros b. simpl. by destruct (Hh (set_position start (set_status busy b))).
  - done.
  - by rewrite Htask.
  - by rewrite Htask.
  - by rewrite Htask.
Qed.

Lemma process_rows_count rows : ∀ s c f s' c' f',
  NoDup (agv_id <$> agvs s) →
  foldl process_row (s, c, f) rows = (s', c', f') →
  c' = (c + length rows `min` length (available s))%nat ∧
  (c' + f' = c + f + length rows)%nat ∧
  ∃ ts, tasks s' = tasks s ++ ts.
Proof.
  induction rows as [|[[clk payload] row] rows IH]; intros s c f s' c' f' Hids Hfold.
  - simpl in Hfold. simplify_eq. split_and!; [simpl; lia..|]. exists []. by rewrite app_nil_r.
  - cbn [foldl process_row] in Hfold.
    destruct (createTaskInternal clk payload (row_start row) (row_end row) (row_weight row)
                (row_priority row) false s) as [s1 [|task]] eqn:Hc.
    + apply createTaskInternal_none in Hc as (Hav & Hav1 & Hids1 & ts1 & Hts1).
      destruct (IH _ _ _ _ _ _ ltac:(by rewrite Hids1) Hfold) as (Hc' & Hsum & ts & Hts).
      rewrite Hav1 in Hc'. rewrite Hav. cbn [length] in *. split_and!; [lia..|].
      exists (ts1 ++ ts). by rewrite Hts, Hts1, app_assoc.
    + apply createTaskInternal_one in Hc as (Hlen & Hids1 & Hts1 & _); [|done].
      destruct (IH _ _ _ _ _ _ ltac:(by rewrite Hids1) Hfold) as (Hc' & Hsum & ts & Hts).
      cbn [length] in *. split_and!; [lia..|].
      exists ([task] ++ ts). by rewrite Hts, Hts1, app_assoc.
Qed.

(** X26: A batch creates one task per row for as long as a vehicle is
    available and fails on every row after that, so [createdTasks] is the
    smaller of the number of rows and the number of available vehicles.  No
    row is validated: when a vehicle is available the first row becomes a task
    whatever its nodes are. *)
Theorem dataset_batch_outcome rows s s' rep :
  NoDup (agv_id <$> agvs s) →
  api_dataset_process rows s = (s', Some rep) →
  createdTasks rep = (length rows `min` length (available s))%nat ∧
  (createdTasks rep + failedTasks rep = length rows)%nat ∧
  totalTasks rep = length rows ∧
  ∀ clk payload row rest,
    rows = (clk, payload, row) :: rest → available s ≠ [] →
    ∃ t, t ∈ tasks s' ∧ startNode t = row_start row ∧ endNode t = row_end row ∧
         isCharging t = false.
Proof.
  intros Hids. unfold api_dataset_process. destruct rows as [|r rows]; [done|].
  destruct (foldl process_row (s, 0%nat, 0%nat) (r :: rows)) as [[s2 c] f] eqn:Hfold.
  intros [= <- <-]. cbn [createdTasks failedTasks totalTasks].
  destruct (process_rows_count _ _ _ _ _ _ _ Hids Hfold) as (Hc & Hsum & _).
  split_and!; [lia..|done|].
  intros clk payload row rest [= -> ->] Hav. cbn [foldl process_row] in Hfold.
  destruct (createTaskInternal clk payload (row_start row) (row_end row) (row_weight row)
              (row_priority row) false s) as [s1 [|task]] eqn:Hcr.
  - apply createTaskInternal_none in Hcr as (Hnil & _). done.
  - apply createTaskInternal_one in Hcr as (_ & Hids1 & Hts1 & Hs & He & Hch); [|done].
    destruct (process_rows_count _ _ _ _ _ _ _ ltac:(by rewrite Hids1) Hfold)
      as (_ & _ & ts & Hts).
    exists task. split_and!; try done. rewrite Hts, Hts1. set_solver.
Qed.

(** The five sample rows on the started server: three vehicles, three
    tasks. *)
Lemma dataset_batch_outcome_witness :
  createdTasks (mkReport 3 2 5) = (length sample_rows `min` length (available started))%nat ∧
  (createdTasks (mkReport 3 2 5) + failedTasks (mkReport 3 2 5) = length sample_rows)%nat.
Proof.
  destruct (dataset_batch_outcome sample_rows started
              (api_dataset_process sample_rows started).1 (mkReport 3 2 5))
    as (Hc & Hf & _).
  - by_compute.
  - vm_compute. reflexivity.
  - split; [exact Hc|exact Hf].
Defined.

End BatchFacts.

(** ** The messages of a tick *)

Module MessageFacts.
Import Graph GraphFacts Coordinator CoordinatorSpec TableFacts CoordinatorFacts
  TickSpec TickFacts.

Lemma completeAGVTask_message i pos log ch s :
  is_Some (find_agv i (agvs s)) →
  broadcasts (completeAGVTask i pos log ch s)
  = broadcasts s ++ [taskCompleted i pos log ch].
Proof.
  intros [a Ha]. unfold completeAGVTask. rewrite Ha. cbv zeta.
  unfold broadcast. cbn [broadcasts]. f_equal.
  destruct (ch && bool_decide (pos = CHARGING_NODE)).
  - by destruct (startCharging_frame i (with_agvs (alter_agv (set_position pos) i) s))
      as (_ & _ & _ & _ & ->).
  - by destruct (needsCharging a && bool_decide (pos ≠ CHARGING_NODE)).
Qed.

Lemma plan_fold_messages q : ∀ s moves,
  (∀ i, i ∈ q.*1 → is_Some (find_agv i (agvs s))) →
  ∃ evs, broadcasts (foldl plan_entry (s, moves) q).1 = broadcasts s ++ evs ∧
         tick_message_agv <$> evs
         = Some <$> (filter (λ e : string * MovementData, ¬ pending e.2) q).*1.
Proof.
  induction q as [|[i md] q IH]; intros s moves Hall; cbn [foldl].
  - exists []. by rewrite app_nil_r.
  - destruct (plan_entry (s, moves) (i, md)) as [s1 moves1] eqn:Hpe.
    pose proof (plan_entry_frame s moves i md) as Hfr. rewrite Hpe in Hfr.
    cbn [fst] in Hfr. destruct Hfr as (_ & Hids & _).
    destruct (IH s1 moves1) as (evs & Hb & Hev).
    { intros j Hj. rewrite (find_agv_is_Some_ids j _ _ Hids).
      apply Hall. by right. }
    rewrite filter_cons. cbn [snd]. destruct (decide (pending md)) as [Hp|Hp].
    + rewrite decide_False by tauto.
      rewrite plan_entry_pending in Hpe by done.
      exists evs. split; [|done]. rewrite Hb. by case_decide; simplify_eq.
    + rewrite decide_True by done. rewrite plan_entry_complete in Hpe by done.
      simplify_eq. exists (taskCompleted i (at_index (path md) (length (path md) - 1))
                             (md_log md) (isChargingTask md) :: evs).
      split; [|by csimpl; rewrite Hev].
      rewrite Hb. cbn [with_movementQueue broadcasts].
      rewrite completeAGVTask_message by (apply Hall; left).
      by rewrite <- app_assoc.
Qed.

Lemma execute_fold_messages moves : ∀ s,
  (∀ m, m ∈ moves → is_Some (find_agv (mv_agvId m) (agvs s))) →
  ∃ evs, broadcasts (foldl execute_movement s moves) = broadcasts s ++ evs ∧
         tick_message_agv <$> evs = Some <$> (mv_agvId <$> moves).
Proof.
  induction moves as [|m moves IH]; intros s Hall; cbn [foldl].
  - exists []. by rewrite app_nil_r.
  - destruct (execute_movement_frame s m) as (Hids & _).
    destruct (IH (execute_movement s m)) as (evs & Hb & Hev).
    { intros m' Hm'. rewrite (find_agv_is_Some_ids _ _ _ Hids). apply Hall. by right. }
    destruct (Hall m) as [a Ha]; [left|].
    exists (agvMovement (mv_agvId m) (mv_to m)
              (if negb (mv_isChargingTask m) then Z.max 10 (battery a - 3)
               else Z.max 10 (battery a - 1))
              (mv_isChargingTask m) false :: evs).
    split; [|by csimpl; rewrite Hev].
    rewrite Hb, cons_middle, app_assoc. f_equal.
    unfold execute_movement. rewrite Ha. cbv zeta.
    unfold broadcast. cbn [broadcasts]. f_equal.
    by destruct (mq_get _ _).
Qed.

Lemma report_fold_messages moves q : ∀ s,
  ∃ evs, broadcasts (foldl (report_waiting moves) s q) = broadcasts s ++ evs ∧
         tick_message_agv <$> evs
         = Some <$> filter (λ i, i ∉ mv_agvId <$> moves) q.*1.
Proof.
  induction q as [|[i md] q IH]; intros s; cbn [foldl].
  - exists []. by rewrite app_nil_r.
  - destruct (IH (report_waiting moves s (i, md))) as (evs & Hb & Hev).
    csimpl. rewrite filter_cons. unfold report_waiting in Hb |- *. cbn [fst] in *.
    destruct (decide (Exists (λ m, mv_agvId m = i) moves)) as [Hex|Hex].
    + rewrite decide_False.
      2: { intros Hni. apply Hni. apply Exists_exists in Hex as (m & Hm & <-).
           by apply list_elem_of_fmap_2. }
      by exists evs.
    + rewrite decide_True.
      2: { intros (m & -> & Hm)%list_elem_of_fmap. apply Hex, Exists_exists. by exists m. }
      exists (agvWaiting i (position <$> find_agv i (agvs s)) :: evs).
      split; [|by csimpl; rewrite Hev].
      rewrite Hb. unfold broadcast. cbn [broadcasts]. by rewrite <- app_assoc.
Qed.

Lemma filter_keys_NoDup (P : string * MovementData → Prop) `{∀ e, Decision (P e)} q :
  NoDup q.*1 → NoDup (filter P q).*1.
Proof.
  intros Hnd. eapply sublist_NoDup; [exact Hnd|].
  apply fmap_sublist, sublist_filter.
Qed.

(** X27: In a tick every queued vehicle of the fleet gets exactly one message,
    [taskCompleted], [agvMovement] or [agvWaiting], and the tick broadcasts
    nothing else. *)
Theorem tick_one_message_per_queued_vehicle s :
  NoDup (movementQueue s).*1 →
  (∀ i, i ∈ (movementQueue s).*1 → is_Some (find_agv i (agvs s))) →
  ∃ evs, broadcasts (coordinateSimultaneousMovement s) = broadcasts s ++ evs ∧
         tick_message_agv <$> evs ≡ₚ Some <$> (movementQueue s).*1.
Proof.
  intros Hnd Hall. rewrite tick_unfold.
  destruct (plan_state s Hnd) as (_ & Hnd1 & Hids1 & _ & Hnone1 & Hpend1 & Hcomp1).
  pose proof (plan_moves_NoDup s Hnd) as Hmoves.
  destruct (execute_fold_frame (plan s).2 (plan s).1 Hmoves) as (_ & _ & Hk2 & _).
  destruct (plan_fold_messages (movementQueue s) (with_reservedNodes (λ _, ∅) s) [] Hall)
    as (evs1 & Hb1 & Hev1).
  fold (plan s) in Hb1. cbn [with_reservedNodes broadcasts] in Hb1.
  assert (∀ m, m ∈ (plan s).2 → ∃ md, mq_get (mv_agvId m) (movementQueue s) = Some md ∧ pending md)
    as Hmv.
  { intros m Hm. destruct (plan_moves_ids s m Hnd Hm) as (md & Hq & Hp & _). eauto. }
  destruct (execute_fold_messages (plan s).2 (plan s).1) as (evs2 & Hb2 & Hev2).
  { intros m Hm. rewrite (find_agv_is_Some_ids _ _ _ Hids1). apply Hall.
    destruct (Hmv m Hm) as (md & Hq & _). apply mq_get_Some in Hq.
    apply list_elem_of_fmap. by exists (mv_agvId m, md). }
  destruct (report_fold_messages (plan s).2
              (movementQueue (foldl execute_movement (plan s).1 (plan s).2))
              (foldl execute_movement (plan s).1 (plan s).2)) as (evs3 & Hb3 & Hev3).
  exists (evs1 ++ evs2 ++ evs3). split.
  { rewrite Hb3, Hb2, Hb1. by rewrite <- !app_assoc. }
  rewrite !fmap_app, Hev1, Hev2, Hev3, Hk2, <- !fmap_app.
  apply fmap_Permutation.
  assert (∀ x, x ∈ (filter (λ e : string * MovementData, ¬ pending e.2) (movementQueue s)).*1 ↔
               ∃ md, mq_get x (movementQueue s) = Some md ∧ ¬ pending md) as Hdone.
  { intros x. rewrite list_elem_of_fmap. split.
    - intros ([k md] & -> & [Hp Hin]%list_elem_of_filter). exists md.
      split; [by apply mq_get_elem_of|done].
    - intros (md & Hq & Hp). exists (x, md). split; [done|].
      apply list_elem_of_filter. split; [done|by apply mq_get_Some]. }
  assert (∀ x, x ∈ (movementQueue (plan s).1).*1 ↔
               ∃ md, mq_get x (movementQueue s) = Some md ∧ pending md) as Hleft.
  { intros x. destruct (mq_get x (movementQueue s)) as [md|] eqn:Hq.
    - destruct (decide (pending md)) as [Hp|Hp].
      + destruct (Hpend1 x md Hq Hp) as [_ Hq1]. split; [eauto|]. intros _.
        apply mq_get_Some in Hq1. apply list_elem_of_fmap. by exists (x, md).
      + destruct (Hcomp1 x md Hq Hp) as [Hq1 _]. apply mq_get_None in Hq1.
        split; [done|]. intros (md' & [= <-] & Hp'). done.
    - destruct (Hnone1 x Hq) as [_ Hq1]. apply mq_get_None in Hq1.
      split; [done|]. intros (md' & [=] & _). }
  apply NoDup_Permutation.
  - apply NoDup_app. split_and!.
    + by apply filter_keys_NoDup.
    + intros x (md & Hq & Hp)%Hdone [Hx|Hx]%elem_of_app.
      * apply list_elem_of_fmap in Hx as (m & -> & Hm).
        destruct (Hmv m Hm) as (md' & Hq' & Hp'). congruence.
      * apply list_elem_of_filter in Hx as [_ Hx]. apply Hleft in Hx as (md' & Hq' & Hp').
        congruence.
    + apply NoDup_app. split_and!; [done| |by apply NoDup_filter].
      intros x Hx [Hni _]%list_elem_of_filter. done.
  - done.
  - intros x. rewrite !elem_of_app, Hdone, list_elem_of_filter, Hleft. split.
    + intros [(md & Hq & _)|[Hx|[_ (md & Hq & _)]]].
      * apply mq_get_Some in Hq. apply list_elem_of_fmap. by exists (x, md).
      * apply list_elem_of_fmap in Hx as (m & -> & Hm).
        destruct (Hmv m Hm) as (md & Hq & _). apply mq_get_Some in Hq.
        apply list_elem_of_fmap. by exists (mv_agvId m, md).
      * apply mq_get_Some in Hq. apply list_elem_of_fmap. by exists (x, md).
    + intros Hx. destruct (mq_get x (movementQueue s)) as [md|] eqn:Hq.
      * destruct (decide (pending md)) as [Hp|Hp]; [|left; eauto]. right.
        destruct (decide (x ∈ mv_agvId <$> (plan s).2)); [by left|right]. eauto.
      * apply mq_get_None in Hq. done.
Qed.

(** The tick of [one_route] sends one message, about AGV1. *)
Lemma tick_one_message_per_queued_vehicle_witness :
  ∃ evs, broadcasts (coordinateSimultaneousMovement one_route)
         = broadcasts one_route ++ evs ∧
         tick_message_agv <$> evs ≡ₚ [Some "AGV1"].
Proof.
  apply (tick_one_message_per_queued_vehicle one_route).
  - exact (inv_keys _ one_route_inv).
  - intros i Hi. simpl in Hi. apply list_elem_of_singleton in Hi as ->.
    eexists. reflexivity.
Defined.

End MessageFacts.

(** ** A vehicle alone on its route *)

Module LoneFacts.
Import Graph GraphFacts Coordinator CoordinatorSpec TableFacts CoordinatorFacts
  TickSpec TickFacts.

Lemma alter_agv_found f g i l a :
  find_agv i l = Some a → f a = g a → alter_agv f i l = alter_agv g i l.
Proof.
  intros Ha Hfg. induction l as [|b l IH]; simpl in *; [done|].
  case_decide; simplify_eq; [by rewrite Hfg|]. by rewrite IH.
Qed.

(** One tick of a state whose queue holds a single route with a free next
    node. *)
Lemma tick_lone_step s i md a :
  movementQueue s = [(i, md)] → find_agv i (agvs s) = Some a →
  pending md → next_node md ∉ occupiedNodes s →
  let s' := coordinateSimultaneousMovement s in
  agvs s' = alter_agv (moved (movement_of i md)) i (agvs s) ∧
  movementQueue s' = [(i, advanced (movement_of i md) md)] ∧
  occupiedNodes s'
  = occupiedNodes s ∖ {[at_index (path md) (currentIndex md)]} ∪ {[next_node md]}.
Proof.
  intros Hq Ha Hp Hocc.
  unfold coordinateSimultaneousMovement, plan. rewrite Hq. cbn [foldl].
  rewrite plan_entry_pending by done.
  rewrite decide_True by (split; [done|apply lookup_empty]).
  cbn [app foldl]. unfold execute_movement.
  cbn [movement_of mv_agvId with_reservedNodes agvs]. rewrite Ha. cbv zeta.
  cbn [with_agvs with_occupiedNodes with_reservedNodes with_movementQueue broadcast
       movementQueue].
  rewrite Hq. cbn [mq_get]. rewrite decide_True by done.
  cbn [with_agvs with_occupiedNodes with_reservedNodes with_movementQueue broadcast
       movementQueue].
  rewrite Hq. cbn [mq_set]. rewrite decide_True by done.
  cbn [foldl]. unfold report_waiting. cbn [fst].
  rewrite decide_True by (apply Exists_cons_hd; reflexivity).
  cbn [with_agvs with_occupiedNodes with_reservedNodes with_movementQueue broadcast
       agvs movementQueue occupiedNodes mv_from mv_to mv_isChargingTask mv_newIndex].
  split_and!; try done.
  - apply (alter_agv_found _ _ _ _ a Ha).
    unfold moved, drain, movement_of. cbn [mv_isChargingTask mv_to].
    destruct (isChargingTask md); reflexivity.
  - rewrite Hq. cbn [mq_set]. by rewrite decide_True.
Qed.

(** X28: A vehicle whose route is the only one queued and whose remaining
    nodes are free takes one step per tick: after [j] ticks it stands on the
    [j]-th next node of the route with 3 points less per step (1 on a charging
    route), never below 10, and no other vehicle has changed. *)
Theorem lone_vehicle_follows_route i j : ∀ s md a,
  movementQueue s = [(i, md)] → find_agv i (agvs s) = Some a →
  position a = at_index (path md) (currentIndex md) → 10 ≤ battery a →
  NoDup (path md) →
  (∀ n, n ∈ drop (S (currentIndex md)) (path md) → n ∉ occupiedNodes s) →
  (currentIndex md + j < length (path md))%nat →
  let s' := Nat.iter j coordinateSimultaneousMovement s in
  find_agv i (agvs s')
  = Some (mkAGV (agv_id a) (at_index (path md) (currentIndex md + j))
            (Z.max 10 (battery a - drain (isChargingTask md) * Z.of_nat j))
            (status a) (algorithm a)) ∧
  movementQueue s'
  = [(i, mkMovementData (path md) (currentIndex md + j) (md_log md)
           (isChargingTask md))] ∧
  (∀ k, k ≠ i → find_agv k (agvs s') = find_agv k (agvs s)).
Proof.
  induction j as [|j IH]; intros s md a Hq Ha Hpos Hbat Hnd Hfree Hlen.
  - simpl. rewrite Nat.add_0_r, Ha, Hq. split_and!; [|by destruct md|done].
    f_equal. destruct a; simpl in *. f_equal; [done|lia].
  - rewrite Nat.iter_succ_r.
    assert (pending md) as Hp by (unfold pending; lia).
    assert (path md !! S (currentIndex md) = Some (next_node md)) as Hnext.
    { unfold next_node, at_index. rewrite Nat.add_1_r.
      destruct (lookup_lt_is_Some_2 (path md) (S (currentIndex md))) as [x ->]; [lia|done]. }
    assert (next_node md ∉ occupiedNodes s) as Hocc.
    { apply Hfree. apply list_elem_of_lookup. exists 0%nat.
      by rewrite lookup_drop, Nat.add_0_r. }
    destruct (tick_lone_step s i md a Hq Ha Hp Hocc) as (Hagvs & Hq1 & Hocc1).
    pose proof (find_agv_Some _ _ _ Ha) as [_ Hid].
    assert (keeps_id (moved (movement_of i md))) as Hkeep by done.
    destruct (IH (coordinateSimultaneousMovement s)
                (advanced (movement_of i md) md) (moved (movement_of i md) a))
      as (Hf & Hq' & Hother); try done.
    + rewrite Hagvs, find_agv_alter_eq, Ha by done. done.
    + simpl. lia.
    + simpl. intros n Hn. rewrite Hocc1.
      assert (n ∈ drop (S (currentIndex md)) (path md)) as Hn'.
      { apply list_elem_of_lookup in Hn as [k Hk]. rewrite lookup_drop in Hk.
        apply list_elem_of_lookup. exists (S k). rewrite lookup_drop.
        rewrite <- Hk. f_equal. lia. }
      apply not_elem_of_union. split.
      * apply not_elem_of_difference. left. by apply Hfree.
      * apply not_elem_of_singleton. intros ->.
        apply list_elem_of_lookup in Hn as [k Hk]. rewrite lookup_drop in Hk.
        pose proof (NoDup_lookup _ _ _ _ Hnd Hk Hnext). lia.
    + simpl. lia.
    + cbv zeta. simpl in Hf, Hq'. rewrite Hf, Hq'. split_and!.
      * f_equal. f_equal; [f_equal; lia|]. unfold drain. destruct (isChargingTask md); lia.
      * do 2 f_equal. f_equal. lia.
      * intros k Hk. rewrite (Hother k Hk), Hagvs. by apply find_agv_alter_ne.
Qed.

(** The route of [one_route] is free: two ticks take AGV1 from 1 to 3. *)
Lemma lone_vehicle_follows_route_witness :
  find_agv "AGV1" (agvs (Nat.iter 2 coordinateSimultaneousMovement one_route))
  = Some (mkAGV "AGV1" 3 94 idle "A*").
Proof.
  destruct (lone_vehicle_follows_route "AGV1" 2 one_route
              (mkMovementData [1; 2; 3] 0 (mkLog "1" 1 3 "12:00:00" 10 (Some 7)) false)
              (mkAGV "AGV1" 1 100 idle "A*")) as (Hf & _).
  - reflexivity.
  - reflexivity.
  - reflexivity.
  - simpl. lia.
  - by_compute.
  - intros n Hn. simpl in Hn.
    repeat (apply elem_of_cons in Hn as [->|Hn]); [by_compute..|].
    by apply elem_of_nil in Hn.
  - simpl. lia.
  - exact Hf.
Defined.

End LoneFacts.

(** ** Restart and the 5-second generator *)

Module ControlFacts.
Import Graph GraphFacts Coordinator CoordinatorSpec TableFacts CoordinatorFacts
  Scenarios.

Lemma find_agv_fmap f i l : keeps_id f → find_agv i (f <$> l) = f <$> find_agv i l.
Proof.
  intros Hf. induction l as [|b l IH]; csimpl; [done|].
  rewrite Hf. by case_decide.
Qed.

(** X29: Stopping and starting the simulation again repairs the coordinator's
    books: if no two vehicles share a node, the restarted state satisfies the
    coordinator invariant, with an empty queue and every vehicle idle.  The
    task list and the pending timers are not touched. *)
Theorem restart_restores_invariant s :
  NoDup (agv_id <$> agvs s) → occupancy_injective s →
  let s' := api_simulation_start (api_simulation_stop s) in
  coordinator_inv s' ∧ movementQueue s' = [] ∧
  Forall (λ a, status a = idle) (agvs s') ∧
  position <$> agvs s' = position <$> agvs s ∧
  tasks s' = tasks s ∧ timers s' = timers s.
Proof.
  intros Hids Hinj. cbv zeta.
  assert (keeps_id (set_status idle)) as Hkeep by done.
  assert (agvs (api_simulation_start (api_simulation_stop s))
          = set_status idle <$> agvs s) as Hagvs by done.
  assert (∀ i a, find_agv i (agvs (api_simulation_start (api_simulation_stop s))) = Some a →
                 ∃ a0, find_agv i (agvs s) = Some a0 ∧ position a = position a0) as Hfind.
  { intros i a. rewrite Hagvs, find_agv_fmap by done.
    destruct (find_agv i (agvs s)) as [a0|]; [|done]. intros [= <-]. by exists a0. }
  split_and!; try done.
  - split.
    + rewrite Hagvs, <- list_fmap_compose. done.
    + intros i j a b (a0 & Ha0 & Hpa)%Hfind (b0 & Hb0 & Hpb)%Hfind Hpos.
      apply (Hinj i j a0 b0); congruence.
    + intros i a Ha. apply find_agv_Some in Ha as [Hin _].
      change (occupiedNodes (api_simulation_start (api_simulation_stop s)))
        with (list_to_set (C := gset Z) (position <$> (set_status idle <$> agvs s))).
      rewrite Hagvs in Hin. apply elem_of_list_to_set, list_elem_of_fmap. by exists a.
    + apply NoDup_nil_2.
    + intros i md Hq. done.
  - rewrite Hagvs. apply Forall_fmap, Forall_true. done.
  - rewrite Hagvs, <- list_fmap_compose. done.
Qed.

(** The server with one route queued is stopped and started again. *)
Lemma restart_restores_invariant_witness :
  coordinator_inv (api_simulation_start (api_simulation_stop one_route)) ∧
  movementQueue (api_simulation_start (api_simulation_stop one_route)) = [].
Proof.
  destruct (restart_restores_invariant one_route
              (inv_ids _ one_route_inv) (inv_injective _ one_route_inv))
    as (Hinv & Hq & _).
  split; [exact Hinv|exact Hq].
Defined.

Lemma getAvailableAGV_Some s i :
  NoDup (agv_id <$> agvs s) → getAvailableAGV s = Some i →
  ∃ a, find_agv i (agvs s) = Some a ∧ status a = idle.
Proof.
  intros Hids. unfold getAvailableAGV.
  destruct (filter (λ a, status a = idle) (agvs s)) as [|a l] eqn:Hf; [done|].
  intros [= <-]. exists a.
  assert (a ∈ filter (λ a, status a = idle) (agvs s)) as Hin by (rewrite Hf; left).
  apply list_elem_of_filter in Hin as [Hst Hin].
  split; [by apply find_agv_elem_of|done].
Qed.

(** X30: A task of the 5-second generator and the timeout that completes it:
    the first idle vehicle is put on the start node as [executing], then on
    the end node as [idle], and one more task is counted; its battery, the
    occupied nodes and the movement queue stay as they were. *)
Theorem autoTaskInterval_round_trip clk clk' d s i endN :
  NoDup (agv_id <$> agvs s) →
  isRunning s = true → roll_fires d = true →
  redraw (draw_start d) (draw_ends d) = Some endN →
  getAvailableAGV s = Some i →
  let s1 := autoTaskInterval clk d s in
  let s2 := fire clk' (AutoCompleteTimeout (length (tasks s)) i endN) s1 in
  ∃ a, find_agv i (agvs s) = Some a ∧ status a = idle ∧
       find_agv i (agvs s1)
       = Some (mkAGV (agv_id a) (draw_start d) (battery a) executing (algorithm a)) ∧
       find_agv i (agvs s2)
       = Some (mkAGV (agv_id a) endN (battery a) idle (algorithm a)) ∧
       (∃ t, tasks s2 = tasks s ++ [t] ∧ task_status t = task_completed ∧
             task_agvId t = i ∧ startNode t = draw_start d ∧ endNode t = endN) ∧
       totalTasksCompleted s2 = totalTasksCompleted s + 1 ∧
       occupiedNodes s2 = occupiedNodes s ∧
       movementQueue s2 = movementQueue s.
Proof.
  intros Hids Hrun Hroll Hre Hav. cbv zeta.
  destruct (getAvailableAGV_Some s i Hids Hav) as (a & Ha & Hidle).
  exists a. split; [done|]. split; [done|].
  unfold autoTaskInterval. rewrite Hrun, Hroll, Hre, Hav. cbn [andb]. cbv zeta.
  set (t := mkTask _ _ _ _ _ _ _ _ _ _ _ _ _).
  assert (keeps_id (λ a, set_position (draw_start d) (set_status executing a)))
    as Hk1 by done.
  assert (keeps_id (λ a, set_position endN (set_status idle a))) as Hk2 by done.
  unfold fire. rewrite decide_True.
  2: { cbn [with_timers timers]. apply elem_of_app. right. left. }
  cbv zeta. cbn [with_timers with_tasks with_agvs broadcast tasks agvs].
  assert (alter (complete_task (now clk')) (length (tasks s)) (tasks s ++ [t])
          = tasks s ++ [complete_task (now clk') t]) as Halt.
  { rewrite <- (Nat.add_0_r (length (tasks s))) at 1. by rewrite alter_app_r. }
  rewrite Halt, lookup_app_r, Nat.sub_diag by done. cbn [lookup list_lookup].
  cbn [with_totalTasksCompleted with_timers with_tasks with_agvs broadcast agvs tasks
       totalTasksCompleted occupiedNodes movementQueue].
  rewrite Halt, alter_agv_compose, !find_agv_alter_eq, Ha by done.
  split_and!; try done.
  by exists (complete_task (now clk') t).
Qed.

(** On the started server the generator draws a task from 4 to 6; it goes
    to AGV1, which ends up idle on node 6 with its battery untouched. *)
Lemma autoTaskInterval_round_trip_witness :
  find_agv "AGV1"
    (agvs (fire (at_ms 3000) (AutoCompleteTimeout 0 "AGV1" 6)
             (autoTaskInterval (at_ms 100) (mkDraws true 4 [4; 6] 20 "high" 41)
                started)))
  = Some (mkAGV "AGV1" 6 100 idle "A*").
Proof.
  destruct (autoTaskInterval_round_trip (at_ms 100) (at_ms 3000)
              (mkDraws true 4 [4; 6] 20 "high" 41) started "AGV1" 6)
    as (a & Ha & _ & _ & Hf & _).
  - by_compute.
  - reflexivity.
  - reflexivity.
  - reflexivity.
  - reflexivity.
  - assert (a = mkAGV "AGV1" 1 100 idle "A*") as -> by (vm_compute in Ha; congruence).
    exact Hf.
Defined.

End ControlFacts.
